(** * The suggestion parser of the accessibility dashboard

    A shallow embedding of the two [parseSuggestion] functions of the
    repository (the one local to [src/components/ResultsView.js] and the
    exported one of a second module), together with the part of the
    JavaScript string and regular-expression semantics they rely on, and the
    properties of the parser proved on that embedding. *)

From Stdlib Require Import String Ascii NArith Bool Arith Lia List.
Import ListNotations.

Set Implicit Arguments.

(** ** JavaScript strings *)

Module JsString.

(** A JavaScript string is a sequence of UTF-16 code units.  The regular
    expressions of the parser carry no [u] flag, so matching, [trim] and
    [split] all work code unit by code unit. *)
Definition codeunit := N.
Bind Scope N_scope with codeunit.
Definition jsstring := list codeunit.

(** ASCII text as a JavaScript string. *)
Definition u16 (s : string) : jsstring :=
  map N_of_ascii (list_ascii_of_string s).

Definition inRange (lo hi c : codeunit) : bool :=
  (lo <=? c)%N && (c <=? hi)%N.

(** WhiteSpace and LineTerminator of ECMA-262: what [String.prototype.trim]
    removes and what the class escape [\s] matches. *)
Definition isWhiteSpace (c : codeunit) : bool :=
  (inRange 9 13 c || (c =? 32) || (c =? 160) || (c =? 5760)
   || inRange 8192 8202 c || (c =? 8232) || (c =? 8233)
   || (c =? 8239) || (c =? 8287) || (c =? 12288) || (c =? 65279))%N.

Definition isDigit (c : codeunit) : bool := inRange 48 57 c.

(** [\w]: the basic word characters [A-Za-z0-9_]. *)
Definition isWordChar (c : codeunit) : bool :=
  (inRange 65 90 c || inRange 97 122 c || isDigit c || (c =? 95))%N.

Definition toUpperAscii (c : codeunit) : codeunit :=
  if inRange 97 122 c then (c - 32)%N else c.

Definition toLowerAscii (c : codeunit) : codeunit :=
  if inRange 65 90 c then (c + 32)%N else c.

Fixpoint trimStart (s : jsstring) : jsstring :=
  match s with
  | c :: s' => if isWhiteSpace c then trimStart s' else s
  | [] => []
  end.

Definition trimEnd (s : jsstring) : jsstring := rev (trimStart (rev s)).

(** [s.trim()] *)
Definition trim (s : jsstring) : jsstring := trimEnd (trimStart s).

(** [s.split(sep)] for a separator of one code unit: the empty string
    splits into one empty piece. *)
Fixpoint split (sep : codeunit) (s : jsstring) : list jsstring :=
  match s with
  | [] => [[]]
  | c :: s' =>
      if (c =? sep)%N then [] :: split sep s'
      else match split sep s' with
           | piece :: pieces => (c :: piece) :: pieces
           | [] => [[c]]
           end
  end.

(** [pieces.join(sep)] *)
Fixpoint join (sep : codeunit) (pieces : list jsstring) : jsstring :=
  match pieces with
  | [] => []
  | [p] => p
  | p :: ps => p ++ sep :: join sep ps
  end.

Definition LF : codeunit := 10%N.

(** Lines joined by ["\n"]. *)
Definition unlines (ls : list jsstring) : jsstring := join LF ls.

End JsString.

Import JsString.

(** ** Regular expressions

    The backtracking matcher of ECMA-262 for the constructs the parser's
    regular-expression literals use.  A matcher maps a state to the list of
    the states it can end in, in the order backtracking tries them; the first
    one is the match. *)

Module Regex.

Inductive classItem :=
| ClsChar (c : codeunit)
| ClsSpace                  (* \s *)
| ClsNonSpace               (* \S *)
| ClsWord                   (* \w *)
| ClsDigit.                 (* \d *)

Inductive atom :=
| Chr (c : codeunit)              (* a pattern character *)
| Class (items : list classItem). (* [...] or a class escape *)

(** Every quantifier of the source applies to one character atom. *)
Inductive regex :=
| Eps
| Atom (a : atom)
| Cat (r1 r2 : regex)
| Star (a : atom)       (* a*  *)
| StarLazy (a : atom)   (* a*? *)
| Plus (a : atom)       (* a+  *)
| Opt (a : atom)        (* a?  *)
| Group (r : regex)     (* ( r ), the only capturing group *)
| Ahead (r : regex)     (* (?= r) *)
| Bol.                  (* ^ without the m flag *)

(** A regular-expression literal: pattern and [i] flag.  No literal of the
    source has the [g], [m], [y] or [u] flag. *)
Record RegExp := { source : regex; ignoreCase : bool }.

(** The pattern characters of a piece of ASCII text, in sequence. *)
Fixpoint chars (l : jsstring) : regex :=
  match l with
  | [] => Eps
  | c :: l' => Cat (Atom (Chr c)) (chars l')
  end.

Definition lit (s : string) : regex := chars (u16 s).

Definition itemMatches (c : codeunit) (it : classItem) : bool :=
  match it with
  | ClsChar c' => (c =? c')%N
  | ClsSpace => isWhiteSpace c
  | ClsNonSpace => negb (isWhiteSpace c)
  | ClsWord => isWordChar c
  | ClsDigit => isDigit c
  end.

(** Canonicalize of ECMA-262 without the [u] flag: the upper-case form of
    the code unit, except that a code unit of 128 or more is never mapped to
    one below 128.  Every pattern character and class of the source's
    case-insensitive literals is ASCII or matches every code unit, so only
    the ASCII part of the mapping can decide a comparison; above 127 it is
    taken as the identity. *)
Definition canonicalize (ic : bool) (c : codeunit) : codeunit :=
  if ic then toUpperAscii c else c.

Definition atomMatches (ic : bool) (a : atom) (c : codeunit) : bool :=
  match a with
  | Chr p => (canonicalize ic c =? canonicalize ic p)%N
  | Class items =>
      existsb (itemMatches c) items
      || (ic && (existsb (itemMatches (toUpperAscii c)) items
                 || existsb (itemMatches (toLowerAscii c)) items))
  end.

(** Remaining input and the capture of group 1. *)
Definition state := (jsstring * option jsstring)%type.

(** The ends of [a*], longest first. *)
Fixpoint starGreedy (p : codeunit -> bool) (rest : jsstring) : list jsstring :=
  match rest with
  | c :: rest' => if p c then starGreedy p rest' ++ [rest] else [rest]
  | [] => [[]]
  end.

(** The ends of [a*?], shortest first. *)
Fixpoint starLazy (p : codeunit -> bool) (rest : jsstring) : list jsstring :=
  rest :: match rest with
          | c :: rest' => if p c then starLazy p rest' else []
          | [] => []
          end.

Section Matcher.
Variable ic : bool.
Variable input : jsstring.

(** The ends of the matches of [r] from [st], first choice first.  A
    sequence tries the ends of its first part in order and, for each, the ends
    of its second part; the group records what its body took; a lookahead
    commits to the first match of its body, takes no input and keeps the
    capture; [^] holds only where all of [input] remains. *)
Fixpoint matcher (r : regex) (st : state) : list state :=
  match r with
  | Eps => [st]
  | Atom a =>
      match fst st with
      | c :: rest' => if atomMatches ic a c then [(rest', snd st)] else []
      | [] => []
      end
  | Cat r1 r2 => flat_map (matcher r2) (matcher r1 st)
  | Star a =>
      map (fun rest' => (rest', snd st)) (starGreedy (atomMatches ic a) (fst st))
  | StarLazy a =>
      map (fun rest' => (rest', snd st)) (starLazy (atomMatches ic a) (fst st))
  | Plus a =>
      match fst st with
      | c :: rest' =>
          if atomMatches ic a c
          then map (fun rest'' => (rest'', snd st))
                   (starGreedy (atomMatches ic a) rest')
          else []
      | [] => []
      end
  | Opt a =>
      match fst st with
      | c :: rest' => if atomMatches ic a c then [(rest', snd st); st] else [st]
      | [] => [st]
      end
  | Group r1 =>
      map (fun st' =>
             (fst st',
              Some (firstn (length (fst st) - length (fst st')) (fst st))))
          (matcher r1 st)
  | Ahead r1 =>
      match matcher r1 st with
      | st' :: _ => [(fst st, snd st')]
      | [] => []
      end
  | Bol => if length (fst st) =? length input then [st] else []
  end.

(** What [RegExp.prototype.exec] returns on a match: where the match
    starts, the input after the match, and group 1 ([None] is
    [undefined]). *)
Record MatchResult := {
  index : nat;
  after : jsstring;
  group1 : option jsstring
}.

(** The match is tried at each start position in turn, [rest] being the
    input from that position on. *)
Fixpoint execFrom (r : regex) (rest : jsstring) : option MatchResult :=
  match matcher r (rest, None) with
  | st' :: _ =>
      Some {| index := length input - length rest;
              after := fst st';
              group1 := snd st' |}
  | [] =>
      match rest with
      | _ :: rest' => execFrom r rest'
      | [] => None
      end
  end.

End Matcher.

(** [s.match(re)] for a literal without the [g] flag: the [exec] result or
    [None] for [null]. *)
Definition strMatch (s : jsstring) (re : RegExp) : option MatchResult :=
  execFrom (ignoreCase re) s (source re) s.

(** [re.test(s)], also the truth value of [s.match(re)]. *)
Definition test (re : RegExp) (s : jsstring) : bool :=
  match strMatch s re with Some _ => true | None => false end.

(** [s.replace(re, '')]: the first match is cut out. *)
Definition strReplaceEmpty (s : jsstring) (re : RegExp) : jsstring :=
  match strMatch s re with
  | Some m => firstn (index m) s ++ after m
  | None => s
  end.

End Regex.

Import Regex.

(** ** Values and completions *)

(** The argument of [parseSuggestion]: the call sites pass
    [v.suggestion?.suggestion], a string of the scan report or [undefined]. *)
Inductive jsval :=
| JUndefined
| JNull
| JString (s : jsstring).

(** ToBoolean on these values. *)
Definition truthy (v : jsval) : bool :=
  match v with
  | JString (_ :: _) => true
  | _ => false
  end.

(** A call returns a value or throws a TypeError. *)
Inductive completion (A : Type) :=
| Return (a : A)
| TypeError.
Arguments TypeError {A}.

Definition bind {A B} (c : completion A) (k : A -> completion B) : completion B :=
  match c with
  | Return a => k a
  | TypeError => TypeError
  end.

Notation "x <- c ;; k" := (bind c (fun x => k))
  (at level 61, c at next level, right associativity).

(** The record both parsers build. *)
Record sections := {
  explanation : jsstring;
  fixedHTML : jsstring;
  steps : list jsstring;
  wcag : jsstring
}.

(** [a || b] on two match results. *)
Definition orElse {A} (a b : option A) : option A :=
  match a with
  | Some _ => a
  | None => b
  end.

(** [m[1].trim()]: reading [trim] of [undefined] throws. *)
Definition group1Trim (m : MatchResult) : completion jsstring :=
  match group1 m with
  | Some c => Return (trim c)
  | None => TypeError
  end.

(** [if (m) field = m[1].trim()] over the initial value [''] . *)
Definition fieldOf (m : option MatchResult) : completion jsstring :=
  match m with
  | Some r => group1Trim r
  | None => Return []
  end.

(** [!str] *)
Definition isEmpty (s : jsstring) : bool :=
  match s with
  | [] => true
  | _ => false
  end.

Definition anyChar : atom := Class [ClsSpace; ClsNonSpace].

(** The two shapes of the section patterns. *)

(** [/marker([\s\S]*?)(?=stop)/i] *)
Definition sectionRe (marker stop : regex) : RegExp :=
  {| source := Cat marker (Cat (Group (StarLazy anyChar)) (Ahead stop));
     ignoreCase := true |}.

(** [/marker(X)/i] with the greedy [[\s\S]*] for X. *)
Definition lastSectionRe (marker : regex) : RegExp :=
  {| source := Cat marker (Group (Star anyChar)); ignoreCase := true |}.

(** The record of the fallback branch. *)
Definition fallbackRecord (suggestion : jsstring) : sections :=
  {| explanation := suggestion; fixedHTML := []; steps := []; wcag := [] |}.

(** ** [parseSuggestion] of [src/components/ResultsView.js] *)

Module ResultsView.

(** The marker part of each section pattern. *)
Definition explanationHeading : regex := lit "### Concise Technical Explanation".
Definition explanationLabel : regex :=
  Cat (lit "1. Explanation of this ")
      (Cat (Plus (Class [ClsWord; ClsChar 45])) (lit " violation")).
Definition fixedHeading : regex := lit "### Fixed HTML Snippet".
Definition fixedLabel : regex := lit "2. Fixed HTML code".
Definition stepsHeading : regex := lit "### Implementation Steps".
Definition stepsLabel : regex := lit "3. Implementation steps".
Definition wcagHeading : regex := lit "### WCAG Reference".
Definition wcagLabel : regex := Cat (lit "WCAG reference") (Opt (Chr 58)).

(** [/### Concise Technical Explanation([\s\S]*?)(?=###)/i] *)
Definition reExplanationHeading := sectionRe explanationHeading (lit "###").
(** [/1\. Explanation of this [\w-]+ violation([\s\S]*?)(?=2\.)/i] *)
Definition reExplanationLabel := sectionRe explanationLabel (lit "2.").
(** [/### Fixed HTML Snippet([\s\S]*?)(?=###)/i] *)
Definition reFixedHeading := sectionRe fixedHeading (lit "###").
(** [/2\. Fixed HTML code([\s\S]*?)(?=3\.)/i] *)
Definition reFixedLabel := sectionRe fixedLabel (lit "3.").
(** [/### Implementation Steps([\s\S]*?)(?=###)/i] *)
Definition reStepsHeading := sectionRe stepsHeading (lit "###").
(** [/3\. Implementation steps([\s\S]*?)(?=WCAG reference)/i] *)
Definition reStepsLabel := sectionRe stepsLabel (lit "WCAG reference").
(** [/### WCAG Reference(X)/i] with the greedy [[\s\S]*] for X. *)
Definition reWcagHeading := lastSectionRe wcagHeading.
(** [/WCAG reference:?(X)/i] with the greedy [[\s\S]*] for X. *)
Definition reWcagLabel := lastSectionRe wcagLabel.

(** The bullet glyphs of [[-•*]]: hyphen, U+2022 and asterisk. *)
Definition bulletClass : atom := Class [ClsChar 45; ClsChar 8226; ClsChar 42].

(** [/^[-•*]\s*/] *)
Definition reBullet : RegExp :=
  {| source := Cat Bol (Cat (Atom bulletClass) (Star (Class [ClsSpace])));
     ignoreCase := false |}.

(** [/^\d+\.\s*/] *)
Definition reOrdinal : RegExp :=
  {| source := Cat Bol (Cat (Plus (Class [ClsDigit]))
                            (Cat (Atom (Chr 46)) (Star (Class [ClsSpace]))));
     ignoreCase := false |}.

(** [/implementation steps/i] *)
Definition reStepsPhrase : RegExp :=
  {| source := lit "implementation steps"; ignoreCase := true |}.

Definition explanationMatch (suggestion : jsstring) : option MatchResult :=
  orElse (strMatch suggestion reExplanationHeading)
         (strMatch suggestion reExplanationLabel).

Definition fixedHTMLMatch (suggestion : jsstring) : option MatchResult :=
  orElse (strMatch suggestion reFixedHeading)
         (strMatch suggestion reFixedLabel).

Definition stepsMatch (suggestion : jsstring) : option MatchResult :=
  orElse (strMatch suggestion reStepsHeading)
         (strMatch suggestion reStepsLabel).

Definition wcagMatch (suggestion : jsstring) : option MatchResult :=
  orElse (strMatch suggestion reWcagHeading)
         (strMatch suggestion reWcagLabel).

(** The function mapped over the lines of the steps block. *)
Definition cleanStep (step : jsstring) : jsstring :=
  trim (strReplaceEmpty (strReplaceEmpty step reBullet) reOrdinal).

(** The predicate the cleaned lines are filtered by. *)
Definition keepStep (step : jsstring) : bool :=
  (0 <? length step) && negb (test reStepsPhrase step).

(** The steps of a trimmed steps block. *)
Definition stepsOfText (stepsText : jsstring) : list jsstring :=
  filter keepStep (map cleanStep (split LF stepsText)).

Definition stepsOf (m : option MatchResult) : completion (list jsstring) :=
  match m with
  | Some r => stepsText <- group1Trim r ;; Return (stepsOfText stepsText)
  | None => Return []
  end.

(** The body after the guard, on a string. *)
Definition parseString (suggestion : jsstring) : completion sections :=
  e <- fieldOf (explanationMatch suggestion) ;;
  f <- fieldOf (fixedHTMLMatch suggestion) ;;
  st <- stepsOf (stepsMatch suggestion) ;;
  w <- fieldOf (wcagMatch suggestion) ;;
  if isEmpty e && isEmpty f
  then Return (fallbackRecord suggestion)
  else Return {| explanation := e; fixedHTML := f; steps := st; wcag := w |}.

(** [None] is the [null] of [if (!suggestion) return null]. *)
Definition parseSuggestion (suggestion : jsval) : completion (option sections) :=
  if negb (truthy suggestion) then Return None
  else match suggestion with
       | JString s => r <- parseString s ;; Return (Some r)
       | _ => TypeError
       end.

End ResultsView.

(** ** The exported [parseSuggestion]

    The second implementation, an [export function] of a module of the
    repository whose file name is not recorded. *)

Module Exported.

(** [/### Concise Technical Explanation([\s\S]*?)(?=###)/i] *)
Definition reExplanation := sectionRe (lit "### Concise Technical Explanation") (lit "###").
(** [/### Fixed HTML Snippet([\s\S]*?)(?=###)/i] *)
Definition reFixed := sectionRe (lit "### Fixed HTML Snippet") (lit "###").
(** [/### Implementation Steps([\s\S]*?)(?=###)/i] *)
Definition reSteps := sectionRe (lit "### Implementation Steps") (lit "###").
(** [/### WCAG Reference(X)/i] with the greedy [[\s\S]*] for X. *)
Definition reWcag := lastSectionRe (lit "### WCAG Reference").

(** [/^\d+\.\s*/] *)
Definition reOrdinal : RegExp :=
  {| source := Cat Bol (Cat (Plus (Class [ClsDigit]))
                            (Cat (Atom (Chr 46)) (Star (Class [ClsSpace]))));
     ignoreCase := false |}.

Definition cleanStep (step : jsstring) : jsstring :=
  trim (strReplaceEmpty step reOrdinal).

Definition keepStep (step : jsstring) : bool := 0 <? length step.

Definition stepsOfText (stepsText : jsstring) : list jsstring :=
  filter keepStep (map cleanStep (split LF stepsText)).

Definition stepsOf (m : option MatchResult) : completion (list jsstring) :=
  match m with
  | Some r => stepsText <- group1Trim r ;; Return (stepsOfText stepsText)
  | None => Return []
  end.

Definition parseString (suggestion : jsstring) : completion sections :=
  e <- fieldOf (strMatch suggestion reExplanation) ;;
  f <- fieldOf (strMatch suggestion reFixed) ;;
  st <- stepsOf (strMatch suggestion reSteps) ;;
  w <- fieldOf (strMatch suggestion reWcag) ;;
  if isEmpty e && isEmpty f
  then Return (fallbackRecord suggestion)
  else Return {| explanation := e; fixedHTML := f; steps := st; wcag := w |}.

(** There is no guard: [suggestion.match] on [undefined] or [null]
    throws. *)
Definition parseSuggestion (suggestion : jsval) : completion sections :=
  match suggestion with
  | JString s => parseString s
  | _ => TypeError
  end.

End Exported.

(** ** The scenarios of the specification *)

Definition quote : jsstring := [34%N].

Definition headingScenario : jsstring :=
  unlines
    [ u16 "### Concise Technical Explanation";
      u16 "Missing alt attribute.";
      u16 "### Fixed HTML Snippet";
      u16 "<img alt=" ++ quote ++ u16 "desc" ++ quote ++ u16 ">";
      u16 "### Implementation Steps";
      u16 "1. Add alt attribute";
      u16 "2. Verify with screen reader";
      u16 "### WCAG Reference";
      u16 "1.1.1 Non-text Content" ].

Definition headingScenarioResult : sections :=
  {| explanation := u16 "Missing alt attribute.";
     fixedHTML := u16 "<img alt=" ++ quote ++ u16 "desc" ++ quote ++ u16 ">";
     steps := [u16 "Add alt attribute"; u16 "Verify with screen reader"];
     wcag := u16 "1.1.1 Non-text Content" |}.

Definition labelScenario : jsstring :=
  unlines
    [ u16 "1. Explanation of this color-contrast violation";
      u16 "...text...";
      u16 "2. Fixed HTML code";
      u16 "...markup...";
      u16 "3. Implementation steps";
      u16 "...";
      u16 "WCAG reference: 1.4.3" ].

Definition labelScenarioResult : sections :=
  {| explanation := u16 "...text...";
     fixedHTML := u16 "...markup...";
     steps := [u16 "..."];
     wcag := u16 "1.4.3" |}.

(** ** Strings: trimming, splitting, containment *)

(** [x] occurs in [s] as a run of consecutive code units. *)
Definition infix (x s : jsstring) : Prop :=
  exists pre post, s = pre ++ x ++ post.

(** Equality up to the case of ASCII letters. *)
Definition eqIgnoreCase (a b : jsstring) : Prop :=
  map toUpperAscii a = map toUpperAscii b.

(** [s] contains [phrase] in some letter case. *)
Definition containsIgnoreCase (phrase s : jsstring) : Prop :=
  exists mid, infix mid s /\ eqIgnoreCase mid phrase.

(** ** Shapes of patterns *)

(** The pattern contains the capturing group. *)
Fixpoint hasGroup (r : regex) : bool :=
  match r with
  | Cat r1 r2 => hasGroup r1 || hasGroup r2
  | Group _ => true
  | Ahead r1 => hasGroup r1
  | _ => false
  end.

(** Every match of the pattern takes at least one code unit. *)
Fixpoint consumes (r : regex) : bool :=
  match r with
  | Atom _ | Plus _ => true
  | Cat r1 r2 => consumes r1 || consumes r2
  | Group r1 => consumes r1
  | _ => false
  end.

(** [s] begins with [p], up to the case of ASCII letters. *)
Fixpoint startsWithIgnoreCase (p s : jsstring) : bool :=
  match p, s with
  | [], _ => true
  | c :: p', d :: s' => (toUpperAscii d =? toUpperAscii c)%N && startsWithIgnoreCase p' s'
  | _ :: _, [] => false
  end.

(** Whenever the literal matches, group 1 took part and holds less than the
    whole input. *)
Definition capturing (re : RegExp) : Prop :=
  forall (s : jsstring) (m : MatchResult),
    strMatch s re = Some m ->
    exists c, group1 m = Some c /\ length c < length s.

(** ** Markers and the two conventions *)

(** A marker searched for on its own, case-insensitively as in the section
    patterns. *)
Definition markerRe (marker : regex) : RegExp :=
  {| source := marker; ignoreCase := true |}.

(** The markers of the heading convention and of the numbered-label
    convention. *)
Definition headingMarkers : list regex :=
  [ ResultsView.explanationHeading; ResultsView.fixedHeading;
    ResultsView.stepsHeading; ResultsView.wcagHeading ].

Definition labelMarkers : list regex :=
  [ ResultsView.explanationLabel; ResultsView.fixedLabel;
    ResultsView.stepsLabel; ResultsView.wcagLabel ].

(** No marker of either convention occurs in [s]. *)
Definition noMarkers (s : jsstring) : bool :=
  forallb (fun marker => negb (test (markerRe marker) s))
          (headingMarkers ++ labelMarkers).

(** [s] uses the heading convention only: no numbered label of the first
    three sections occurs, and the words of the reference label occur only
    where the reference heading, which contains them, occurs too. *)
Definition headingOnly (s : jsstring) : bool :=
  negb (test (markerRe ResultsView.explanationLabel) s)
  && negb (test (markerRe ResultsView.fixedLabel) s)
  && negb (test (markerRe ResultsView.stepsLabel) s)
  && (test (markerRe ResultsView.wcagHeading) s
      || negb (test (markerRe ResultsView.wcagLabel) s)).

(** The bullet glyphs: hyphen-minus, U+2022 BULLET, asterisk. *)
Definition isBullet (c : codeunit) : bool :=
  ((c =? 45) || (c =? 8226) || (c =? 42))%N.

Definition startsWithBullet (line : jsstring) : bool :=
  match line with
  | c :: _ => isBullet c
  | [] => false
  end.

(** The lines of the steps block under the heading convention. *)
Definition headingStepLines (s : jsstring) : list jsstring :=
  match strMatch s ResultsView.reStepsHeading with
  | Some m =>
      match group1 m with
      | Some c => split LF (trim c)
      | None => []
      end
  | None => []
  end.

Definition stepsPhrase : jsstring := u16 "implementation steps".

Fixpoint dropWhile (p : codeunit -> bool) (s : jsstring) : jsstring :=
  match s with
  | c :: s' => if p c then dropWhile p s' else s
  | [] => []
  end.

(** ** Blocks of numbered lines *)

(** A line of a numbered steps block: blank, or digits, a period and the rest
    of the line. *)
Inductive stepLine :=
| BlankLine (ws : jsstring)
| NumberedLine (digits rest : jsstring).

Definition lineText (l : stepLine) : jsstring :=
  match l with
  | BlankLine ws => ws
  | NumberedLine digits rest => digits ++ 46%N :: rest
  end.

Definition hasLF (s : jsstring) : bool := existsb (N.eqb LF) s.

Definition wellFormedLine (l : stepLine) : bool :=
  match l with
  | BlankLine ws => forallb isWhiteSpace ws && negb (hasLF ws)
  | NumberedLine digits rest =>
      negb (isEmpty digits) && forallb isDigit digits && negb (hasLF rest)
  end.

Definition numberedBlock (ls : list stepLine) : jsstring :=
  unlines (map lineText ls).

(** The text of each numbered line without its ordinal prefix and the
    surrounding whitespace, in order. *)
Definition itemTexts (ls : list stepLine) : list jsstring :=
  flat_map (fun l => match l with
                     | BlankLine _ => []
                     | NumberedLine _ rest => [trim rest]
                     end) ls.

(** The steps the specification states for a block of numbered lines: the
    texts of the non-blank lines, no empty string among them. *)
Definition specSteps (ls : list stepLine) : list jsstring :=
  filter (fun t => negb (isEmpty t)) (itemTexts ls).



(** ** More scenarios *)

Definition headingTemplate (stepLines : list jsstring) : jsstring :=
  unlines
    ([ u16 "### Concise Technical Explanation";
       u16 "Missing alt attribute.";
       u16 "### Fixed HTML Snippet";
       u16 "<img alt=" ++ quote ++ u16 "desc" ++ quote ++ u16 ">";
       u16 "### Implementation Steps" ]
     ++ stepLines
     ++ [ u16 "### WCAG Reference";
          u16 "1.1.1 Non-text Content" ]).

(** Plain prose with whitespace around it. *)
Definition paddedProse : jsstring := u16 "  Add a text alternative.  ".






(** Both section markers present, nothing between a marker and the next. *)
Definition emptySectionsInput : jsstring :=
  u16 "### Concise Technical Explanation### Fixed HTML Snippet### Implementation Steps"
  ++ [LF] ++ u16 "1. Add alt attribute"
  ++ [LF] ++ u16 "### WCAG Reference"
  ++ [LF] ++ u16 "1.1.1 Non-text Content".

(** The explanation marker directly followed by the fixed-markup marker, the
    other sections filled. *)
Definition emptyExplanationInput : jsstring :=
  u16 "### Concise Technical Explanation### Fixed HTML Snippet"
  ++ [LF] ++ u16 "<img alt=" ++ quote ++ u16 "desc" ++ quote ++ u16 ">"
  ++ [LF] ++ u16 "### Implementation Steps"
  ++ [LF] ++ u16 "1. Add alt attribute"
  ++ [LF] ++ u16 "### WCAG Reference"
  ++ [LF] ++ u16 "1.1.1 Non-text Content".

(** ** Shapes of the parser's output *)

(** Whenever the literal matches, group 1 holds a run of consecutive code
    units of the input. *)
Definition capturesSubstring (re : RegExp) : Prop :=
  forall (s : jsstring) (m : MatchResult),
    strMatch s re = Some m ->
    exists c, group1 m = Some c /\ infix c s.

(** [s] is its own trimmed form. *)
Definition trimmed (s : jsstring) : Prop := trim s = s.

(** What every step of a steps block looks like. *)
Definition cleanStepOf (block x : jsstring) : Prop :=
  infix x block /\ x <> [] /\ trimmed x /\ hasLF x = false
  /\ ~ containsIgnoreCase stepsPhrase x.

(** The six patterns with a lazy group, each with the marker that closes
    its section. *)
Definition lazySectionPatterns : list (RegExp * jsstring) :=
  [ (ResultsView.reExplanationHeading, u16 "###");
    (ResultsView.reExplanationLabel, u16 "2.");
    (ResultsView.reFixedHeading, u16 "###");
    (ResultsView.reFixedLabel, u16 "3.");
    (ResultsView.reStepsHeading, u16 "###");
    (ResultsView.reStepsLabel, u16 "WCAG reference") ].

Definition hash : codeunit := 35%N.

(** ** A line of the steps block, in the specification's words

    "Strip a leading ordinal prefix (digits followed by a period and optional
    space) and strip a leading bullet prefix if present, then trim", written
    without regular expressions and in the order in which the component
    applies the two replacements: bullet first, ordinal second. *)

(** The line without a bullet glyph at its start and the whitespace after
    the glyph. *)
Definition withoutBullet (line : jsstring) : jsstring :=
  match line with
  | g :: rest => if isBullet g then dropWhile isWhiteSpace rest else line
  | [] => []
  end.

(** The line without the digits at its start, the period after them and the
    whitespace after the period; unchanged when it does not start with
    digits followed by a period. *)
Definition withoutOrdinal (line : jsstring) : jsstring :=
  match line with
  | d :: _ =>
      if isDigit d
      then match dropWhile isDigit line with
           | c :: rest => if (c =? 46)%N then dropWhile isWhiteSpace rest else line
           | [] => line
           end
      else line
  | [] => []
  end.

Definition specStep (line : jsstring) : jsstring :=
  trim (withoutOrdinal (withoutBullet line)).

(** ** The numbered-label layout

    The four labels of the second convention, in the letter case of the
    specification's scenario, each followed by its section. *)

Definition explanationLabelText (rule : jsstring) : jsstring :=
  u16 "1. Explanation of this " ++ rule ++ u16 " violation".
Definition fixedLabelText : jsstring := u16 "2. Fixed HTML code".
Definition stepsLabelText : jsstring := u16 "3. Implementation steps".
Definition wcagLabelText : jsstring := u16 "WCAG reference".

Definition labelLayout (rule text markup stepsText reference : jsstring) : jsstring :=
  explanationLabelText rule ++ text
  ++ fixedLabelText ++ markup
  ++ stepsLabelText ++ stepsText
  ++ wcagLabelText ++ u16 ":" ++ reference.

(** The name of the violated rule in the first label: word characters and
    hyphens, at least one. *)
Definition isRuleChar (c : codeunit) : bool := isWordChar c || (c =? 45)%N.

Definition ruleName (rule : jsstring) : bool :=
  negb (isEmpty rule) && forallb isRuleChar rule.

(** No marker of the heading convention occurs in [s]. *)
Definition noHeadingMarkers (s : jsstring) : bool :=
  forallb (fun marker => negb (test (markerRe marker) s)) headingMarkers.

(** A suggestion in the numbered-label layout whose steps carry an ordinal
    and a bullet, with a blank line and a line restating the label. *)
Definition labelSample : jsstring :=
  unlines
    [ u16 "1. Explanation of this color-contrast violation";
      u16 "The text is too light for its background (ratio 1.9:1).";
      u16 "2. Fixed HTML code";
      u16 "<p class=" ++ quote ++ u16 "lead" ++ quote ++ u16 ">Welcome</p>";
      u16 "3. Implementation steps";
      u16 "1. Darken the text colour";
      u16 "- Check the ratio again";
      u16 "";
      u16 "Implementation steps:";
      u16 "WCAG reference: 1.4.3 Contrast (Minimum)" ].

Definition labelSampleResult : sections :=
  {| explanation := u16 "The text is too light for its background (ratio 1.9:1).";
     fixedHTML := u16 "<p class=" ++ quote ++ u16 "lead" ++ quote ++ u16 ">Welcome</p>";
     steps := [u16 "Darken the text colour"; u16 "Check the ratio again"];
     wcag := u16 "1.4.3 Contrast (Minimum)" |}.

(** The layout with an explanation that mentions a ratio of 2.5:1. *)
Definition labelRatioInput : jsstring :=
  unlines
    [ u16 "1. Explanation of this color-contrast violation";
      u16 "The ratio is 2.5:1.";
      u16 "2. Fixed HTML code";
      u16 "<p class=" ++ quote ++ u16 "lead" ++ quote ++ u16 ">Welcome</p>";
      u16 "3. Implementation steps";
      u16 "1. Darken the text";
      u16 "WCAG reference: 1.4.3" ].



(** ** The component around the parser ([ResultsView])

    What the component does with a violation or issue of the scan report:
    the children of the "Recommended Fix" box, and the name of the PDF
    download. *)

(** The [suggestion] object of a violation or issue, with its [suggestion]
    and [fallback] properties. *)
Record suggestionInfo := {
  suggestionText : jsval;
  fallbackText : jsval
}.

(** [x.suggestion?.suggestion] and [x.suggestion?.fallback]; [None] is an
    absent ([undefined] or [null]) suggestion object. *)
Definition optSuggestion (o : option suggestionInfo) : jsval :=
  match o with
  | Some i => suggestionText i
  | None => JUndefined
  end.

Definition optFallback (o : option suggestionInfo) : jsval :=
  match o with
  | Some i => fallbackText i
  | None => JUndefined
  end.

(** [a || b] on values. *)
Definition jsOr (a b : jsval) : jsval := if truthy a then a else b.

(** What the box can hold: the four labelled blocks of a parsed suggestion,
    or one paragraph of plain text. *)
Inductive fixChild :=
| ExplanationBlock (text : jsstring)
| FixedHTMLBlock (code : jsstring)
| StepsBlock (items : list jsstring)
| WcagBlock (text : jsstring)
| PlainText (text : jsval).

(** The blocks of a parsed suggestion: [field && block] for the three
    strings, [steps.length > 0 && block] for the steps. *)
Definition parsedChildren (p : sections) : list fixChild :=
  (if isEmpty (explanation p) then [] else [ExplanationBlock (explanation p)])
  ++ (if isEmpty (fixedHTML p) then [] else [FixedHTMLBlock (fixedHTML p)])
  ++ (if 0 <? length (steps p) then [StepsBlock (steps p)] else [])
  ++ (if isEmpty (wcag p) then [] else [WcagBlock (wcag p)]).

Definition noSuggestionAvailable : jsval := JString (u16 "No suggestion available").

(** The box of a violation:
    [parsedSuggestion ? blocks : suggestion || fallback || 'No suggestion available']. *)
Definition violationFix (o : option suggestionInfo) : completion (list fixChild) :=
  parsedSuggestion <- ResultsView.parseSuggestion (optSuggestion o) ;;
  Return (match parsedSuggestion with
          | Some p => parsedChildren p
          | None => [PlainText (jsOr (optSuggestion o)
                                     (jsOr (optFallback o) noSuggestionAvailable))]
          end).

(** The box of a screen-reader issue: [parsedSuggestion && blocks]; [None]
    when no box is rendered. *)
Definition screenReaderFix (o : option suggestionInfo)
  : completion (option (list fixChild)) :=
  parsedSuggestion <- ResultsView.parseSuggestion (optSuggestion o) ;;
  Return (option_map parsedChildren parsedSuggestion).

(** A child that shows some text. *)
Definition showsText (c : fixChild) : Prop :=
  match c with
  | ExplanationBlock t | FixedHTMLBlock t | WcagBlock t => t <> []
  | StepsBlock items => items <> [] /\ forall x, In x items -> x <> []
  | PlainText v => truthy v = true
  end.

(** [/^https?:\/\//] *)
Definition reScheme : RegExp :=
  {| source := Cat Bol (Cat (lit "http") (Cat (Opt (Chr 115)) (lit "://")));
     ignoreCase := false |}.

(** The [download] attribute set in [handleDownloadPDF]:
    [`accessibility-report-${url.replace(/^https?:\/\//, '')}.pdf`]. *)
Definition downloadFileName (url : jsstring) : jsstring :=
  u16 "accessibility-report-" ++ strReplaceEmpty url reScheme ++ u16 ".pdf".

(** [s] begins with [p], code unit for code unit. *)
Fixpoint startsWithExact (p s : jsstring) : bool :=
  match p, s with
  | [], _ => true
  | c :: p', d :: s' => (d =? c)%N && startsWithExact p' s'
  | _ :: _, [] => false
  end.

(** ** Severity counts and the chart ([ResultsView])

    The effect that counts the violations by severity into an object, and
    what the chart reads from that object. *)

Fixpoint strEqb (a b : jsstring) : bool :=
  match a, b with
  | [], [] => true
  | c :: a', d :: b' => (c =? d)%N && strEqb a' b'
  | _, _ => false
  end.

(** What a property of the counting object holds: a number, or the string
    that [value + 1] yields once the value read is not a number. *)
Inductive counterValue :=
| Count (n : N)
| NotNumber.

(** The own properties of the object, in creation order. *)
Definition countsObject := list (jsstring * counterValue).

Fixpoint lookupOwn (k : jsstring) (o : countsObject) : option counterValue :=
  match o with
  | [] => None
  | (k', v) :: o' => if strEqb k k' then Some v else lookupOwn k o'
  end.

(** Assignment to an own property keeps its place. *)
Fixpoint setOwn (k : jsstring) (v : counterValue) (o : countsObject) : countsObject :=
  match o with
  | [] => [(k, v)]
  | (k', v') :: o' => if strEqb k k' then (k', v) :: o' else (k', v') :: setOwn k v o'
  end.

(** How a property that the object inherits from [Object.prototype] reacts:
    a data property (a method such as [toString]) is shadowed by the
    assignment, the [__proto__] accessor ignores the assigned string. *)
Inductive inheritedProperty :=
| DataProperty
| ProtoAccessor.

(** [Object.prototype] as ECMA-262 with Annex B defines it. *)
Definition objectPrototype (k : jsstring) : option inheritedProperty :=
  if strEqb k (u16 "__proto__") then Some ProtoAccessor
  else if existsb (strEqb k)
            [ u16 "constructor"; u16 "hasOwnProperty"; u16 "isPrototypeOf";
              u16 "propertyIsEnumerable"; u16 "toLocaleString"; u16 "toString";
              u16 "valueOf"; u16 "__defineGetter__"; u16 "__defineSetter__";
              u16 "__lookupGetter__"; u16 "__lookupSetter__" ]
       then Some DataProperty
       else None.

(** [{ critical: 0, high: 0, medium: 0, low: 0 }] *)
Definition initialCounts : countsObject :=
  [ (u16 "critical", Count 0); (u16 "high", Count 0);
    (u16 "medium", Count 0); (u16 "low", Count 0) ].

Section SeverityCounts.
(** The prototype of object literals in the running page. *)
Variable inherited : jsstring -> option inheritedProperty.

(** [acc[severity] = (acc[severity] || 0) + 1; return acc] *)
Definition countSeverity (acc : countsObject) (severity : jsstring) : countsObject :=
  match lookupOwn severity acc with
  | Some (Count n) => setOwn severity (Count (n + 1)) acc
  | Some NotNumber => setOwn severity NotNumber acc
  | None =>
      match inherited severity with
      | None => setOwn severity (Count 1) acc
      | Some DataProperty => setOwn severity NotNumber acc
      | Some ProtoAccessor => acc
      end
  end.

(** The state after the effect: [violations] are the severities of
    [data.violations], [None] when [data?.violations] is absent and the state
    stays as it is. *)
Definition countSeverities (previous : countsObject)
           (violations : option (list jsstring)) : countsObject :=
  match violations with
  | Some vs => fold_left countSeverity vs initialCounts
  | None => previous
  end.

End SeverityCounts.

(** The value of an array index: a canonical decimal numeral below
    [2^32 - 1]. *)
Definition arrayIndex (k : jsstring) : option N :=
  match k with
  | [] => None
  | c :: rest =>
      if forallb isDigit k && negb ((c =? 48)%N && negb (isEmpty rest))
      then let n := fold_left (fun a d => (10 * a + (d - 48))%N) k 0%N in
           if (n <? 4294967295)%N then Some n else None
      else None
  end.

Fixpoint insertByIndex (e : N * (jsstring * counterValue))
         (l : list (N * (jsstring * counterValue))) :=
  match l with
  | [] => [e]
  | e' :: l' => if (fst e <=? fst e')%N then e :: l else e' :: insertByIndex e l'
  end.

Definition indexedEntries (o : countsObject) : list (N * (jsstring * counterValue)) :=
  flat_map (fun e => match arrayIndex (fst e) with
                     | Some n => [(n, e)]
                     | None => []
                     end) o.

Definition namedEntries (o : countsObject) : countsObject :=
  filter (fun e => match arrayIndex (fst e) with Some _ => false | None => true end) o.

(** [Object.entries(o)]: array indices in ascending order, then the other
    keys in creation order. *)
Definition objectEntries (o : countsObject) : countsObject :=
  map snd (fold_right insertByIndex [] (indexedEntries o)) ++ namedEntries o.

(** [Object.keys(o)] and [Object.values(o)] *)
Definition objectKeys (o : countsObject) : list jsstring := map fst (objectEntries o).
Definition objectValues (o : countsObject) : list counterValue := map snd (objectEntries o).

(** [getSeverityColor]: a [switch] on the severity. *)
Definition getSeverityColor (severity : jsstring) : jsstring :=
  if strEqb severity (u16 "critical") then u16 "#e74c3c"
  else if strEqb severity (u16 "high") then u16 "#f39c12"
  else if strEqb severity (u16 "medium") then u16 "#3498db"
  else u16 "#2ecc71".

(** The [backgroundColor] of the chart's data set. *)
Definition chartColors : list jsstring :=
  [u16 "#e74c3c"; u16 "#f39c12"; u16 "#3498db"; u16 "#2ecc71"].

(** How often [k] occurs among the severities. *)
Definition occurrences (k : jsstring) (vs : list jsstring) : N :=
  N.of_nat (length (filter (strEqb k) vs)).

(** The sum of the numbers among the values. *)
Definition sumCounts (vals : list counterValue) : N :=
  fold_right (fun v a => match v with Count n => (n + a)%N | NotNumber => a end) 0%N vals.

Definition standardSeverity (k : jsstring) : bool :=
  existsb (strEqb k) [u16 "critical"; u16 "high"; u16 "medium"; u16 "low"].

(** Every value of the object is a number. *)
Definition allCounts (o : countsObject) : Prop :=
  forall k, lookupOwn k o <> Some NotNumber.

(** What a property holds after counting [vs] into [acc]. *)
Definition countedValue (acc : countsObject) (vs : list jsstring) (k : jsstring)
  : option counterValue :=
  match lookupOwn k acc with
  | Some (Count n) => Some (Count (n + occurrences k vs))
  | Some NotNumber => Some NotNumber
  | None => if (occurrences k vs =? 0)%N then None
            else Some (Count (occurrences k vs))
  end.

Definition standardKeys : list jsstring :=
  [u16 "critical"; u16 "high"; u16 "medium"; u16 "low"].

(** ** Starting a scan ([ScannerForm] and [App])

    [handleSubmit] of the form and the three callbacks [App] hands to it. *)

Section Scanner.
(** The report a scan returns. *)
Variable scanReport : Type.
(** [validateUrl]: whether [new URL(input)] succeeds. *)
Variable validateUrl : jsstring -> bool.

(** The state of [App] that a scan touches. *)
Record appState := {
  scanData : option scanReport;
  isLoading : bool;
  currentURL : jsstring;
  scanError : jsval
}.

(** How the request ends: with the report, or with an error whose
    [response?.data?.error] and [message] are as given. *)
Inductive scanOutcome :=
| ScanResolved (data : scanReport)
| ScanRejected (responseError message : jsval).

(** [onScanStart] *)
Definition onScanStart (url : jsstring) (app : appState) : appState :=
  {| scanData := None; isLoading := true; currentURL := url; scanError := JNull |}.

(** [handleScanComplete] *)
Definition handleScanComplete (data : scanReport) (app : appState) : appState :=
  {| scanData := Some data; isLoading := false;
     currentURL := currentURL app; scanError := JNull |}.

(** [err.message]: a string has no such property, reading it from
    [undefined] or [null] throws. *)
Definition messageOf (err : jsval) : completion jsval :=
  match err with
  | JString _ => Return JUndefined
  | JUndefined | JNull => TypeError
  end.

(** [handleError] *)
Definition handleError (err : jsval) (app : appState) : completion appState :=
  message <- messageOf err ;;
  Return {| scanData := scanData app; isLoading := false;
            currentURL := currentURL app;
            scanError := jsOr message (JString (u16 "Scan failed")) |}.

(** [handleSubmit]: the form's [isValidUrl] and the state of [App] after the
    submission of [url]. *)
Definition handleSubmit (url : jsstring) (outcome : scanOutcome) (app : appState)
  : completion (bool * appState) :=
  if negb (validateUrl url) then Return (false, app)
  else
    let app1 := onScanStart url app in
    match outcome with
    | ScanResolved data => Return (true, handleScanComplete data app1)
    | ScanRejected responseError message =>
        app2 <- handleError (jsOr responseError message) app1 ;;
        Return (true, app2)
    end.

End Scanner.

(** ** The search view ([SearchDashboard]) *)

Section Search.
(** The minimum score (a number, or the text of the input field), a row of
    the result table, and a point in time. *)
Variables score result date : Type.

(** The entries of the search history, as [handleSearch] creates them:
    [{ type: 'semantic', query, date }], [{ type: 'compliance', minScore, date }]
    and [{ type: 'violation', query, date }]. *)
Inductive historyItem :=
| SemanticItem (query : jsstring) (when : date)
| ComplianceItem (minScore : score) (when : date)
| ViolationItem (query : jsstring) (when : date).

Record searchState := {
  activeTab : nat;
  query : jsstring;
  minScore : score;
  results : list result;
  loading : bool;
  error : option jsstring;
  searchHistory : list historyItem
}.

(** What a [handleSearch] closure has captured from its render. *)
Record searchView := {
  viewTab : nat;
  viewQuery : jsstring;
  viewMinScore : score
}.

Definition viewOf (st : searchState) : searchView :=
  {| viewTab := activeTab st; viewQuery := query st; viewMinScore := minScore st |}.

Inductive request :=
| PostSemantic (query : jsstring)
| GetCompliance (minScore : score)
| GetViolations (violationId : jsstring).

(** The body of a response of the semantic endpoint: [null], or an object
    whose [results] is an array or absent. *)
Inductive semanticBody :=
| SemanticNull
| SemanticObject (resultsField : option (list result)).

(** The body of a response of the two listing endpoints: [null] or an
    array. *)
Inductive listBody :=
| ListNull
| ListArray (items : list result).

(** A request resolves with a body or is rejected, [serverError] being
    [err.response?.data?.error]. *)
Inductive outcome (body : Type) :=
| Resolved (b : body)
| Rejected (serverError : jsval).

Record network := {
  postSemantic : jsstring -> outcome semanticBody;
  getCompliance : score -> outcome listBody;
  getViolations : jsstring -> outcome listBody
}.

Definition enterQuery : jsstring := u16 "Please enter a search query".
Definition noResults : jsstring := u16 "No results found. Try different search terms.".
Definition searchFailed : jsstring := u16 "Search failed. Please try again.".

(** [prev => [item, ...prev.slice(0, 4)]] *)
Definition recordSearch (item : historyItem) (prev : list historyItem)
  : list historyItem :=
  item :: firstn 4 prev.

Definition withError (e : option jsstring) (st : searchState) : searchState :=
  {| activeTab := activeTab st; query := query st; minScore := minScore st;
     results := results st; loading := loading st; error := e;
     searchHistory := searchHistory st |}.

Definition withResults (r : list result) (st : searchState) : searchState :=
  {| activeTab := activeTab st; query := query st; minScore := minScore st;
     results := r; loading := loading st; error := error st;
     searchHistory := searchHistory st |}.

Definition withLoading (l : bool) (st : searchState) : searchState :=
  {| activeTab := activeTab st; query := query st; minScore := minScore st;
     results := results st; loading := l; error := error st;
     searchHistory := searchHistory st |}.

Definition withHistory (h : list historyItem) (st : searchState) : searchState :=
  {| activeTab := activeTab st; query := query st; minScore := minScore st;
     results := results st; loading := loading st; error := error st;
     searchHistory := h |}.

(** [setResults(list); if (!list.length) setError('No results found...')] *)
Definition showResults (l : list result) (st : searchState) : searchState :=
  let st := withResults l st in
  match l with
  | [] => withError (Some noResults) st
  | _ => st
  end.

(** The [catch] branch: [setError(err.response?.data?.error || 'Search failed...')]. *)
Definition failWith (serverError : jsval) (st : searchState) : searchState :=
  withError (Some (match serverError with
                   | JString (c :: s) => c :: s
                   | _ => searchFailed
                   end)) st.

(** After the semantic request resolved: the history entry, then the
    results; reading [results] of a [null] body throws into the [catch]. *)
Definition afterSemantic (item : historyItem) (b : semanticBody) (st : searchState)
  : searchState :=
  let st := withHistory (recordSearch item (searchHistory st)) st in
  match b with
  | SemanticNull => failWith JUndefined st
  | SemanticObject (Some l) => showResults l st
  | SemanticObject None => showResults [] st
  end.

(** After a listing request resolved: [setResults(responseData || [])], then
    [!responseData.length], which throws on a [null] body. *)
Definition afterList (item : historyItem) (b : listBody) (st : searchState)
  : searchState :=
  let st := withHistory (recordSearch item (searchHistory st)) st in
  match b with
  | ListNull => failWith JUndefined (withResults [] st)
  | ListArray l => showResults l st
  end.

(** [handleSearch] as created in a render with view [v], run at time [now]
    on the current state: the state when it has finished and the requests it
    made. *)
Definition handleSearch (v : searchView) (now : date) (net : network)
           (st : searchState) : searchState * list request :=
  if (viewTab v =? 0) && isEmpty (trim (viewQuery v))
  then (withError (Some enterQuery) st, [])
  else
    let st := withResults [] (withError None (withLoading true st)) in
    let '(st, req) :=
      match viewTab v with
      | 0 =>
          (match postSemantic net (viewQuery v) with
           | Resolved b => afterSemantic (SemanticItem (viewQuery v) now) b st
           | Rejected _ e => failWith e st
           end, PostSemantic (viewQuery v))
      | 1 =>
          (match getCompliance net (viewMinScore v) with
           | Resolved b => afterList (ComplianceItem (viewMinScore v) now) b st
           | Rejected _ e => failWith e st
           end, GetCompliance (viewMinScore v))
      | _ =>
          (match getViolations net (viewQuery v) with
           | Resolved b => afterList (ViolationItem (viewQuery v) now) b st
           | Rejected _ e => failWith e st
           end, GetViolations (viewQuery v))
      end in
    (withLoading false st, [req]).

(** The entry a search under view [v] puts into the history, if its request
    resolves. *)
Definition recordedItem (v : searchView) (now : date) (net : network)
  : option historyItem :=
  if (viewTab v =? 0) && isEmpty (trim (viewQuery v)) then None
  else match viewTab v with
       | 0 => match postSemantic net (viewQuery v) with
              | Resolved _ => Some (SemanticItem (viewQuery v) now)
              | Rejected _ _ => None
              end
       | 1 => match getCompliance net (viewMinScore v) with
              | Resolved _ => Some (ComplianceItem (viewMinScore v) now)
              | Rejected _ _ => None
              end
       | _ => match getViolations net (viewQuery v) with
              | Resolved _ => Some (ViolationItem (viewQuery v) now)
              | Rejected _ _ => None
              end
       end.

(** A run of searches, each with the view its closure captured and the time
    it ran at. *)
Definition runSearches (net : network) (calls : list (searchView * date))
           (st : searchState) : searchState :=
  fold_left (fun st call => fst (handleSearch (fst call) (snd call) net st)) calls st.

(** The click on an entry of the history: the state updates, and the view
    that the [handleSearch] handed to [setTimeout] has captured. *)
Definition clickHistoryItem (item : historyItem) (st : searchState)
  : searchState * searchView :=
  (match item with
   | SemanticItem q _ =>
       {| activeTab := 0; query := q; minScore := minScore st; results := results st;
          loading := loading st; error := error st; searchHistory := searchHistory st |}
   | ComplianceItem m _ =>
       {| activeTab := 1; query := query st; minScore := m; results := results st;
          loading := loading st; error := error st; searchHistory := searchHistory st |}
   | ViolationItem q _ =>
       {| activeTab := 2; query := q; minScore := minScore st; results := results st;
          loading := loading st; error := error st; searchHistory := searchHistory st |}
   end, viewOf st).

(** The click on one of the common violation ids. *)
Definition clickViolationId (id : jsstring) (st : searchState)
  : searchState * searchView :=
  ({| activeTab := 2; query := id; minScore := minScore st; results := results st;
      loading := loading st; error := error st; searchHistory := searchHistory st |},
   viewOf st).

(** The timer of a click fires, nothing having happened in between. *)
Definition thenTimer (clicked : searchState * searchView) (now : date) (net : network)
  : searchState * list request :=
  handleSearch (snd clicked) now net (fst clicked).

End Search.

(** * Properties *)

Lemma infix_refl (s : jsstring) : infix s s.
Proof. exists [], []. now rewrite app_nil_r. Qed.

Lemma infix_trans (a b c : jsstring) : infix a b -> infix b c -> infix a c.
Proof.
  intros (p1 & q1 & ->) (p2 & q2 & ->).
  exists (p2 ++ p1), (q1 ++ q2). now rewrite !app_assoc.
Qed.

Lemma infix_suffix (pre s : jsstring) : infix s (pre ++ s).
Proof. exists pre, []. now rewrite app_nil_r. Qed.

Lemma infix_length (x s : jsstring) : infix x s -> length x <= length s.
Proof. intros (p & q & ->). rewrite !length_app. lia. Qed.

Lemma containsIgnoreCase_infix (p x s : jsstring) :
  infix x s -> containsIgnoreCase p x -> containsIgnoreCase p s.
Proof.
  intros Hx (mid & Hm & He). exists mid. split; [|exact He].
  eapply infix_trans; eauto.
Qed.

Lemma trimStart_suffix (s : jsstring) : exists pre, s = pre ++ trimStart s.
Proof.
  induction s as [|c s IH]; simpl.
  - now exists [].
  - destruct (isWhiteSpace c).
    + destruct IH as [pre IH]. exists (c :: pre). simpl. now f_equal.
    + now exists [].
Qed.

Lemma trimEnd_prefix (s : jsstring) : exists post, s = trimEnd s ++ post.
Proof.
  unfold trimEnd. destruct (trimStart_suffix (rev s)) as [pre H].
  exists (rev pre). rewrite <- rev_app_distr, <- H. now rewrite rev_involutive.
Qed.

Lemma trim_infix (s : jsstring) : infix (trim s) s.
Proof.
  unfold trim. destruct (trimStart_suffix s) as [pre H].
  destruct (trimEnd_prefix (trimStart s)) as [post H'].
  exists pre, post. now rewrite <- H', <- H.
Qed.

Lemma trim_length (s : jsstring) : length (trim s) <= length s.
Proof. apply infix_length, trim_infix. Qed.

Lemma trimStart_idem (s : jsstring) : trimStart (trimStart s) = trimStart s.
Proof.
  induction s as [|c s IH]; simpl; [reflexivity|].
  destruct (isWhiteSpace c) eqn:E; [exact IH|]. simpl. now rewrite E.
Qed.

Lemma trim_trimStart (s : jsstring) : trim (trimStart s) = trim s.
Proof. unfold trim. now rewrite trimStart_idem. Qed.

Lemma trimStart_blank (s : jsstring) :
  forallb isWhiteSpace s = true -> trimStart s = [].
Proof.
  induction s as [|c s IH]; simpl; [reflexivity|].
  intros H. apply andb_true_iff in H as [-> H]. auto.
Qed.

Lemma trim_blank (s : jsstring) : forallb isWhiteSpace s = true -> trim s = [].
Proof. intros H. unfold trim. now rewrite trimStart_blank. Qed.

(** Splitting what was joined gives the pieces back. *)
Lemma split_cons_nonempty (sep : codeunit) (s : jsstring) : split sep s <> [].
Proof.
  induction s as [|c s IH]; simpl; [discriminate|].
  destruct (c =? sep)%N; [discriminate|].
  destruct (split sep s); [contradiction|discriminate].
Qed.

Lemma split_no_sep (sep : codeunit) (p : jsstring) :
  existsb (N.eqb sep) p = false -> split sep p = [p].
Proof.
  induction p as [|c p IH]; simpl; [reflexivity|].
  intros H. apply orb_false_iff in H as [H1 H2].
  rewrite N.eqb_sym, H1, (IH H2). reflexivity.
Qed.

Lemma split_app_sep (sep : codeunit) (p rest : jsstring) :
  existsb (N.eqb sep) p = false ->
  split sep (p ++ sep :: rest) = p :: split sep rest.
Proof.
  induction p as [|c p IH]; simpl.
  - intros _. now rewrite N.eqb_refl.
  - intros H. apply orb_false_iff in H as [H1 H2].
    rewrite N.eqb_sym, H1, (IH H2). reflexivity.
Qed.

Lemma split_join (sep : codeunit) (ps : list jsstring) :
  ps <> [] ->
  forallb (fun p => negb (existsb (N.eqb sep) p)) ps = true ->
  split sep (join sep ps) = ps.
Proof.
  induction ps as [|p ps IH]; [contradiction|].
  intros _ H. simpl in H. apply andb_true_iff in H as [Hp Hps].
  apply negb_true_iff in Hp.
  destruct ps as [|q ps].
  - simpl. now apply split_no_sep.
  - change (join sep (p :: q :: ps)) with (p ++ sep :: join sep (q :: ps)).
    rewrite split_app_sep by exact Hp. f_equal. apply IH; [discriminate|exact Hps].
Qed.

(** ** The matcher: where matches end and what they capture *)

Lemma starGreedy_suffix (p : codeunit -> bool) (rest x : jsstring) :
  In x (starGreedy p rest) -> exists pre, rest = pre ++ x.
Proof.
  induction rest as [|c rest IH]; simpl.
  - intros [<-|[]]. now exists [].
  - destruct (p c).
    + intros H. apply in_app_or in H as [H|[<-|[]]].
      * destruct (IH H) as [pre ->]. now exists (c :: pre).
      * now exists [].
    + intros [<-|[]]. now exists [].
Qed.

Lemma starLazy_suffix (p : codeunit -> bool) (rest x : jsstring) :
  In x (starLazy p rest) -> exists pre, rest = pre ++ x.
Proof.
  induction rest as [|c rest IH]; simpl.
  - intros [<-|[]]. now exists [].
  - intros [<-|H]; [now exists []|].
    destruct (p c); [|contradiction].
    destruct (IH H) as [pre ->]. now exists (c :: pre).
Qed.

Section MatcherFacts.
Variable ic : bool.
Variable input : jsstring.

(** A match ends at a suffix of where it starts. *)
Lemma matcher_suffix (r : regex) (st st' : state) :
  In st' (matcher ic input r st) -> exists pre, fst st = pre ++ fst st'.
Proof.
  revert st st'. induction r as [|a|r1 IH1 r2 IH2|a|a|a|a|r1 IH1|r1 IH1|];
    intros st st'; simpl.
  - intros [<-|[]]. now exists [].
  - destruct (fst st) as [|c rest]; [contradiction|].
    destruct (atomMatches ic a c); [|contradiction].
    intros [<-|[]]. now exists [c].
  - intros H. apply in_flat_map in H as (st1 & H1 & H2).
    destruct (IH1 _ _ H1) as [p1 E1], (IH2 _ _ H2) as [p2 E2].
    exists (p1 ++ p2). now rewrite E1, E2, app_assoc.
  - intros H. apply in_map_iff in H as (x & <- & H). now apply starGreedy_suffix in H.
  - intros H. apply in_map_iff in H as (x & <- & H). now apply starLazy_suffix in H.
  - destruct (fst st) as [|c rest]; [contradiction|].
    destruct (atomMatches ic a c); [|contradiction].
    intros H. apply in_map_iff in H as (x & <- & H).
    apply starGreedy_suffix in H as [pre ->]. now exists (c :: pre).
  - destruct (fst st) as [|c rest] eqn:E.
    + intros [<-|[]]. exists []. now rewrite E.
    + destruct (atomMatches ic a c).
      * intros [<-|[<-|[]]]; [now exists [c]|]. exists []. now rewrite E.
      * intros [<-|[]]. exists []. now rewrite E.
  - intros H. apply in_map_iff in H as (x & <- & H). simpl. now apply IH1.
  - destruct (matcher ic input r1 st); [contradiction|].
    intros [<-|[]]. now exists [].
  - destruct (length (fst st) =? length input); [|contradiction].
    intros [<-|[]]. now exists [].
Qed.

Lemma matcher_length (r : regex) (st st' : state) :
  In st' (matcher ic input r st) -> length (fst st') <= length (fst st).
Proof.
  intros H. apply matcher_suffix in H as [pre ->]. rewrite length_app. lia.
Qed.

(** A pattern without the group leaves the capture as it was. *)
Lemma matcher_no_group (r : regex) (st st' : state) :
  hasGroup r = false -> In st' (matcher ic input r st) -> snd st' = snd st.
Proof.
  revert st st'. induction r as [|a|r1 IH1 r2 IH2|a|a|a|a|r1 IH1|r1 IH1|];
    intros st st'; simpl; intros G.
  - now intros [<-|[]].
  - destruct (fst st) as [|c rest]; [contradiction|].
    destruct (atomMatches ic a c); [|contradiction]. now intros [<-|[]].
  - apply orb_false_iff in G as [G1 G2].
    intros H. apply in_flat_map in H as (st1 & H1 & H2).
    rewrite (IH2 _ _ G2 H2). now apply IH1.
  - intros H. now apply in_map_iff in H as (x & <- & H).
  - intros H. now apply in_map_iff in H as (x & <- & H).
  - destruct (fst st) as [|c rest]; [contradiction|].
    destruct (atomMatches ic a c); [|contradiction].
    intros H. now apply in_map_iff in H as (x & <- & H).
  - destruct (fst st) as [|c rest].
    + now intros [<-|[]].
    + destruct (atomMatches ic a c).
      * now intros [<-|[<-|[]]].
      * now intros [<-|[]].
  - discriminate.
  - destruct (matcher ic input r1 st) as [|st0 l] eqn:E; [contradiction|].
    intros [<-|[]]. simpl. apply IH1; [exact G|]. rewrite E. now left.
  - destruct (length (fst st) =? length input); [|contradiction]. now intros [<-|[]].
Qed.

(** A consuming pattern ends strictly further on. *)
Lemma matcher_consumes (r : regex) (st st' : state) :
  consumes r = true -> In st' (matcher ic input r st) ->
  length (fst st') < length (fst st).
Proof.
  revert st st'. induction r as [|a|r1 IH1 r2 IH2|a|a|a|a|r1 IH1|r1 IH1|];
    intros st st'; simpl; intros C; try discriminate.
  - destruct (fst st) as [|c rest]; [contradiction|].
    destruct (atomMatches ic a c); [|contradiction].
    intros [<-|[]]. simpl. lia.
  - intros H. apply in_flat_map in H as (st1 & H1 & H2).
    pose proof (matcher_length _ _ _ H1). pose proof (matcher_length _ _ _ H2).
    apply orb_true_iff in C as [C|C].
    + specialize (IH1 _ _ C H1). lia.
    + specialize (IH2 _ _ C H2). lia.
  - destruct (fst st) as [|c rest]; [contradiction|].
    destruct (atomMatches ic a c); [|contradiction].
    intros H. apply in_map_iff in H as (x & <- & H).
    apply starGreedy_suffix in H as [pre ->]. simpl. rewrite length_app. lia.
  - intros H. apply in_map_iff in H as (x & <- & H). simpl. now apply IH1.
Qed.

(** The position [exec] reports is the first one the matcher accepts. *)
Lemma execFrom_Some (r : regex) (rest : jsstring) (m : MatchResult) :
  execFrom ic input r rest = Some m ->
  exists pre rest0 st' tl,
    rest = pre ++ rest0 /\
    matcher ic input r (rest0, None) = st' :: tl /\
    index m = length input - length rest0 /\
    after m = fst st' /\ group1 m = snd st'.
Proof.
  induction rest as [|c rest IH]; simpl.
  - destruct (matcher ic input r _) as [|st' tl] eqn:E; [easy|].
    intros H. injection H as <-. exists [], [], st', tl. auto.
  - destruct (matcher ic input r _) as [|st' tl] eqn:E.
    + intros H. destruct (IH H) as (pre & rest0 & st' & tl & -> & H1 & H2).
      exists (c :: pre), rest0, st', tl. auto.
    + intros H. injection H as <-. exists [], (c :: rest), st', tl. auto.
Qed.

Lemma execFrom_None (r : regex) (rest : jsstring) :
  execFrom ic input r rest = None ->
  forall pre rest0, rest = pre ++ rest0 -> matcher ic input r (rest0, None) = [].
Proof.
  induction rest as [|c rest IH]; simpl.
  - destruct (matcher ic input r _) eqn:E; [|easy].
    intros _ pre rest0 H. symmetry in H. apply app_eq_nil in H as [-> ->]. exact E.
  - destruct (matcher ic input r _) eqn:E; [|easy].
    intros H pre rest0 H0. destruct pre as [|d pre]; simpl in H0.
    + now subst rest0.
    + injection H0 as -> ->. now apply (IH H pre).
Qed.

End MatcherFacts.

(** ** The section patterns always capture *)

Lemma firstn_sub_length (rest rest' : jsstring) :
  length (firstn (length rest - length rest') rest) <= length rest.
Proof. rewrite length_firstn. lia. Qed.

Lemma sectionRe_capture (input : jsstring) (marker stop : regex) (st st' : state) :
  hasGroup stop = false ->
  In st' (matcher true input (source (sectionRe marker stop)) st) ->
  exists st1 c,
    In st1 (matcher true input marker st) /\
    snd st' = Some c /\ length c <= length (fst st1).
Proof.
  intros G H. simpl in H.
  apply in_flat_map in H as (st1 & H1 & H).
  apply in_flat_map in H as (st2 & H2 & H).
  apply in_map_iff in H2 as (x & <- & _).
  destruct (matcher true input stop _) as [|st3 l] eqn:E; [contradiction|].
  destruct H as [<-|[]].
  exists st1, (firstn (length (fst st1) - length (fst x)) (fst st1)).
  split; [exact H1|]. split; [|apply firstn_sub_length].
  simpl. match type of E with matcher _ _ _ ?st2 = _ =>
    apply (@matcher_no_group true input stop st2 st3 G) end.
  rewrite E. now left.
Qed.

Lemma lastSectionRe_capture (input : jsstring) (marker : regex) (st st' : state) :
  In st' (matcher true input (source (lastSectionRe marker)) st) ->
  exists st1 c,
    In st1 (matcher true input marker st) /\
    snd st' = Some c /\ length c <= length (fst st1).
Proof.
  intros H. simpl in H.
  apply in_flat_map in H as (st1 & H1 & H).
  apply in_map_iff in H as (x & <- & _).
  exists st1, (firstn (length (fst st1) - length (fst x)) (fst st1)).
  split; [exact H1|]. split; [reflexivity|apply firstn_sub_length].
Qed.

Lemma capturing_from_matcher (re : RegExp) (marker : regex) :
  consumes marker = true ->
  (forall input st st',
      In st' (matcher (ignoreCase re) input (source re) st) ->
      exists st1 c,
        In st1 (matcher (ignoreCase re) input marker st) /\
        snd st' = Some c /\ length c <= length (fst st1)) ->
  capturing re.
Proof.
  intros C H s m Hm. unfold strMatch in Hm.
  apply execFrom_Some in Hm as (pre & rest0 & st' & tl & Hs & E & _ & _ & Hg).
  destruct (H s (rest0, None) st') as (st1 & c & H1 & Hc & Hl).
  { rewrite E. now left. }
  exists c. split; [congruence|].
  apply matcher_consumes in H1; [|exact C]. simpl in H1.
  rewrite Hs, length_app. lia.
Qed.

Lemma sectionRe_capturing (marker stop : regex) :
  consumes marker = true -> hasGroup stop = false ->
  capturing (sectionRe marker stop).
Proof.
  intros C G. apply capturing_from_matcher with (marker := marker); [exact C|].
  intros input st st'. now apply sectionRe_capture.
Qed.

Lemma lastSectionRe_capturing (marker : regex) :
  consumes marker = true -> capturing (lastSectionRe marker).
Proof.
  intros C. apply capturing_from_matcher with (marker := marker); [exact C|].
  intros input st st'. now apply lastSectionRe_capture.
Qed.

(** A field read from one match or the other is a string shorter than the
    input, or empty. *)
Lemma fieldOf_orElse (re1 re2 : RegExp) (s : jsstring) :
  capturing re1 -> capturing re2 ->
  exists x, fieldOf (orElse (strMatch s re1) (strMatch s re2)) = Return x
            /\ (x = [] \/ length x < length s).
Proof.
  intros C1 C2. unfold orElse.
  destruct (strMatch s re1) as [m|] eqn:E1.
  - destruct (C1 s m E1) as (c & Hc & Hl). exists (trim c).
    simpl. unfold group1Trim. rewrite Hc. split; [reflexivity|].
    right. pose proof (trim_length c). lia.
  - destruct (strMatch s re2) as [m|] eqn:E2.
    + destruct (C2 s m E2) as (c & Hc & Hl). exists (trim c).
      simpl. unfold group1Trim. rewrite Hc. split; [reflexivity|].
      right. pose proof (trim_length c). lia.
    + exists []. simpl. auto.
Qed.

Lemma fieldOf_one (re : RegExp) (s : jsstring) :
  capturing re ->
  exists x, fieldOf (strMatch s re) = Return x /\ (x = [] \/ length x < length s).
Proof.
  intros C. destruct (fieldOf_orElse s C C) as (x & H & Hx).
  exists x. split; [|exact Hx]. unfold orElse in H. now destruct (strMatch s re).
Qed.

Lemma rv_stepsOf_orElse (re1 re2 : RegExp) (s : jsstring) :
  capturing re1 -> capturing re2 ->
  exists st, ResultsView.stepsOf (orElse (strMatch s re1) (strMatch s re2)) = Return st.
Proof.
  intros C1 C2. unfold orElse.
  destruct (strMatch s re1) as [m|] eqn:E1.
  - destruct (C1 s m E1) as (c & Hc & _). simpl. unfold group1Trim. rewrite Hc.
    simpl. eauto.
  - destruct (strMatch s re2) as [m|] eqn:E2.
    + destruct (C2 s m E2) as (c & Hc & _). simpl. unfold group1Trim. rewrite Hc.
      simpl. eauto.
    + simpl. eauto.
Qed.

Lemma exported_stepsOf_one (re : RegExp) (s : jsstring) :
  capturing re -> exists st, Exported.stepsOf (strMatch s re) = Return st.
Proof.
  intros C. destruct (strMatch s re) as [m|] eqn:E.
  - destruct (C s m E) as (c & Hc & _). simpl. unfold group1Trim. rewrite Hc.
    simpl. eauto.
  - simpl. eauto.
Qed.

Lemma capturing_explanationHeading : capturing ResultsView.reExplanationHeading.
Proof. now apply sectionRe_capturing. Qed.
Lemma capturing_explanationLabel : capturing ResultsView.reExplanationLabel.
Proof. now apply sectionRe_capturing. Qed.
Lemma capturing_fixedHeading : capturing ResultsView.reFixedHeading.
Proof. now apply sectionRe_capturing. Qed.
Lemma capturing_fixedLabel : capturing ResultsView.reFixedLabel.
Proof. now apply sectionRe_capturing. Qed.
Lemma capturing_stepsHeading : capturing ResultsView.reStepsHeading.
Proof. now apply sectionRe_capturing. Qed.
Lemma capturing_stepsLabel : capturing ResultsView.reStepsLabel.
Proof. now apply sectionRe_capturing. Qed.
Lemma capturing_wcagHeading : capturing ResultsView.reWcagHeading.
Proof. now apply lastSectionRe_capturing. Qed.
Lemma capturing_wcagLabel : capturing ResultsView.reWcagLabel.
Proof. now apply lastSectionRe_capturing. Qed.

(** The body never throws, and its result is one of the two records. *)
Lemma rv_parseString_cases (s : jsstring) :
  exists e f st w,
    fieldOf (ResultsView.explanationMatch s) = Return e /\
    fieldOf (ResultsView.fixedHTMLMatch s) = Return f /\
    ResultsView.stepsOf (ResultsView.stepsMatch s) = Return st /\
    fieldOf (ResultsView.wcagMatch s) = Return w /\
    (e = [] \/ length e < length s) /\
    ResultsView.parseString s
    = Return (if isEmpty e && isEmpty f then fallbackRecord s
              else {| explanation := e; fixedHTML := f; steps := st; wcag := w |}).
Proof.
  destruct (fieldOf_orElse s capturing_explanationHeading capturing_explanationLabel)
    as (e & He & Hl).
  destruct (fieldOf_orElse s capturing_fixedHeading capturing_fixedLabel)
    as (f & Hf & _).
  destruct (rv_stepsOf_orElse s capturing_stepsHeading capturing_stepsLabel)
    as (st & Hst).
  destruct (fieldOf_orElse s capturing_wcagHeading capturing_wcagLabel)
    as (w & Hw & _).
  exists e, f, st, w.
  unfold ResultsView.parseString, ResultsView.explanationMatch,
    ResultsView.fixedHTMLMatch, ResultsView.stepsMatch, ResultsView.wcagMatch.
  rewrite He, Hf, Hst, Hw. simpl.
  repeat split; try reflexivity; try assumption.
  now destruct (isEmpty e && isEmpty f).
Qed.

Lemma exported_parseString_cases (s : jsstring) :
  exists e f st w,
    fieldOf (strMatch s Exported.reExplanation) = Return e /\
    fieldOf (strMatch s Exported.reFixed) = Return f /\
    Exported.stepsOf (strMatch s Exported.reSteps) = Return st /\
    fieldOf (strMatch s Exported.reWcag) = Return w /\
    (e = [] \/ length e < length s) /\
    Exported.parseString s
    = Return (if isEmpty e && isEmpty f then fallbackRecord s
              else {| explanation := e; fixedHTML := f; steps := st; wcag := w |}).
Proof.
  destruct (fieldOf_one s capturing_explanationHeading) as (e & He & Hl).
  destruct (fieldOf_one s capturing_fixedHeading) as (f & Hf & _).
  destruct (exported_stepsOf_one s capturing_stepsHeading) as (st & Hst).
  destruct (fieldOf_one s capturing_wcagHeading) as (w & Hw & _).
  exists e, f, st, w.
  unfold Exported.parseString.
  change Exported.reExplanation with ResultsView.reExplanationHeading.
  change Exported.reFixed with ResultsView.reFixedHeading.
  change Exported.reSteps with ResultsView.reStepsHeading.
  change Exported.reWcag with ResultsView.reWcagHeading.
  rewrite He, Hf, Hst, Hw. simpl.
  repeat split; try reflexivity; try assumption.
  now destruct (isEmpty e && isEmpty f).
Qed.

(** ** The guard, the fallback and the shape of the result *)

Lemma rv_parseSuggestion_string (s : jsstring) :
  s <> [] ->
  ResultsView.parseSuggestion (JString s)
  = (r <- ResultsView.parseString s ;; Return (Some r)).
Proof. destruct s; [contradiction|reflexivity]. Qed.

Lemma isEmpty_true (s : jsstring) : isEmpty s = true <-> s = [].
Proof. destruct s; simpl; split; intros; congruence. Qed.

Lemma both_empty_iff (e f : jsstring) :
  isEmpty e && isEmpty f = true <-> e = [] /\ f = [].
Proof. rewrite andb_true_iff, !isEmpty_true. reflexivity. Qed.

(** The unnamed module has no guard: an absent suggestion throws, the empty
    string parses to the record of four empty fields. *)
Lemma exported_parse_absent_or_empty :
  Exported.parseSuggestion JUndefined = TypeError
  /\ Exported.parseSuggestion JNull = TypeError
  /\ Exported.parseSuggestion (JString []) = Return (fallbackRecord []).
Proof. repeat split. Qed.

(** C1, as stated, fails on the empty string: it is a non-null string and
    [parseSuggestion] answers [null] for it. *)
Lemma empty_string_parses_to_null :
  ResultsView.parseSuggestion (JString (u16 "")) = Return None
  /\ ~ (forall s : jsstring,
           exists r, ResultsView.parseSuggestion (JString s) = Return (Some r)).
Proof.
  split; [reflexivity|].
  intros H. destruct (H []) as [r Hr]. discriminate Hr.
Qed.

(** C1 (amended): [parseSuggestion] returns [null] exactly when the
    suggestion is absent ([undefined]), [null] or the empty string; on every
    other string, whitespace-only ones included, it returns a record (whose
    fields are three strings and a sequence of strings by their types), and it
    never throws. *)
Theorem parse_null_iff_absent_or_empty (v : jsval) :
  (ResultsView.parseSuggestion v = Return None
   <-> v = JUndefined \/ v = JNull \/ v = JString [])
  /\ (ResultsView.parseSuggestion v = Return None
      \/ exists r, ResultsView.parseSuggestion v = Return (Some r)).
Proof.
  destruct v as [| |[|c s]]; try (split; [split; auto|left; reflexivity]).
  assert (N : c :: s <> []) by discriminate.
  rewrite (rv_parseSuggestion_string N).
  destruct (rv_parseString_cases (c :: s)) as (e & f & st & w & _ & _ & _ & _ & _ & ->).
  simpl. split.
  - split; [discriminate|]. intros [H|[H|H]]; discriminate H.
  - right. eauto.
Qed.

(** C2, as stated, fails: with both markers found and nothing between each
    marker and the next, both matches capture the empty string and the
    fallback record is returned, the parsed steps and reference dropped. *)
Lemma fallback_taken_with_both_markers_found :
  option_map group1 (ResultsView.explanationMatch emptySectionsInput) = Some (Some [])
  /\ option_map group1 (ResultsView.fixedHTMLMatch emptySectionsInput) = Some (Some [])
  /\ ResultsView.stepsOf (ResultsView.stepsMatch emptySectionsInput)
     = Return [u16 "Add alt attribute"]
  /\ ResultsView.parseSuggestion (JString emptySectionsInput)
     = Return (Some (fallbackRecord emptySectionsInput)).
Proof. vm_compute. repeat split. Qed.

(** C2 (amended): the fallback record is returned if and only if the
    explanation and the fixed-markup fields both come out empty after matching
    and trimming (the marker not found under either convention, or found with
    blank content); when one of the two is non-empty the record holds the four
    parsed fields, a field whose marker matched blank content being the empty
    string. *)
Theorem fallback_iff_both_fields_empty (s e f : jsstring) :
  s <> [] ->
  fieldOf (ResultsView.explanationMatch s) = Return e ->
  fieldOf (ResultsView.fixedHTMLMatch s) = Return f ->
  (ResultsView.parseSuggestion (JString s) = Return (Some (fallbackRecord s))
   <-> e = [] /\ f = [])
  /\ (~ (e = [] /\ f = []) ->
      exists st w,
        ResultsView.stepsOf (ResultsView.stepsMatch s) = Return st
        /\ fieldOf (ResultsView.wcagMatch s) = Return w
        /\ ResultsView.parseSuggestion (JString s)
           = Return (Some {| explanation := e; fixedHTML := f;
                             steps := st; wcag := w |})).
Proof.
  intros N He Hf. rewrite (rv_parseSuggestion_string N).
  destruct (rv_parseString_cases s) as (e' & f' & st & w & He' & Hf' & Hst & Hw & Hl & ->).
  assert (e' = e) by congruence. assert (f' = f) by congruence. subst e' f'.
  simpl. destruct (isEmpty e && isEmpty f) eqn:B.
  - apply both_empty_iff in B. split; [tauto|]. intros C. contradiction.
  - assert (NB : ~ (e = [] /\ f = [])).
    { intros C. apply both_empty_iff in C. congruence. }
    split.
    + split; [|tauto]. intros H. injection H as H1 H2 _ _.
      exfalso. destruct Hl as [Hl|Hl].
      * subst e. now apply N.
      * rewrite H1 in Hl. lia.
    + intros _. exists st, w. auto.
Qed.

Lemma fallback_iff_both_fields_empty_witness :
  (headingScenario <> []
   /\ (ResultsView.parseSuggestion (JString headingScenario)
       = Return (Some (fallbackRecord headingScenario))
       <-> explanation headingScenarioResult = []
           /\ fixedHTML headingScenarioResult = []))
  /\ (emptySectionsInput <> []
      /\ (ResultsView.parseSuggestion (JString emptySectionsInput)
          = Return (Some (fallbackRecord emptySectionsInput))
          <-> @nil codeunit = [] /\ @nil codeunit = []))
  /\ (emptyExplanationInput <> []
      /\ exists st w,
          ResultsView.stepsOf (ResultsView.stepsMatch emptyExplanationInput) = Return st
          /\ fieldOf (ResultsView.wcagMatch emptyExplanationInput) = Return w
          /\ ResultsView.parseSuggestion (JString emptyExplanationInput)
             = Return (Some {| explanation := [];
                               fixedHTML := fixedHTML headingScenarioResult;
                               steps := st; wcag := w |})).
Proof.
  assert (N1 : headingScenario <> []) by (vm_compute; discriminate).
  assert (N2 : emptySectionsInput <> []) by (vm_compute; discriminate).
  assert (N3 : emptyExplanationInput <> []) by (vm_compute; discriminate).
  split; [|split]; (split; [assumption|]).
  - refine (proj1 (@fallback_iff_both_fields_empty headingScenario
                     (explanation headingScenarioResult)
                     (fixedHTML headingScenarioResult) N1 _ _));
      vm_compute; reflexivity.
  - refine (proj1 (@fallback_iff_both_fields_empty emptySectionsInput [] [] N2 _ _));
      vm_compute; reflexivity.
  - refine (proj2 (@fallback_iff_both_fields_empty emptyExplanationInput []
                     (fixedHTML headingScenarioResult) N3 _ _) _).
    + vm_compute. reflexivity.
    + vm_compute. reflexivity.
    + intros [_ H]. vm_compute in H. discriminate H.
Defined.

(** C3: the heading-convention scenario parses to exactly the stated record,
    in both implementations. *)
Theorem heading_scenario_parses :
  ResultsView.parseSuggestion (JString headingScenario)
  = Return (Some headingScenarioResult)
  /\ Exported.parseSuggestion (JString headingScenario) = Return headingScenarioResult.
Proof. split; vm_compute; reflexivity. Qed.

(** The scenario of the numbered-label convention as it is written in the
    specification, its placeholders taken as text: no heading pattern
    matches, the four label patterns do, and each captures what stands
    between its label and the next one. *)
Lemma label_scenario_captures :
  strMatch labelScenario ResultsView.reExplanationHeading = None
  /\ strMatch labelScenario ResultsView.reFixedHeading = None
  /\ strMatch labelScenario ResultsView.reStepsHeading = None
  /\ strMatch labelScenario ResultsView.reWcagHeading = None
  /\ option_map group1 (strMatch labelScenario ResultsView.reExplanationLabel)
     = Some (Some ([LF] ++ u16 "...text..." ++ [LF]))
  /\ option_map group1 (strMatch labelScenario ResultsView.reFixedLabel)
     = Some (Some ([LF] ++ u16 "...markup..." ++ [LF]))
  /\ option_map group1 (strMatch labelScenario ResultsView.reStepsLabel)
     = Some (Some ([LF] ++ u16 "..." ++ [LF]))
  /\ option_map group1 (strMatch labelScenario ResultsView.reWcagLabel)
     = Some (Some (u16 " 1.4.3"))
  /\ ResultsView.parseSuggestion (JString labelScenario)
     = Return (Some labelScenarioResult).
Proof. vm_compute. repeat split. Qed.

(** C9: on a non-empty string the returned record is never all-empty; when
    the explanation and the fixed markup both come out empty it is the
    fallback record, which carries the entire input as explanation. *)
Theorem result_never_all_empty (s : jsstring) :
  s <> [] ->
  exists r,
    ResultsView.parseSuggestion (JString s) = Return (Some r)
    /\ ~ (explanation r = [] /\ fixedHTML r = [] /\ steps r = [] /\ wcag r = [])
    /\ (fieldOf (ResultsView.explanationMatch s) = Return [] ->
        fieldOf (ResultsView.fixedHTMLMatch s) = Return [] ->
        r = fallbackRecord s /\ explanation r = s).
Proof.
  intros N. rewrite (rv_parseSuggestion_string N).
  destruct (rv_parseString_cases s) as (e & f & st & w & He & Hf & _ & _ & _ & ->).
  simpl. eexists. split; [reflexivity|].
  destruct (isEmpty e && isEmpty f) eqn:B.
  - split; [simpl; tauto|]. intros _ _. split; reflexivity.
  - split.
    + simpl. intros (E1 & E2 & _). subst e f. discriminate B.
    + intros H1 H2. rewrite He in H1. rewrite Hf in H2.
      injection H1 as ->. injection H2 as ->. discriminate B.
Qed.

Lemma result_never_all_empty_witness :
  exists r,
    ResultsView.parseSuggestion (JString (u16 "   ")) = Return (Some r)
    /\ ~ (explanation r = [] /\ fixedHTML r = [] /\ steps r = [] /\ wcag r = []).
Proof.
  destruct (@result_never_all_empty (u16 "   ")) as (r & H1 & H2 & _).
  - vm_compute. discriminate.
  - exists r. split; assumption.
Defined.

(** ** Searching for a marker *)

Lemma test_true_iff (re : RegExp) (s : jsstring) :
  test re s = true <->
  exists pre rest0,
    s = pre ++ rest0 /\ matcher (ignoreCase re) s (source re) (rest0, None) <> [].
Proof.
  unfold test, strMatch. split.
  - destruct (execFrom _ _ _ _) as [m|] eqn:E; [|discriminate]. intros _.
    apply execFrom_Some in E as (pre & rest0 & st' & tl & Hs & Hm & _).
    exists pre, rest0. split; [exact Hs|]. rewrite Hm. discriminate.
  - intros (pre & rest0 & Hs & Hm).
    destruct (execFrom _ _ _ _) as [m|] eqn:E; [reflexivity|].
    exfalso. apply Hm. eapply execFrom_None; eauto.
Qed.

Lemma test_false_None (re : RegExp) (s : jsstring) :
  test re s = false <-> strMatch s re = None.
Proof. unfold test. destruct (strMatch s re); split; congruence. Qed.

(** A pattern that matches begins with a match of its first part. *)
Lemma test_Cat_prefix (ic : bool) (r1 r2 : regex) (s : jsstring) :
  test {| source := Cat r1 r2; ignoreCase := ic |} s = true ->
  test {| source := r1; ignoreCase := ic |} s = true.
Proof.
  rewrite !test_true_iff. simpl. intros (pre & rest0 & Hs & Hm).
  exists pre, rest0. split; [exact Hs|]. intros E. apply Hm. now rewrite E.
Qed.

Lemma sectionRe_needs_marker (marker stop : regex) (s : jsstring) :
  test (markerRe marker) s = false ->
  strMatch s (sectionRe marker stop) = None.
Proof.
  intros H. apply test_false_None.
  destruct (test (sectionRe marker stop) s) eqn:E; [|reflexivity].
  apply test_Cat_prefix in E. unfold markerRe in H. congruence.
Qed.

Lemma lastSectionRe_needs_marker (marker : regex) (s : jsstring) :
  test (markerRe marker) s = false ->
  strMatch s (lastSectionRe marker) = None.
Proof.
  intros H. apply test_false_None.
  destruct (test (lastSectionRe marker) s) eqn:E; [|reflexivity].
  apply test_Cat_prefix in E. unfold markerRe in H. congruence.
Qed.

Lemma starGreedy_nonempty (p : codeunit -> bool) (rest : jsstring) :
  starGreedy p rest <> [].
Proof.
  destruct rest as [|c rest]; simpl; [discriminate|].
  destruct (p c); [|discriminate].
  intros H. apply app_eq_nil in H as [_ H]. discriminate H.
Qed.

(** The last section follows wherever its marker is found. *)
Lemma lastSectionRe_matches (marker : regex) (s : jsstring) :
  test (markerRe marker) s = true ->
  test (lastSectionRe marker) s = true.
Proof.
  rewrite !test_true_iff. simpl. intros (pre & rest0 & Hs & Hm).
  exists pre, rest0. split; [exact Hs|].
  destruct (matcher true s marker (rest0, None)) as [|st1 tl]; [contradiction|].
  simpl. intros E. apply app_eq_nil in E as [E _].
  apply map_eq_nil in E. apply map_eq_nil in E.
  now apply starGreedy_nonempty in E.
Qed.

(** A run of pattern characters matches exactly the prefixes equal to it up
    to case. *)
Lemma matcher_chars (input p : jsstring) (st : state) :
  matcher true input (chars p) st
  = if startsWithIgnoreCase p (fst st)
    then [(skipn (length p) (fst st), snd st)] else [].
Proof.
  revert st. induction p as [|c p IH]; intros [rest cap]; simpl.
  - reflexivity.
  - destruct rest as [|d rest]; simpl; [reflexivity|].
    destruct (toUpperAscii d =? toUpperAscii c)%N; simpl; [|reflexivity].
    rewrite IH, app_nil_r. reflexivity.
Qed.

Lemma startsWithIgnoreCase_iff (p s : jsstring) :
  startsWithIgnoreCase p s = true <->
  exists mid post, s = mid ++ post /\ eqIgnoreCase mid p.
Proof.
  unfold eqIgnoreCase. revert s. induction p as [|c p IH]; intros s; simpl.
  - split; [|reflexivity]. intros _. now exists [], s.
  - destruct s as [|d s].
    + split; [discriminate|]. intros (mid & post & Hs & He).
      symmetry in Hs. apply app_eq_nil in Hs as [-> _]. discriminate He.
    + rewrite andb_true_iff, N.eqb_eq, IH. split.
      * intros (Hd & mid & post & -> & He). exists (d :: mid), post.
        split; [reflexivity|]. simpl. now rewrite Hd, He.
      * intros (mid & post & Hs & He). destruct mid as [|d' mid]; [discriminate He|].
        simpl in *. injection Hs as -> ->. injection He as Hd He.
        split; [exact Hd|]. now exists mid, post.
Qed.

(** Searching for a run of pattern characters is containment up to case. *)
Lemma test_chars_iff (p s : jsstring) :
  test (markerRe (chars p)) s = true <-> containsIgnoreCase p s.
Proof.
  rewrite test_true_iff. simpl. unfold containsIgnoreCase, infix. split.
  - intros (pre & rest0 & Hs & Hm). rewrite matcher_chars in Hm. simpl in Hm.
    destruct (startsWithIgnoreCase p rest0) eqn:E; [|contradiction].
    apply startsWithIgnoreCase_iff in E as (mid & post & -> & He).
    exists mid. split; [|exact He]. now exists pre, post.
  - intros (mid & (pre & post & Hs) & He). exists pre, (mid ++ post).
    split; [exact Hs|]. rewrite matcher_chars. simpl.
    assert (E : startsWithIgnoreCase p (mid ++ post) = true).
    { apply startsWithIgnoreCase_iff. now exists mid, post. }
    rewrite E. discriminate.
Qed.

Lemma stepsPhrase_test_iff (x : jsstring) :
  test ResultsView.reStepsPhrase x = true <-> containsIgnoreCase stepsPhrase x.
Proof. exact (test_chars_iff stepsPhrase x). Qed.

(** The filter keeps the non-empty steps that do not contain the phrase. *)
Lemma keepStep_iff (x : jsstring) :
  ResultsView.keepStep x = true <->
  x <> [] /\ ~ containsIgnoreCase stepsPhrase x.
Proof.
  unfold ResultsView.keepStep.
  rewrite andb_true_iff, negb_true_iff, <- stepsPhrase_test_iff, Nat.ltb_lt.
  destruct x as [|c x]; simpl.
  - split; [lia|]. intros [H _]. now contradiction H.
  - split.
    + intros [_ H]. split; [discriminate|]. congruence.
    + intros [_ H]. split; [lia|]. now destruct (test _ _).
Qed.

(** ** The anchored prefix patterns of the step lines *)

Lemma starGreedy_first (p : codeunit -> bool) (rest : jsstring) :
  exists tl, starGreedy p rest = dropWhile p rest :: tl.
Proof.
  induction rest as [|c rest [tl IH]]; simpl.
  - now exists [].
  - destruct (p c).
    + rewrite IH. now exists (tl ++ [c :: rest]).
    + now exists [].
Qed.

Lemma dropWhile_ext (p q : codeunit -> bool) (s : jsstring) :
  (forall c, p c = q c) -> dropWhile p s = dropWhile q s.
Proof.
  intros H. induction s as [|c s IH]; simpl; [reflexivity|].
  rewrite H, IH. reflexivity.
Qed.

Lemma trimStart_dropWhile (s : jsstring) : trimStart s = dropWhile isWhiteSpace s.
Proof. induction s as [|c s IH]; simpl; [reflexivity|]. now rewrite IH. Qed.

Lemma dropWhile_run (p : codeunit -> bool) (run rest : jsstring) (c : codeunit) :
  forallb p run = true -> p c = false ->
  dropWhile p (run ++ c :: rest) = c :: rest.
Proof.
  intros H Hc. induction run as [|d run IH]; simpl.
  - now rewrite Hc.
  - simpl in H. apply andb_true_iff in H as [-> H]. auto.
Qed.

Lemma space_atom (c : codeunit) :
  atomMatches false (Class [ClsSpace]) c = isWhiteSpace c.
Proof. simpl. now rewrite !orb_false_r. Qed.

Lemma digit_atom (c : codeunit) :
  atomMatches false (Class [ClsDigit]) c = isDigit c.
Proof. simpl. now rewrite !orb_false_r. Qed.

Lemma bullet_atom (c : codeunit) :
  atomMatches false ResultsView.bulletClass c = isBullet c.
Proof.
  unfold isBullet. simpl.
  destruct (c =? 45)%N, (c =? 8226)%N, (c =? 42)%N; reflexivity.
Qed.

Lemma isBullet_iff (c : codeunit) :
  isBullet c = true <-> c = 45%N \/ c = 8226%N \/ c = 42%N.
Proof.
  unfold isBullet. rewrite !orb_true_iff, !N.eqb_eq. tauto.
Qed.

Lemma digit_not_bullet (c : codeunit) : isDigit c = true -> isBullet c = false.
Proof.
  intros H. destruct (isBullet c) eqn:B; [|reflexivity].
  apply isBullet_iff in B as [-> | [-> | ->]]; discriminate H.
Qed.

Lemma space_not_bullet (c : codeunit) : isWhiteSpace c = true -> isBullet c = false.
Proof.
  intros H. destruct (isBullet c) eqn:B; [|reflexivity].
  apply isBullet_iff in B as [-> | [-> | ->]]; discriminate H.
Qed.

Lemma space_not_digit (c : codeunit) : isWhiteSpace c = true -> isDigit c = false.
Proof.
  intros H. destruct (isDigit c) eqn:D; [|reflexivity]. exfalso.
  unfold isDigit, inRange in D. apply andb_true_iff in D as [D1 D2].
  apply N.leb_le in D1, D2.
  unfold isWhiteSpace, inRange in H.
  repeat (apply orb_true_iff in H as [H|H]);
    try (apply N.eqb_eq in H; lia);
    apply andb_true_iff in H as [H1 H2]; apply N.leb_le in H1, H2; lia.
Qed.

Lemma matcher_bol (ic : bool) (input : jsstring) (r : regex) (st : state) :
  matcher ic input (Cat Bol r) st
  = if length (fst st) =? length input then matcher ic input r st else [].
Proof.
  cbn [matcher]. destruct (length (fst st) =? length input); simpl; [|reflexivity].
  apply app_nil_r.
Qed.

(** Past the start of the input an anchored pattern cannot match. *)
Lemma anchored_fails_later (ic : bool) (input : jsstring) (r : regex) (rest : jsstring) :
  length rest < length input ->
  execFrom ic input (Cat Bol r) rest = None.
Proof.
  induction rest as [|c rest IH]; intros H; cbn [execFrom]; rewrite matcher_bol;
    cbn [fst].
  - assert (E : (length (@nil codeunit) =? length input) = false)
      by (apply Nat.eqb_neq; simpl in *; lia).
    now rewrite E.
  - assert (E : (length (c :: rest) =? length input) = false)
      by (apply Nat.eqb_neq; simpl in *; lia).
    rewrite E. apply IH. simpl in H. lia.
Qed.

(** Replacing the match of an anchored pattern keeps what follows the match
    at the start, or the whole string when there is none. *)
Lemma strReplaceEmpty_anchored (ic : bool) (r : regex) (s : jsstring) :
  strReplaceEmpty s {| source := Cat Bol r; ignoreCase := ic |}
  = match matcher ic s r (s, None) with
    | st' :: _ => fst st'
    | [] => s
    end.
Proof.
  unfold strReplaceEmpty, strMatch. cbn [source ignoreCase].
  destruct s as [|c s]; cbn [execFrom]; rewrite matcher_bol; cbn [fst];
    rewrite Nat.eqb_refl.
  - destruct (matcher ic _ r _) as [|st' tl]; reflexivity.
  - destruct (matcher ic _ r _) as [|st' tl].
    + rewrite anchored_fails_later; [reflexivity|simpl; lia].
    + cbn [index after]. now rewrite Nat.sub_diag.
Qed.

(** The bullet pattern cuts one glyph and the whitespace after it, and only
    at the very start of the line. *)
Lemma strip_bullet (line : jsstring) :
  strReplaceEmpty line ResultsView.reBullet
  = match line with
    | c :: rest => if isBullet c then trimStart rest else line
    | [] => []
    end.
Proof.
  unfold ResultsView.reBullet. rewrite strReplaceEmpty_anchored.
  destruct line as [|c rest]; [reflexivity|].
  cbn [matcher fst snd]. rewrite bullet_atom.
  destruct (isBullet c); [|reflexivity].
  cbn [flat_map matcher fst snd]. rewrite app_nil_r.
  destruct (starGreedy_first (atomMatches false (Class [ClsSpace])) rest) as [tl ->].
  simpl map. cbn [fst]. rewrite trimStart_dropWhile.
  apply dropWhile_ext, space_atom.
Qed.

(** The ordinal pattern needs a digit at the start of the line. *)
Lemma strip_ordinal_no_digit (line : jsstring) :
  match line with c :: _ => isDigit c = false | [] => True end ->
  strReplaceEmpty line ResultsView.reOrdinal = line.
Proof.
  intros H. unfold ResultsView.reOrdinal. rewrite strReplaceEmpty_anchored.
  destruct line as [|c rest]; [reflexivity|].
  cbn [matcher fst snd]. rewrite digit_atom, H. reflexivity.
Qed.

(** On digits followed by a period it cuts them, the period and the
    whitespace after it. *)
Lemma strip_ordinal_numbered (digits rest : jsstring) :
  digits <> [] -> forallb isDigit digits = true ->
  strReplaceEmpty (digits ++ 46%N :: rest) ResultsView.reOrdinal = trimStart rest.
Proof.
  intros N D. unfold ResultsView.reOrdinal. rewrite strReplaceEmpty_anchored.
  destruct digits as [|d ds]; [contradiction|].
  simpl in D. apply andb_true_iff in D as [Dd Dds].
  cbn [app matcher fst snd]. rewrite digit_atom, Dd.
  destruct (starGreedy_first (atomMatches false (Class [ClsDigit])) (ds ++ 46%N :: rest))
    as [tl ->].
  rewrite dropWhile_ext with (q := isDigit) by apply digit_atom.
  rewrite dropWhile_run by (exact Dds || reflexivity).
  cbn [map flat_map matcher fst snd atomMatches canonicalize].
  rewrite N.eqb_refl. cbn [flat_map]. rewrite app_nil_r. cbn [fst snd].
  destruct (starGreedy_first (atomMatches false (Class [ClsSpace])) rest) as [tl' ->].
  cbn [map app fst]. rewrite trimStart_dropWhile.
  apply dropWhile_ext, space_atom.
Qed.

(** ** Input without markers *)

Lemma noMarkers_no_match (s : jsstring) :
  noMarkers s = true ->
  ResultsView.explanationMatch s = None /\ ResultsView.fixedHTMLMatch s = None.
Proof.
  unfold noMarkers. cbn [headingMarkers labelMarkers app forallb].
  rewrite !andb_true_iff, !negb_true_iff.
  intros (H1 & H2 & _ & _ & H5 & H6 & _).
  unfold ResultsView.explanationMatch, ResultsView.fixedHTMLMatch.
  unfold ResultsView.reExplanationHeading, ResultsView.reExplanationLabel,
    ResultsView.reFixedHeading, ResultsView.reFixedLabel.
  rewrite !sectionRe_needs_marker by assumption. split; reflexivity.
Qed.

(** C5, as stated, fails: the fallback carries the input as it is, so
    surrounding whitespace stays, and a whitespace-only input comes back
    whole instead of as the empty string. *)
Lemma no_markers_explanation_not_trimmed :
  noMarkers paddedProse = true
  /\ ResultsView.parseSuggestion (JString paddedProse)
     = Return (Some (fallbackRecord paddedProse))
  /\ explanation (fallbackRecord paddedProse) <> trim paddedProse
  /\ noMarkers (u16 "   ") = true
  /\ ResultsView.parseSuggestion (JString (u16 "   "))
     = Return (Some (fallbackRecord (u16 "   ")))
  /\ explanation (fallbackRecord (u16 "   ")) <> trim (u16 "   ").
Proof. vm_compute. repeat split; discriminate. Qed.

(** C5 (amended): for every non-empty string in which no marker of either
    convention occurs (a whitespace-only string included), the result carries
    the input itself, untrimmed, as explanation, and the other three fields
    are empty. *)
Theorem no_markers_gives_whole_input (s : jsstring) :
  s <> [] -> noMarkers s = true ->
  exists r,
    ResultsView.parseSuggestion (JString s) = Return (Some r)
    /\ explanation r = s /\ fixedHTML r = [] /\ steps r = [] /\ wcag r = [].
Proof.
  intros N H. apply noMarkers_no_match in H as [He Hf].
  rewrite (rv_parseSuggestion_string N).
  destruct (rv_parseString_cases s) as (e & f & st & w & He' & Hf' & _ & _ & _ & ->).
  rewrite He in He'. rewrite Hf in Hf'. simpl in He', Hf'.
  injection He' as <-. injection Hf' as <-.
  simpl. exists (fallbackRecord s). repeat split.
Qed.

Lemma no_markers_gives_whole_input_witness :
  paddedProse <> [] /\ noMarkers paddedProse = true
  /\ exists r,
      ResultsView.parseSuggestion (JString paddedProse) = Return (Some r)
      /\ explanation r = paddedProse /\ fixedHTML r = [] /\ steps r = [] /\ wcag r = [].
Proof.
  assert (N : paddedProse <> []) by (vm_compute; discriminate).
  assert (M : noMarkers paddedProse = true) by (vm_compute; reflexivity).
  split; [exact N|]. split; [exact M|].
  exact (no_markers_gives_whole_input N M).
Defined.

(** ** Step lines *)

Lemma rv_cleanStep_no_bullet (line : jsstring) :
  startsWithBullet line = false ->
  ResultsView.cleanStep line = Exported.cleanStep line.
Proof.
  intros H. unfold ResultsView.cleanStep, Exported.cleanStep.
  rewrite strip_bullet. destruct line as [|c rest]; [reflexivity|].
  simpl in H. rewrite H. reflexivity.
Qed.

Lemma digits_no_LF (digits : jsstring) :
  forallb isDigit digits = true -> hasLF digits = false.
Proof.
  unfold hasLF. induction digits as [|d ds IH]; [reflexivity|].
  cbn [existsb forallb]. intros H. apply andb_true_iff in H as [Hd Hds].
  rewrite (IH Hds), orb_false_r.
  destruct (N.eqb LF d) eqn:E; [|reflexivity].
  apply N.eqb_eq in E. subst d. discriminate Hd.
Qed.

Lemma wellFormedLine_no_LF (l : stepLine) :
  wellFormedLine l = true -> hasLF (lineText l) = false.
Proof.
  destruct l as [ws|digits rest]; cbn [wellFormedLine lineText].
  - rewrite andb_true_iff, negb_true_iff. tauto.
  - rewrite !andb_true_iff. intros [[_ D] R]. apply negb_true_iff in R.
    pose proof (digits_no_LF _ D) as D'.
    unfold hasLF in *. rewrite existsb_app. cbn [existsb].
    apply orb_false_iff. split; [exact D'|].
    apply orb_false_iff. split; [reflexivity|exact R].
Qed.

Lemma exported_cleanStep_blank (ws : jsstring) :
  forallb isWhiteSpace ws = true -> Exported.cleanStep ws = [].
Proof.
  intros H. unfold Exported.cleanStep.
  change Exported.reOrdinal with ResultsView.reOrdinal.
  rewrite strip_ordinal_no_digit; [now apply trim_blank|].
  destruct ws as [|c ws]; [exact I|].
  simpl in H. apply andb_true_iff in H as [H _]. now apply space_not_digit.
Qed.

Lemma exported_cleanStep_numbered (digits rest : jsstring) :
  digits <> [] -> forallb isDigit digits = true ->
  Exported.cleanStep (digits ++ 46%N :: rest) = trim rest.
Proof.
  intros N D. unfold Exported.cleanStep.
  change Exported.reOrdinal with ResultsView.reOrdinal.
  rewrite strip_ordinal_numbered by assumption. apply trim_trimStart.
Qed.


Lemma exported_cleanStep_line (l : stepLine) :
  wellFormedLine l = true ->
  Exported.cleanStep (lineText l)
  = match l with BlankLine _ => [] | NumberedLine _ rest => trim rest end.
Proof.
  destruct l as [ws|digits rest]; simpl; intros W.
  - apply andb_true_iff in W as [W _]. now apply exported_cleanStep_blank.
  - apply andb_true_iff in W as [W _]. apply andb_true_iff in W as [N D].
    apply exported_cleanStep_numbered; [|exact D]. now destruct digits.
Qed.

Lemma split_numberedBlock (ls : list stepLine) :
  ls <> [] -> forallb wellFormedLine ls = true ->
  split LF (numberedBlock ls) = map lineText ls.
Proof.
  intros N W. unfold numberedBlock, unlines. apply split_join.
  - now destruct ls.
  - clear N. induction ls as [|l ls IH]; [reflexivity|].
    simpl in *. apply andb_true_iff in W as [Wl W].
    rewrite (IH W), andb_true_r.
    apply wellFormedLine_no_LF in Wl. unfold hasLF in Wl. now rewrite Wl.
Qed.

(** On a block of numbered lines the steps are the texts of the numbered
    lines that pass the filter. *)
Lemma lines_steps (keep : jsstring -> bool) (clean : jsstring -> jsstring)
      (ls : list stepLine) :
  keep [] = false ->
  (forall l, wellFormedLine l = true ->
             clean (lineText l)
             = match l with BlankLine _ => [] | NumberedLine _ rest => trim rest end) ->
  forallb wellFormedLine ls = true ->
  filter keep (map clean (map lineText ls)) = filter keep (itemTexts ls).
Proof.
  intros K C. induction ls as [|l ls IH]; [reflexivity|].
  simpl. intros W. apply andb_true_iff in W as [Wl W].
  rewrite (C l Wl), (IH W). destruct l as [ws|digits rest]; simpl.
  - now rewrite K.
  - reflexivity.
Qed.


(** The unnamed module keeps every non-empty text of a numbered block. *)
Lemma exported_stepsOfText_block (ls : list stepLine) :
  forallb wellFormedLine ls = true ->
  Exported.stepsOfText (numberedBlock ls) = specSteps ls.
Proof.
  intros W. unfold specSteps.
  assert (E : filter Exported.keepStep (itemTexts ls)
              = filter (fun t => negb (isEmpty t)) (itemTexts ls)).
  { apply filter_ext. now intros [|c t]. }
  rewrite <- E. destruct ls as [|l ls]; [reflexivity|].
  unfold Exported.stepsOfText.
  rewrite split_numberedBlock by (discriminate || exact W).
  apply lines_steps; [reflexivity| |exact W].
  intros l' W'. now apply exported_cleanStep_line.
Qed.

(** ** Numbered blocks *)





(** ** The two implementations on heading-convention input *)

Lemma orElse_None_r (A : Type) (a : option A) : orElse a None = a.
Proof. now destruct a. Qed.

Lemma strReplaceEmpty_anchored_infix (ic : bool) (r : regex) (s : jsstring) :
  infix (strReplaceEmpty s {| source := Cat Bol r; ignoreCase := ic |}) s.
Proof.
  rewrite strReplaceEmpty_anchored.
  destruct (matcher ic s r (s, None)) as [|st' tl] eqn:E; [apply infix_refl|].
  assert (H : In st' (matcher ic s r (s, None))) by (rewrite E; now left).
  apply matcher_suffix in H as [pre H]. simpl in H.
  rewrite H. apply infix_suffix.
Qed.

Lemma exported_cleanStep_infix (line : jsstring) : infix (Exported.cleanStep line) line.
Proof.
  unfold Exported.cleanStep. eapply infix_trans; [apply trim_infix|].
  apply strReplaceEmpty_anchored_infix.
Qed.

(** A line without the phrase gives a step without it. *)
Lemma phrase_absent_after_cleaning (line : jsstring) :
  test ResultsView.reStepsPhrase line = false ->
  test ResultsView.reStepsPhrase (Exported.cleanStep line) = false.
Proof.
  intros H. destruct (test ResultsView.reStepsPhrase (Exported.cleanStep line)) eqn:E;
    [|reflexivity].
  apply stepsPhrase_test_iff in E.
  apply (containsIgnoreCase_infix (exported_cleanStep_infix line)) in E.
  apply stepsPhrase_test_iff in E. congruence.
Qed.

Lemma step_lines_agree (lines : list jsstring) :
  forallb (fun line => negb (startsWithBullet line)
                       && negb (test ResultsView.reStepsPhrase line)) lines = true ->
  filter ResultsView.keepStep (map ResultsView.cleanStep lines)
  = filter Exported.keepStep (map Exported.cleanStep lines).
Proof.
  induction lines as [|line lines IH]; [reflexivity|].
  cbn [forallb map filter]. rewrite !andb_true_iff, !negb_true_iff.
  intros [[B P] H]. rewrite (rv_cleanStep_no_bullet _ B), (IH H).
  unfold ResultsView.keepStep at 1.
  rewrite (phrase_absent_after_cleaning _ P), andb_true_r. reflexivity.
Qed.

Lemma headingOnly_matches (s : jsstring) :
  headingOnly s = true ->
  ResultsView.explanationMatch s = strMatch s Exported.reExplanation
  /\ ResultsView.fixedHTMLMatch s = strMatch s Exported.reFixed
  /\ ResultsView.stepsMatch s = strMatch s Exported.reSteps
  /\ ResultsView.wcagMatch s = strMatch s Exported.reWcag.
Proof.
  unfold headingOnly. rewrite !andb_true_iff, !negb_true_iff, orb_true_iff, negb_true_iff.
  intros [[[E F] S] W].
  unfold ResultsView.explanationMatch, ResultsView.fixedHTMLMatch,
    ResultsView.stepsMatch, ResultsView.wcagMatch.
  unfold ResultsView.reExplanationLabel, ResultsView.reFixedLabel,
    ResultsView.reStepsLabel.
  rewrite !sectionRe_needs_marker by assumption. rewrite !orElse_None_r.
  repeat split. destruct W as [W|W].
  - apply lastSectionRe_matches in W. unfold test in W.
    change Exported.reWcag with ResultsView.reWcagHeading.
    unfold ResultsView.reWcagHeading.
    destruct (strMatch s (lastSectionRe ResultsView.wcagHeading));
      [reflexivity|discriminate W].
  - unfold ResultsView.reWcagLabel.
    rewrite (lastSectionRe_needs_marker _ _ W). apply orElse_None_r.
Qed.

Lemma heading_steps_agree (s : jsstring) :
  forallb (fun line => negb (startsWithBullet line)
                       && negb (test ResultsView.reStepsPhrase line))
          (headingStepLines s) = true ->
  ResultsView.stepsOf (strMatch s Exported.reSteps) = Exported.stepsOf (strMatch s Exported.reSteps).
Proof.
  unfold headingStepLines. change ResultsView.reStepsHeading with Exported.reSteps.
  unfold ResultsView.stepsOf, Exported.stepsOf, group1Trim.
  destruct (strMatch s Exported.reSteps) as [m|]; [|reflexivity].
  destruct (group1 m) as [c|]; [|reflexivity].
  intros H. simpl. f_equal. now apply step_lines_agree.
Qed.

(** C10: on a non-empty input that uses the heading convention only, whose
    steps lines begin with no bullet glyph and do not contain the phrase
    "implementation steps" in any letter case, the two implementations
    return the same record. *)
Theorem implementations_agree_on_heading_input (s : jsstring) :
  s <> [] ->
  headingOnly s = true ->
  forallb (fun line => negb (startsWithBullet line)
                       && negb (test ResultsView.reStepsPhrase line))
          (headingStepLines s) = true ->
  exists r,
    ResultsView.parseSuggestion (JString s) = Return (Some r)
    /\ Exported.parseSuggestion (JString s) = Return r.
Proof.
  intros N H L. rewrite (rv_parseSuggestion_string N).
  destruct (exported_parseString_cases s) as (e & f & st & w & _ & _ & _ & _ & _ & E).
  exists (if isEmpty e && isEmpty f then fallbackRecord s
          else {| explanation := e; fixedHTML := f; steps := st; wcag := w |}).
  split; [|exact E].
  assert (P : ResultsView.parseString s = Exported.parseString s).
  { unfold ResultsView.parseString, Exported.parseString.
    destruct (headingOnly_matches s H) as (-> & -> & -> & ->).
    now rewrite (heading_steps_agree s L). }
  rewrite P. cbn [Exported.parseSuggestion] in E. rewrite E. reflexivity.
Qed.

Lemma implementations_agree_on_heading_input_witness :
  ResultsView.parseSuggestion (JString headingScenario)
  = Return (Some headingScenarioResult)
  /\ Exported.parseSuggestion (JString headingScenario) = Return headingScenarioResult.
Proof.
  destruct (@implementations_agree_on_heading_input headingScenario)
    as (r & H1 & H2).
  - vm_compute. discriminate.
  - vm_compute. reflexivity.
  - vm_compute. reflexivity.
  - assert (E : r = headingScenarioResult).
    { assert (U : Exported.parseSuggestion (JString headingScenario)
                  = Return headingScenarioResult) by (vm_compute; reflexivity).
      rewrite U in H2. now injection H2. }
    subst r. split; assumption.
Defined.

(** * Further properties of the parser *)

(** ** Every field is a piece of the input *)

Lemma infix_nil (s : jsstring) : infix [] s.
Proof. now exists [], s. Qed.

Lemma infix_prefix (s post : jsstring) : infix s (s ++ post).
Proof. now exists [], post. Qed.

Lemma infix_cons (c : codeunit) (x s : jsstring) : infix x s -> infix x (c :: s).
Proof. intros (pre & post & ->). now exists (c :: pre), post. Qed.

Lemma split_head_prefix (sep : codeunit) (s piece : jsstring) (pieces : list jsstring) :
  split sep s = piece :: pieces -> exists post, s = piece ++ post.
Proof.
  revert piece pieces. induction s as [|c s IH]; intros piece pieces; simpl.
  - intros [= <- <-]. now exists [].
  - destruct (c =? sep)%N.
    + intros [= <- <-]. now exists (c :: s).
    + destruct (split sep s) as [|q qs] eqn:E.
      * intros [= <- <-]. now exists s.
      * intros [= <- <-]. destruct (IH q qs eq_refl) as [post ->].
        now exists post.
Qed.

Lemma split_infix (sep : codeunit) (s p : jsstring) :
  In p (split sep s) -> infix p s.
Proof.
  revert p. induction s as [|c s IH]; intros p; simpl.
  - intros [<-|[]]. apply infix_nil.
  - destruct (c =? sep)%N.
    + intros [<-|H]; [apply infix_nil|]. apply infix_cons. now apply IH.
    + destruct (split sep s) as [|q qs] eqn:E.
      * intros [<-|[]]. now exists [], s.
      * intros [<-|H].
        -- destruct (split_head_prefix _ _ E) as [post ->]. now exists [], post.
        -- apply infix_cons. apply IH. now right.
Qed.

Lemma split_piece_no_sep (sep : codeunit) (s p : jsstring) :
  In p (split sep s) -> existsb (N.eqb sep) p = false.
Proof.
  revert p. induction s as [|c s IH]; intros p; simpl.
  - now intros [<-|[]].
  - destruct (c =? sep)%N eqn:C.
    + intros [<-|H]; [reflexivity|]. now apply IH.
    + destruct (split sep s) as [|q qs] eqn:E.
      * intros [<-|[]]. cbn [existsb]. now rewrite N.eqb_sym, C.
      * intros [<-|H].
        -- cbn [existsb]. rewrite N.eqb_sym, C. apply IH. now left.
        -- apply IH. now right.
Qed.

Lemma capture_is_prefix (rest rest' : jsstring) :
  exists post, rest = firstn (length rest - length rest') rest ++ post.
Proof.
  exists (skipn (length rest - length rest') rest). now rewrite firstn_skipn.
Qed.

Lemma sectionRe_capture_infix (input : jsstring) (marker stop : regex) (st st' : state) :
  hasGroup stop = false ->
  In st' (matcher true input (source (sectionRe marker stop)) st) ->
  exists c, snd st' = Some c /\ infix c (fst st).
Proof.
  intros G H. simpl in H.
  apply in_flat_map in H as (st1 & H1 & H).
  apply in_flat_map in H as (st2 & H2 & H).
  apply in_map_iff in H2 as (x & <- & _).
  destruct (matcher true input stop _) as [|st3 l] eqn:E; [contradiction|].
  destruct H as [<-|[]].
  exists (firstn (length (fst st1) - length (fst x)) (fst st1)). split.
  - simpl. match type of E with matcher _ _ _ ?st2 = _ =>
      apply (@matcher_no_group true input stop st2 st3 G) end.
    rewrite E. now left.
  - apply matcher_suffix in H1 as [pre ->].
    destruct (capture_is_prefix (fst st1) (fst x)) as [post E'].
    exists pre, post. now rewrite <- E'.
Qed.

Lemma lastSectionRe_capture_infix (input : jsstring) (marker : regex) (st st' : state) :
  In st' (matcher true input (source (lastSectionRe marker)) st) ->
  exists c, snd st' = Some c /\ infix c (fst st).
Proof.
  intros H. simpl in H.
  apply in_flat_map in H as (st1 & H1 & H).
  apply in_map_iff in H as (x & <- & _).
  exists (firstn (length (fst st1) - length (fst x)) (fst st1)).
  split; [reflexivity|].
  apply matcher_suffix in H1 as [pre ->].
  destruct (capture_is_prefix (fst st1) (fst x)) as [post E'].
  exists pre, post. now rewrite <- E'.
Qed.

Lemma capturesSubstring_from_matcher (re : RegExp) :
  (forall input st st',
      In st' (matcher (ignoreCase re) input (source re) st) ->
      exists c, snd st' = Some c /\ infix c (fst st)) ->
  capturesSubstring re.
Proof.
  intros H s m Hm. unfold strMatch in Hm.
  apply execFrom_Some in Hm as (pre & rest0 & st' & tl & Hs & E & _ & _ & Hg).
  destruct (H s (rest0, None) st') as (c & Hc & Hi).
  { rewrite E. now left. }
  exists c. split; [congruence|].
  simpl in Hi. rewrite Hs. eapply infix_trans; [exact Hi|apply infix_suffix].
Qed.

Lemma sectionRe_capturesSubstring (marker stop : regex) :
  hasGroup stop = false -> capturesSubstring (sectionRe marker stop).
Proof.
  intros G. apply capturesSubstring_from_matcher.
  intros input st st'. now apply sectionRe_capture_infix.
Qed.

Lemma lastSectionRe_capturesSubstring (marker : regex) :
  capturesSubstring (lastSectionRe marker).
Proof.
  apply capturesSubstring_from_matcher.
  intros input st st'. now apply lastSectionRe_capture_infix.
Qed.

Lemma trimStart_length (s : jsstring) : length (trimStart s) <= length s.
Proof.
  destruct (trimStart_suffix s) as [pre E]. rewrite E at 2. rewrite length_app. lia.
Qed.

Lemma trim_idem (s : jsstring) : trim (trim s) = trim s.
Proof.
  unfold trim.
  assert (E : trimStart (trimEnd (trimStart s)) = trimEnd (trimStart s)).
  { destruct (trimEnd_prefix (trimStart s)) as [post P].
    destruct (trimEnd (trimStart s)) as [|d y] eqn:Y; [reflexivity|].
    simpl. destruct (isWhiteSpace d) eqn:W; [|reflexivity].
    exfalso. pose proof (trimStart_idem s) as I. rewrite P in I.
    simpl in I. rewrite W in I.
    pose proof (trimStart_length (y ++ post)) as L.
    rewrite I in L. simpl in L. lia. }
  rewrite E. unfold trimEnd. now rewrite rev_involutive, trimStart_idem.
Qed.

Lemma fieldOf_orElse_infix (re1 re2 : RegExp) (s x : jsstring) :
  capturesSubstring re1 -> capturesSubstring re2 ->
  fieldOf (orElse (strMatch s re1) (strMatch s re2)) = Return x ->
  infix x s /\ trimmed x.
Proof.
  intros C1 C2. unfold orElse, fieldOf, group1Trim, trimmed.
  assert (T : forall c, infix c s -> Return (trim c) = Return x ->
                        infix x s /\ trim x = x).
  { intros c Hc [= <-]. split; [|apply trim_idem].
    eapply infix_trans; [apply trim_infix|exact Hc]. }
  destruct (strMatch s re1) as [m|] eqn:E1.
  - destruct (C1 s m E1) as (c & -> & Hc). now apply T.
  - destruct (strMatch s re2) as [m|] eqn:E2.
    + destruct (C2 s m E2) as (c & -> & Hc). now apply T.
    + intros [= <-]. split; [apply infix_nil|reflexivity].
Qed.

Lemma infix_no_sep (sep : codeunit) (x s : jsstring) :
  infix x s -> existsb (N.eqb sep) s = false -> existsb (N.eqb sep) x = false.
Proof.
  intros (pre & post & ->). rewrite !existsb_app, !orb_false_iff. tauto.
Qed.

Lemma rv_cleanStep_infix (line : jsstring) : infix (ResultsView.cleanStep line) line.
Proof.
  unfold ResultsView.cleanStep.
  eapply infix_trans; [apply trim_infix|].
  eapply infix_trans; apply strReplaceEmpty_anchored_infix.
Qed.

Lemma rv_stepsOfText_clean (block x : jsstring) :
  In x (ResultsView.stepsOfText block) -> cleanStepOf block x.
Proof.
  unfold ResultsView.stepsOfText. rewrite filter_In, in_map_iff, keepStep_iff.
  intros [(line & <- & L) [K1 K2]].
  pose proof (rv_cleanStep_infix line) as I.
  repeat split; try assumption.
  - eapply infix_trans; [exact I|]. now apply split_infix in L.
  - apply trim_idem.
  - apply infix_no_sep with (s := line); [exact I|].
    now apply split_piece_no_sep in L.
Qed.

Lemma rv_stepsOf_orElse_clean (re1 re2 : RegExp) (s : jsstring) (st : list jsstring) :
  capturesSubstring re1 -> capturesSubstring re2 ->
  ResultsView.stepsOf (orElse (strMatch s re1) (strMatch s re2)) = Return st ->
  forall x, In x st -> cleanStepOf s x.
Proof.
  intros C1 C2. unfold orElse, ResultsView.stepsOf, group1Trim.
  assert (T : forall c, infix c s ->
                        Return (ResultsView.stepsOfText (trim c)) = Return st ->
                        forall x, In x st -> cleanStepOf s x).
  { intros c Hc [= <-] x Hx. apply rv_stepsOfText_clean in Hx.
    destruct Hx as (I & R). split; [|exact R].
    eapply infix_trans; [exact I|]. eapply infix_trans; [apply trim_infix|exact Hc]. }
  destruct (strMatch s re1) as [m|] eqn:E1.
  - destruct (C1 s m E1) as (c & -> & Hc). simpl. now apply T.
  - destruct (strMatch s re2) as [m|] eqn:E2.
    + destruct (C2 s m E2) as (c & -> & Hc). simpl. now apply T.
    + intros [= <-] x [].
Qed.

Lemma sub_explanationHeading : capturesSubstring ResultsView.reExplanationHeading.
Proof. now apply sectionRe_capturesSubstring. Qed.
Lemma sub_explanationLabel : capturesSubstring ResultsView.reExplanationLabel.
Proof. now apply sectionRe_capturesSubstring. Qed.
Lemma sub_fixedHeading : capturesSubstring ResultsView.reFixedHeading.
Proof. now apply sectionRe_capturesSubstring. Qed.
Lemma sub_fixedLabel : capturesSubstring ResultsView.reFixedLabel.
Proof. now apply sectionRe_capturesSubstring. Qed.
Lemma sub_stepsHeading : capturesSubstring ResultsView.reStepsHeading.
Proof. now apply sectionRe_capturesSubstring. Qed.
Lemma sub_stepsLabel : capturesSubstring ResultsView.reStepsLabel.
Proof. now apply sectionRe_capturesSubstring. Qed.
Lemma sub_wcagHeading : capturesSubstring ResultsView.reWcagHeading.
Proof. apply lastSectionRe_capturesSubstring. Qed.
Lemma sub_wcagLabel : capturesSubstring ResultsView.reWcagLabel.
Proof. apply lastSectionRe_capturesSubstring. Qed.

(** The result of the body with what is known of each field. *)
Lemma rv_parseString_shape (s : jsstring) :
  exists e f st w,
    ResultsView.parseString s
    = Return (if isEmpty e && isEmpty f then fallbackRecord s
              else {| explanation := e; fixedHTML := f; steps := st; wcag := w |})
    /\ (infix e s /\ trimmed e) /\ (infix f s /\ trimmed f)
    /\ (infix w s /\ trimmed w)
    /\ (forall x, In x st -> cleanStepOf s x).
Proof.
  destruct (rv_parseString_cases s) as (e & f & st & w & He & Hf & Hst & Hw & _ & E).
  exists e, f, st, w. split; [exact E|].
  split; [exact (fieldOf_orElse_infix _ sub_explanationHeading sub_explanationLabel He)|].
  split; [exact (fieldOf_orElse_infix _ sub_fixedHeading sub_fixedLabel Hf)|].
  split; [exact (fieldOf_orElse_infix _ sub_wcagHeading sub_wcagLabel Hw)|].
  exact (rv_stepsOf_orElse_clean _ sub_stepsHeading sub_stepsLabel Hst).
Qed.

(** X1: the parser never invents text.  In the record returned for a
    non-empty string, the explanation, the fixed markup, the reference and
    every step are runs of consecutive code units of the input. *)
Theorem fields_are_pieces_of_input (s : jsstring) :
  s <> [] ->
  exists r,
    ResultsView.parseSuggestion (JString s) = Return (Some r)
    /\ infix (explanation r) s /\ infix (fixedHTML r) s /\ infix (wcag r) s
    /\ (forall x, In x (steps r) -> infix x s).
Proof.
  intros N. rewrite (rv_parseSuggestion_string N).
  destruct (rv_parseString_shape s)
    as (e & f & st & w & -> & [He _] & [Hf _] & [Hw _] & Hst).
  simpl. eexists. split; [reflexivity|].
  destruct (isEmpty e && isEmpty f); simpl.
  - repeat split; try apply infix_nil; try apply infix_refl. intros x [].
  - repeat split; try assumption. intros x Hx. now apply Hst.
Qed.

Lemma fields_are_pieces_of_input_witness :
  headingScenario <> []
  /\ exists r,
      ResultsView.parseSuggestion (JString headingScenario) = Return (Some r)
      /\ infix (explanation r) headingScenario
      /\ infix (fixedHTML r) headingScenario
      /\ infix (wcag r) headingScenario
      /\ (forall x, In x (steps r) -> infix x headingScenario).
Proof.
  assert (N : headingScenario <> []) by (vm_compute; discriminate).
  split; [exact N|]. exact (fields_are_pieces_of_input N).
Defined.

(** X2: the parsed fields are clean.  Unless the result is the fallback
    record, explanation, fixed markup and reference have no whitespace at
    either end; and every returned step is non-empty, has no whitespace at
    either end, contains no line feed and does not contain the phrase
    "implementation steps" in any letter case. *)
Theorem fields_trimmed_steps_clean (s : jsstring) :
  s <> [] ->
  exists r,
    ResultsView.parseSuggestion (JString s) = Return (Some r)
    /\ (r = fallbackRecord s
        \/ (trimmed (explanation r) /\ trimmed (fixedHTML r) /\ trimmed (wcag r)))
    /\ (forall x, In x (steps r) ->
                  x <> [] /\ trimmed x /\ hasLF x = false
                  /\ ~ containsIgnoreCase stepsPhrase x).
Proof.
  intros N. rewrite (rv_parseSuggestion_string N).
  destruct (rv_parseString_shape s)
    as (e & f & st & w & -> & [_ He] & [_ Hf] & [_ Hw] & Hst).
  simpl. eexists. split; [reflexivity|].
  destruct (isEmpty e && isEmpty f); simpl.
  - split; [now left|]. intros x [].
  - split; [right; auto|]. intros x Hx. now destruct (Hst x Hx) as (_ & R).
Qed.

Lemma fields_trimmed_steps_clean_witness :
  labelScenario <> []
  /\ exists r,
      ResultsView.parseSuggestion (JString labelScenario) = Return (Some r)
      /\ (r = fallbackRecord labelScenario
          \/ (trimmed (explanation r) /\ trimmed (fixedHTML r) /\ trimmed (wcag r)))
      /\ (forall x, In x (steps r) ->
                    x <> [] /\ trimmed x /\ hasLF x = false
                    /\ ~ containsIgnoreCase stepsPhrase x).
Proof.
  assert (N : labelScenario <> []) by (vm_compute; discriminate).
  split; [exact N|]. exact (fields_trimmed_steps_clean N).
Defined.

(** ** Where a lazy section ends *)

Lemma anyChar_matches (ic : bool) (c : codeunit) : atomMatches ic anyChar c = true.
Proof. simpl. now destruct (isWhiteSpace c). Qed.

Lemma ahead_chars (input stop : jsstring) (st : state) :
  matcher true input (Ahead (chars stop)) st
  = if startsWithIgnoreCase stop (fst st) then [st] else [].
Proof.
  cbn [matcher]. rewrite matcher_chars.
  destruct (startsWithIgnoreCase stop (fst st)); [|reflexivity]. now destruct st.
Qed.

Lemma firstn_before (pre rest : jsstring) :
  firstn (length (pre ++ rest) - length rest) (pre ++ rest) = pre.
Proof.
  rewrite length_app. replace (length pre + length rest - length rest) with (length pre) by lia.
  rewrite firstn_app, Nat.sub_diag, firstn_all. simpl. apply app_nil_r.
Qed.

Lemma flat_map_head (A B : Type) (f : A -> list B) (l : list A) (y : B) (tl : list B) :
  flat_map f l = y :: tl -> exists x tl', In x l /\ f x = y :: tl'.
Proof.
  induction l as [|x l IH]; simpl; [discriminate|].
  destruct (f x) as [|z zs] eqn:E.
  - intros H. destruct (IH H) as (x' & tl' & Hx & Hf). exists x', tl'. auto.
  - simpl. intros [= <- <-]. exists x, zs. auto.
Qed.

(** The lazy group followed by the lookahead stops at the first place where
    the closing marker begins. *)
Lemma lazy_scan (input stop : jsstring) (cap : option jsstring)
      (whole pre rest1 : jsstring) (st' : state) (tl : list state) :
  whole = pre ++ rest1 ->
  flat_map (matcher true input (Ahead (chars stop)))
    (map (fun st0 : state =>
            (fst st0, Some (firstn (length whole - length (fst st0)) whole)))
         (map (fun r : jsstring => (r, cap))
              (starLazy (atomMatches true anyChar) rest1)))
  = st' :: tl ->
  exists c1 rest',
    rest1 = c1 ++ rest' /\ st' = (rest', Some (pre ++ c1))
    /\ startsWithIgnoreCase stop rest' = true
    /\ forall a b, c1 = a ++ b -> b <> [] ->
                   startsWithIgnoreCase stop (b ++ rest') = false.
Proof.
  revert pre. induction rest1 as [|x rest1 IH]; intros pre W.
  - cbn [starLazy map flat_map fst]. rewrite ahead_chars, app_nil_r. cbn [fst].
    destruct (startsWithIgnoreCase stop []) eqn:E; [|discriminate].
    intros [= <- <-]. exists [], []. split; [reflexivity|].
    rewrite W, firstn_before, !app_nil_r. repeat split; try assumption.
    intros a b H Hb. symmetry in H. apply app_eq_nil in H as [_ H]. contradiction.
  - cbn [starLazy]. rewrite anyChar_matches. cbn [map flat_map fst].
    rewrite ahead_chars. cbn [fst].
    destruct (startsWithIgnoreCase stop (x :: rest1)) eqn:E.
    + simpl. intros [= <- <-]. exists [], (x :: rest1). split; [reflexivity|].
      rewrite W, firstn_before, app_nil_r. repeat split; try assumption.
      intros a b H Hb. symmetry in H. apply app_eq_nil in H as [_ H]. contradiction.
    + simpl. intros H.
      destruct (IH (pre ++ [x])) as (c1 & rest' & -> & -> & S & M).
      { rewrite W, <- app_assoc. reflexivity. }
      { exact H. }
      exists (x :: c1), rest'. split; [reflexivity|].
      split; [now rewrite <- app_assoc|]. split; [exact S|].
      intros a b Hab Hb. destruct a as [|y a]; simpl in Hab.
      * subst b. exact E.
      * injection Hab as -> ->. exact (M a b eq_refl Hb).
Qed.

(** The anatomy of a match of a lazy section pattern: what precedes the
    match, what the marker took, the capture, and the rest, which begins with
    the closing marker while no earlier place after the marker does. *)
Lemma sectionRe_anatomy (marker : regex) (stop s : jsstring) (m : MatchResult) :
  strMatch s (sectionRe marker (chars stop)) = Some m ->
  exists pre mk c rest',
    s = pre ++ mk ++ c ++ rest'
    /\ (exists st1, In st1 (matcher true s marker (mk ++ c ++ rest', None))
                    /\ fst st1 = c ++ rest')
    /\ index m = length pre /\ group1 m = Some c /\ after m = rest'
    /\ startsWithIgnoreCase stop rest' = true
    /\ forall a b, c = a ++ b -> b <> [] ->
                   startsWithIgnoreCase stop (b ++ rest') = false.
Proof.
  unfold strMatch. intros H.
  apply execFrom_Some in H as (pre & rest0 & st' & tl & Hs & E & Hi & Ha & Hg).
  cbn [source sectionRe ignoreCase] in E.
  change (matcher true s (Cat marker (Cat (Group (StarLazy anyChar)) (Ahead (chars stop))))
                  (rest0, None))
    with (flat_map (matcher true s (Cat (Group (StarLazy anyChar)) (Ahead (chars stop))))
                   (matcher true s marker (rest0, None))) in E.
  apply flat_map_head in E as (st1 & tl' & H1 & E).
  change (matcher true s (Cat (Group (StarLazy anyChar)) (Ahead (chars stop))) st1)
    with (flat_map (matcher true s (Ahead (chars stop)))
            (map (fun st0 : state =>
                    (fst st0,
                     Some (firstn (length (fst st1) - length (fst st0)) (fst st1))))
                 (map (fun r : jsstring => (r, snd st1))
                      (starLazy (atomMatches true anyChar) (fst st1))))) in E.
  apply (@lazy_scan s stop (snd st1) (fst st1) [] (fst st1)) in E; [|reflexivity].
  destruct E as (c & rest' & E1 & -> & S & M).
  pose proof H1 as H1'. apply matcher_suffix in H1' as [mk Hmk]. cbn [fst] in Hmk.
  exists pre, mk, c, rest'. rewrite <- E1, <- Hmk.
  split; [exact Hs|]. split; [exists st1; auto|].
  split.
  { rewrite Hi, Hs, length_app. lia. }
  split; [exact Hg|]. split; [exact Ha|]. split; [exact S|exact M].
Qed.

Lemma eqIgnoreCase_nonempty (mid stop : jsstring) :
  eqIgnoreCase mid stop -> stop <> [] -> mid <> [].
Proof. unfold eqIgnoreCase. intros H N ->. destruct stop; [contradiction|discriminate H]. Qed.

Lemma minimal_end_no_stop (stop c rest' : jsstring) :
  stop <> [] ->
  (forall a b, c = a ++ b -> b <> [] ->
               startsWithIgnoreCase stop (b ++ rest') = false) ->
  ~ containsIgnoreCase stop c.
Proof.
  intros N M (mid & (a & b & ->) & He).
  assert (Hm : mid <> []) by (eapply eqIgnoreCase_nonempty; eauto).
  assert (F : startsWithIgnoreCase stop ((mid ++ b) ++ rest') = false).
  { apply (M a (mid ++ b) eq_refl). intros E. apply app_eq_nil in E as [E _]. auto. }
  assert (T : startsWithIgnoreCase stop ((mid ++ b) ++ rest') = true).
  { apply startsWithIgnoreCase_iff. exists mid, (b ++ rest').
    split; [now rewrite app_assoc|exact He]. }
  congruence.
Qed.

Lemma sectionRe_capture_no_stop (marker : regex) (stop s : jsstring) (m : MatchResult) :
  stop <> [] ->
  strMatch s (sectionRe marker (chars stop)) = Some m ->
  exists c, group1 m = Some c /\ ~ containsIgnoreCase stop c.
Proof.
  intros N H.
  apply sectionRe_anatomy in H as (pre & mk & c & rest' & _ & _ & _ & Hg & _ & _ & M).
  exists c. split; [exact Hg|]. now apply minimal_end_no_stop with (rest' := rest').
Qed.

(** X3: a lazy section never runs into its closing marker.  Whenever one of
    the six patterns with a lazy group matches, the text it captures does not
    contain, in any letter case, the marker that closes the section
    ([###], [2.], [3.] or [WCAG reference]). *)
Theorem captured_section_excludes_closing_marker
        (re : RegExp) (stop s : jsstring) (m : MatchResult) :
  In (re, stop) lazySectionPatterns ->
  strMatch s re = Some m ->
  exists c, group1 m = Some c /\ ~ containsIgnoreCase stop c.
Proof.
  intros H. unfold lazySectionPatterns in H.
  repeat (destruct H as [[= <- <-]|H];
          [apply sectionRe_capture_no_stop; discriminate|]).
  contradiction.
Qed.

Lemma captured_section_excludes_closing_marker_witness :
  exists c,
    option_map group1 (strMatch headingScenario ResultsView.reExplanationHeading)
    = Some (Some c)
    /\ ~ containsIgnoreCase (u16 "###") c.
Proof.
  destruct (strMatch headingScenario ResultsView.reExplanationHeading) as [m|] eqn:E;
    [|vm_compute in E; discriminate E].
  destruct (@captured_section_excludes_closing_marker
              ResultsView.reExplanationHeading (u16 "###") headingScenario m)
    as (c & Hc & Hn).
  - left. reflexivity.
  - exact E.
  - exists c. simpl. rewrite Hc. auto.
Defined.

Lemma no_contains_infix (stop x c : jsstring) :
  infix x c -> ~ containsIgnoreCase stop c -> ~ containsIgnoreCase stop x.
Proof. intros I N H. apply N. eapply containsIgnoreCase_infix; eauto. Qed.

Lemma no_contains_nil (stop : jsstring) : stop <> [] -> ~ containsIgnoreCase stop [].
Proof.
  intros N (mid & (a & b & E) & He).
  symmetry in E. apply app_eq_nil in E as [_ E]. apply app_eq_nil in E as [E _].
  subst mid. destruct stop; [contradiction|discriminate He].
Qed.

Lemma fieldOf_lazy_no_stop (marker : regex) (stop s x : jsstring) :
  stop <> [] ->
  fieldOf (strMatch s (sectionRe marker (chars stop))) = Return x ->
  ~ containsIgnoreCase stop x.
Proof.
  intros N. unfold fieldOf, group1Trim.
  destruct (strMatch s _) as [m|] eqn:E.
  - destruct (sectionRe_capture_no_stop _ _ N E) as (c & -> & Hn).
    intros [= <-]. eapply no_contains_infix; [apply trim_infix|exact Hn].
  - intros [= <-]. now apply no_contains_nil.
Qed.

Lemma exported_stepsOfText_infix (block x : jsstring) :
  In x (Exported.stepsOfText block) -> infix x block.
Proof.
  unfold Exported.stepsOfText. rewrite filter_In, in_map_iff.
  intros [(line & <- & L) _].
  eapply infix_trans; [apply exported_cleanStep_infix|]. now apply split_infix in L.
Qed.

(** X4: in the exported parser no heading leaks into a field.  For every
    string, the fixed markup and every step of the result contain no [###],
    and neither does the explanation unless the result is the fallback
    record. *)
Theorem exported_fields_have_no_heading (s : jsstring) :
  exists r,
    Exported.parseSuggestion (JString s) = Return r
    /\ (r = fallbackRecord s \/ ~ containsIgnoreCase (u16 "###") (explanation r))
    /\ ~ containsIgnoreCase (u16 "###") (fixedHTML r)
    /\ (forall x, In x (steps r) -> ~ containsIgnoreCase (u16 "###") x).
Proof.
  assert (N : u16 "###" <> []) by discriminate.
  destruct (exported_parseString_cases s)
    as (e & f & st & w & He & Hf & Hst & _ & _ & E).
  cbn [Exported.parseSuggestion]. rewrite E. eexists. split; [reflexivity|].
  apply (fieldOf_lazy_no_stop _ _ N) in He.
  apply (fieldOf_lazy_no_stop _ _ N) in Hf.
  destruct (isEmpty e && isEmpty f); simpl.
  - split; [now left|]. split; [now apply no_contains_nil|]. intros x [].
  - split; [now right|]. split; [exact Hf|].
    intros x Hx. unfold Exported.stepsOf, group1Trim in Hst.
    change Exported.reSteps with (sectionRe (lit "### Implementation Steps") (chars (u16 "###")))
      in Hst.
    destruct (strMatch s _) as [m|] eqn:Em.
    + destruct (sectionRe_capture_no_stop _ _ N Em) as (c & Hc & Hn).
      rewrite Hc in Hst. simpl in Hst. injection Hst as <-.
      apply exported_stepsOfText_infix in Hx.
      eapply no_contains_infix; [|exact Hn].
      eapply infix_trans; [exact Hx|apply trim_infix].
    + injection Hst as <-. destruct Hx.
Qed.

(** ** A heading with nothing after it *)

Lemma toUpperAscii_hash (d : codeunit) : toUpperAscii d = hash -> d = hash.
Proof.
  unfold toUpperAscii, inRange, hash.
  destruct ((97 <=? d)%N && (d <=? 122)%N) eqn:R; [|auto].
  apply andb_true_iff in R as [R1 R2]. apply N.leb_le in R1, R2. lia.
Qed.

Lemma existsb_skipn (c : codeunit) (n : nat) (l1 l2 : jsstring) :
  n <= length l1 -> existsb (N.eqb c) (skipn n (l1 ++ c :: l2)) = true.
Proof.
  intros H. rewrite skipn_app.
  replace (n - length l1) with 0 by lia.
  rewrite existsb_app. cbn [skipn existsb]. rewrite N.eqb_refl. apply orb_true_r.
Qed.

(** A heading pattern cannot match when no [#] follows the first three code
    units: its lookahead needs a [###] after the marker. *)
Lemma heading_needs_later_hash (marker : regex) (s : jsstring) :
  consumes marker = true ->
  existsb (N.eqb hash) (skipn 3 s) = false ->
  strMatch s (sectionRe marker (lit "###")) = None.
Proof.
  intros C H. destruct (strMatch s _) as [m|] eqn:E; [|reflexivity]. exfalso.
  apply sectionRe_anatomy in E
    as (pre & mk & c & rest' & Hs & (st1 & H1 & F1) & _ & _ & _ & S & _).
  apply matcher_consumes in H1; [|exact C]. rewrite F1 in H1. cbn [fst] in H1.
  apply startsWithIgnoreCase_iff in S as (mid & x & -> & He).
  unfold eqIgnoreCase in He.
  destruct mid as [|d1 [|d2 [|d3 [|d4 mid]]]]; try discriminate He.
  injection He as _ _ S3. apply toUpperAscii_hash in S3. subst d3.
  assert (E : s = (pre ++ mk ++ c ++ [d1; d2]) ++ hash :: x).
  { rewrite Hs, <- !app_assoc. reflexivity. }
  rewrite E, existsb_skipn in H; [discriminate H|].
  rewrite !length_app in *. simpl. lia.
Qed.

(** X5: a section needs a heading after it.  When no [#] occurs in the
    input after its first three code units (for instance a single
    [### Concise Technical Explanation] heading followed by plain text) and
    the numbered labels of the first two sections do not occur, nothing is
    recognised and the whole input, heading included, is returned as
    explanation. *)
Theorem lone_heading_falls_back (s : jsstring) :
  s <> [] ->
  existsb (N.eqb hash) (skipn 3 s) = false ->
  test (markerRe ResultsView.explanationLabel) s = false ->
  test (markerRe ResultsView.fixedLabel) s = false ->
  ResultsView.parseSuggestion (JString s) = Return (Some (fallbackRecord s)).
Proof.
  intros N H L1 L2. rewrite (rv_parseSuggestion_string N).
  destruct (rv_parseString_cases s) as (e & f & st & w & He & Hf & _ & _ & _ & ->).
  unfold ResultsView.explanationMatch, ResultsView.fixedHTMLMatch in He, Hf.
  unfold ResultsView.reExplanationHeading, ResultsView.reExplanationLabel,
    ResultsView.reFixedHeading, ResultsView.reFixedLabel in He, Hf.
  rewrite heading_needs_later_hash in He by (reflexivity || exact H).
  rewrite heading_needs_later_hash in Hf by (reflexivity || exact H).
  rewrite sectionRe_needs_marker in He by exact L1.
  rewrite sectionRe_needs_marker in Hf by exact L2.
  simpl in He, Hf. injection He as <-. injection Hf as <-. reflexivity.
Qed.

Lemma lone_heading_falls_back_witness :
  ResultsView.parseSuggestion
    (JString (u16 "### Concise Technical Explanation" ++ [LF]
              ++ u16 "Missing alt attribute."))
  = Return (Some (fallbackRecord (u16 "### Concise Technical Explanation" ++ [LF]
                                  ++ u16 "Missing alt attribute."))).
Proof.
  apply lone_heading_falls_back.
  - vm_compute. discriminate.
  - vm_compute. reflexivity.
  - vm_compute. reflexivity.
  - vm_compute. reflexivity.
Defined.

(** ** The exported parser on absent input *)

(** X6: the exported parser has no guard.  It throws a TypeError exactly on
    an absent ([undefined] or [null]) suggestion, and returns a record for
    every string, the empty one included. *)
Theorem exported_throws_iff_absent (v : jsval) :
  (Exported.parseSuggestion v = TypeError <-> v = JUndefined \/ v = JNull)
  /\ (Exported.parseSuggestion v = TypeError
      \/ exists r, Exported.parseSuggestion v = Return r).
Proof.
  destruct v as [| |s].
  - split; [split; auto|now left].
  - split; [split; auto|now left].
  - destruct (exported_parseString_cases s)
      as (e & f & st & w & _ & _ & _ & _ & _ & E).
    cbn [Exported.parseSuggestion]. rewrite E. split.
    + split; [discriminate|]. intros [H|H]; discriminate H.
    + right. eauto.
Qed.

(** ** Lines that start with whitespace *)

Lemma trimStart_nil_blank (s : jsstring) :
  trimStart s = [] -> forallb isWhiteSpace s = true.
Proof.
  induction s as [|c s IH]; simpl; [reflexivity|].
  destruct (isWhiteSpace c); [exact IH|discriminate].
Qed.

Lemma forallb_rev (p : codeunit -> bool) (s : jsstring) :
  forallb p (rev s) = forallb p s.
Proof.
  induction s as [|c s IH]; simpl; [reflexivity|].
  rewrite forallb_app, IH. simpl. rewrite andb_true_r. apply andb_comm.
Qed.

Lemma trim_nonempty_head (c : codeunit) (rest : jsstring) :
  isWhiteSpace c = false -> trim (c :: rest) <> [].
Proof.
  intros W E. unfold trim, trimEnd in E. simpl in E. rewrite W in E.
  assert (E' : trimStart (rev (c :: rest)) = []).
  { destruct (trimStart (rev (c :: rest))); [reflexivity|].
    simpl in E. apply app_eq_nil in E as [_ E]. discriminate E. }
  apply trimStart_nil_blank in E'. rewrite forallb_rev in E'.
  simpl in E'. rewrite W in E'. discriminate E'.
Qed.



(** ** What the two implementations can differ in *)

Lemma bullet_not_digit (c : codeunit) : isBullet c = true -> isDigit c = false.
Proof.
  intros B. destruct (isDigit c) eqn:D; [|reflexivity].
  apply digit_not_bullet in D. congruence.
Qed.

Lemma bullet_not_space (c : codeunit) : isBullet c = true -> isWhiteSpace c = false.
Proof.
  intros B. destruct (isWhiteSpace c) eqn:W; [|reflexivity].
  apply space_not_bullet in W. congruence.
Qed.

(** A line whose step the component keeps is kept by the exported parser
    too. *)
Lemma kept_step_kept_by_exported (line : jsstring) :
  ResultsView.keepStep (ResultsView.cleanStep line) = true ->
  Exported.keepStep (Exported.cleanStep line) = true.
Proof.
  destruct (startsWithBullet line) eqn:B.
  - intros _. destruct line as [|c rest]; [discriminate B|]. simpl in B.
    unfold Exported.cleanStep. change Exported.reOrdinal with ResultsView.reOrdinal.
    rewrite strip_ordinal_no_digit by now apply bullet_not_digit.
    unfold Exported.keepStep. apply Nat.ltb_lt.
    pose proof (@trim_nonempty_head c rest (bullet_not_space _ B)) as T.
    destruct (trim (c :: rest)); [contradiction|simpl; lia].
  - rewrite (rv_cleanStep_no_bullet _ B).
    unfold ResultsView.keepStep, Exported.keepStep.
    intros H. now apply andb_true_iff in H as [H _].
Qed.

Lemma filter_map_length_le (A B : Type) (p q : B -> bool) (f g : A -> B) (l : list A) :
  (forall x, p (f x) = true -> q (g x) = true) ->
  length (filter p (map f l)) <= length (filter q (map g l)).
Proof.
  intros H. induction l as [|x l IH]; simpl; [lia|].
  destruct (p (f x)) eqn:P.
  - rewrite (H x P). simpl. lia.
  - destruct (q (g x)); simpl; lia.
Qed.

Lemma stepsOf_length_le (m : option MatchResult) (st st' : list jsstring) :
  ResultsView.stepsOf m = Return st -> Exported.stepsOf m = Return st' ->
  length st <= length st'.
Proof.
  unfold ResultsView.stepsOf, Exported.stepsOf, group1Trim.
  destruct m as [r|].
  - destruct (group1 r) as [c|]; [|discriminate].
    simpl. intros [= <-] [= <-].
    apply filter_map_length_le. intros line. apply kept_step_kept_by_exported.
  - intros [= <-] [= <-]. simpl. lia.
Qed.

(** X8: on heading-convention input the two implementations can differ only
    in the steps.  For a non-empty input with no numbered label, they take
    the fallback in the same cases and agree on explanation, fixed markup and
    reference; the component returns at most as many steps as the exported
    parser. *)
Theorem implementations_differ_only_in_steps (s : jsstring) :
  s <> [] ->
  headingOnly s = true ->
  exists r r',
    ResultsView.parseSuggestion (JString s) = Return (Some r)
    /\ Exported.parseSuggestion (JString s) = Return r'
    /\ explanation r = explanation r' /\ fixedHTML r = fixedHTML r'
    /\ wcag r = wcag r'
    /\ (r = fallbackRecord s <-> r' = fallbackRecord s)
    /\ length (steps r) <= length (steps r').
Proof.
  intros N H. rewrite (rv_parseSuggestion_string N).
  destruct (rv_parseString_cases s)
    as (e & f & st & w & He & Hf & Hst & Hw & Hl & ->).
  destruct (exported_parseString_cases s)
    as (e' & f' & st' & w' & He' & Hf' & Hst' & Hw' & _ & E').
  cbn [Exported.parseSuggestion]. rewrite E'.
  destruct (headingOnly_matches s H) as (Me & Mf & Ms & Mw).
  rewrite Me in He. rewrite Mf in Hf. rewrite Ms in Hst. rewrite Mw in Hw.
  assert (e' = e) by congruence. assert (f' = f) by congruence.
  assert (w' = w) by congruence. subst e' f' w'.
  pose proof (stepsOf_length_le _ Hst Hst') as L.
  simpl. do 2 eexists. split; [reflexivity|]. split; [reflexivity|].
  destruct (isEmpty e && isEmpty f) eqn:B; simpl.
  - repeat split; auto.
  - repeat split; auto.
    + intros [= E1 E2 _ _]. exfalso. destruct Hl as [Hl|Hl].
      * subst e. now apply N.
      * rewrite E1 in Hl. lia.
    + intros [= E1 E2 _ _]. exfalso. destruct Hl as [Hl|Hl].
      * subst e. now apply N.
      * rewrite E1 in Hl. lia.
Qed.

Lemma implementations_differ_only_in_steps_witness :
  exists r r',
    ResultsView.parseSuggestion (JString (headingTemplate [u16 "- Do X"; u16 "-"]))
    = Return (Some r)
    /\ Exported.parseSuggestion (JString (headingTemplate [u16 "- Do X"; u16 "-"]))
       = Return r'
    /\ explanation r = explanation r' /\ fixedHTML r = fixedHTML r'
    /\ wcag r = wcag r'
    /\ length (steps r) <= length (steps r').
Proof.
  destruct (@implementations_differ_only_in_steps
              (headingTemplate [u16 "- Do X"; u16 "-"]))
    as (r & r' & H1 & H2 & H3 & H4 & H5 & _ & H7).
  - vm_compute. discriminate.
  - vm_compute. reflexivity.
  - exists r, r'. auto 10.
Defined.

(** ** A step line in the specification's words *)

Lemma starGreedy_elems (p : codeunit -> bool) (rest x : jsstring) :
  In x (starGreedy p rest) ->
  x = dropWhile p rest \/ exists c x', x = c :: x' /\ p c = true.
Proof.
  induction rest as [|c rest IH]; simpl.
  - intros [<-|[]]. now left.
  - destruct (p c) eqn:E.
    + rewrite in_app_iff. intros [H|[<-|[]]]; [now apply IH|]. right. eauto.
    + intros [<-|[]]. now left.
Qed.

Lemma flat_map_nil (A B : Type) (f : A -> list B) (l : list A) :
  (forall x, In x l -> f x = []) -> flat_map f l = [].
Proof.
  induction l as [|x l IH]; simpl; [reflexivity|]. intros H.
  rewrite (H x) by now left. apply IH. intros y Hy. apply H. now right.
Qed.

Lemma dropWhile_split (p : codeunit -> bool) (s : jsstring) :
  exists run, s = run ++ dropWhile p s /\ forallb p run = true.
Proof.
  induction s as [|c s (run & E & F)]; simpl.
  - now exists [].
  - destruct (p c) eqn:Ec.
    + exists (c :: run). simpl. rewrite Ec, F. split; [now f_equal|reflexivity].
    + now exists [].
Qed.

Lemma dropWhile_head (p : codeunit -> bool) (s : jsstring) (c : codeunit) (rest : jsstring) :
  dropWhile p s = c :: rest -> p c = false.
Proof.
  induction s as [|d s IH]; simpl; [discriminate|].
  destruct (p d) eqn:E; [exact IH|]. now intros [= <- _].
Qed.

Lemma digit_not_period (c : codeunit) : isDigit c = true -> (c =? 46)%N = false.
Proof.
  unfold isDigit, inRange. rewrite andb_true_iff, !N.leb_le. intros [H _].
  apply N.eqb_neq. lia.
Qed.

(** The ordinal pattern cuts the digits at the start of a line, the period
    after them and the whitespace after it, and nothing when the digits are
    not followed by a period. *)
Lemma ordinal_no_period (d : codeunit) (rest0 : jsstring) :
  isDigit d = true ->
  match dropWhile isDigit rest0 with
  | c :: _ => (c =? 46)%N = false
  | [] => True
  end ->
  matcher false (d :: rest0)
          (Cat (Plus (Class [ClsDigit]))
               (Cat (Atom (Chr 46)) (Star (Class [ClsSpace]))))
          (d :: rest0, None) = [].
Proof.
  intros Dd T. cbn [matcher fst snd]. rewrite digit_atom, Dd.
  apply flat_map_nil. intros st Hst. apply in_map_iff in Hst as (x & <- & Hx).
  assert (H : match x with c :: _ => (c =? 46)%N = false | [] => True end).
  { apply starGreedy_elems in Hx as [->|(c & x' & -> & Pc)].
    - now rewrite dropWhile_ext with (q := isDigit) by apply digit_atom.
    - rewrite digit_atom in Pc. now apply digit_not_period. }
  cbn [matcher fst snd]. destruct x as [|c x]; [reflexivity|].
  cbn [atomMatches canonicalize]. now rewrite H.
Qed.

(** The ordinal pattern cuts the digits at the start of a line, the period
    after them and the whitespace after it, and nothing when the digits are
    not followed by a period. *)
Lemma strip_ordinal (line : jsstring) :
  strReplaceEmpty line ResultsView.reOrdinal = withoutOrdinal line.
Proof.
  destruct line as [|d rest0]; [reflexivity|]. unfold withoutOrdinal.
  destruct (isDigit d) eqn:Dd; [|now apply strip_ordinal_no_digit].
  destruct (dropWhile_split isDigit (d :: rest0)) as (run & E & F).
  assert (R : run <> []).
  { intros ->. simpl in E. rewrite Dd in E.
    pose proof (f_equal (@length _) E) as L. simpl in L.
    destruct (dropWhile_split isDigit rest0) as (run' & E' & _).
    rewrite E' in L at 1. rewrite length_app in L. lia. }
  destruct (dropWhile isDigit (d :: rest0)) as [|c rest] eqn:T.
  - unfold ResultsView.reOrdinal. rewrite strReplaceEmpty_anchored.
    rewrite ordinal_no_period; [reflexivity|exact Dd|].
    simpl in T. rewrite Dd in T. now rewrite T.
  - destruct (c =? 46)%N eqn:C.
    + apply N.eqb_eq in C. subst c. rewrite E.
      rewrite strip_ordinal_numbered by assumption. apply trimStart_dropWhile.
    + unfold ResultsView.reOrdinal. rewrite strReplaceEmpty_anchored.
      rewrite ordinal_no_period; [reflexivity|exact Dd|].
      simpl in T. rewrite Dd in T. now rewrite T.
Qed.

Lemma strip_bullet_spec (line : jsstring) :
  strReplaceEmpty line ResultsView.reBullet = withoutBullet line.
Proof.
  rewrite strip_bullet. destruct line as [|g rest]; [reflexivity|].
  unfold withoutBullet. now rewrite trimStart_dropWhile.
Qed.

(** The function mapped over the lines is the line-to-step function of the
    specification. *)
Lemma rv_cleanStep_spec (line : jsstring) :
  ResultsView.cleanStep line = specStep line.
Proof.
  unfold ResultsView.cleanStep, specStep. now rewrite strip_bullet_spec, strip_ordinal.
Qed.

(** ** Matching a section pattern at a known place *)

Lemma starLazy_head (p : codeunit -> bool) (rest : jsstring) :
  exists tl, starLazy p rest = rest :: tl.
Proof. destruct rest; simpl; eauto. Qed.

(** The lazy group followed by the lookahead ends where the closing marker
    first begins. *)
Lemma lazy_forward (input stop : jsstring) (cap : option jsstring)
      (whole pre c rest' : jsstring) :
  whole = pre ++ c ++ rest' ->
  startsWithIgnoreCase stop rest' = true ->
  (forall a b, c = a ++ b -> b <> [] ->
               startsWithIgnoreCase stop (b ++ rest') = false) ->
  exists tl,
    flat_map (matcher true input (Ahead (chars stop)))
      (map (fun st0 : state =>
              (fst st0, Some (firstn (length whole - length (fst st0)) whole)))
           (map (fun r : jsstring => (r, cap))
                (starLazy (atomMatches true anyChar) (c ++ rest'))))
    = (rest', Some (pre ++ c)) :: tl.
Proof.
  revert pre. induction c as [|x c IH]; intros pre W S M.
  - cbn [app]. destruct (starLazy_head (atomMatches true anyChar) rest') as [tl ->].
    cbn [map flat_map fst]. rewrite ahead_chars. cbn [fst]. rewrite S.
    cbn [app]. rewrite W. cbn [app]. rewrite firstn_before, app_nil_r. eauto.
  - cbn [app starLazy]. rewrite anyChar_matches. cbn [map flat_map fst].
    rewrite ahead_chars. cbn [fst].
    assert (M0 := M [] (x :: c) eq_refl ltac:(discriminate)). cbn [app] in M0.
    rewrite M0. cbn [app].
    destruct (IH (pre ++ [x])) as [tl E].
    + rewrite W, <- app_assoc. reflexivity.
    + exact S.
    + intros a b -> Hb. exact (M (x :: a) b eq_refl Hb).
    + rewrite E, <- app_assoc. eauto.
Qed.

Section ExecFacts.
Variable ic : bool.
Variable input : jsstring.

Lemma execFrom_head (r : regex) (rest : jsstring) (st' : state) (tl : list state) :
  matcher ic input r (rest, None) = st' :: tl ->
  execFrom ic input r rest
  = Some {| index := length input - length rest; after := fst st'; group1 := snd st' |}.
Proof. intros E. destruct rest; cbn [execFrom]; now rewrite E. Qed.

Lemma execFrom_cons (r : regex) (c : codeunit) (rest : jsstring) :
  execFrom ic input r (c :: rest)
  = match matcher ic input r (c :: rest, None) with
    | st' :: _ =>
        Some {| index := length input - length (c :: rest);
                after := fst st'; group1 := snd st' |}
    | [] => execFrom ic input r rest
    end.
Proof. reflexivity. Qed.

Lemma execFrom_skip (r : regex) (pre rest0 : jsstring) :
  (forall a b, pre = a ++ b -> b <> [] ->
               matcher ic input r (b ++ rest0, None) = []) ->
  execFrom ic input r (pre ++ rest0) = execFrom ic input r rest0.
Proof.
  induction pre as [|c pre IH]; intros H; [reflexivity|].
  assert (H0 := H [] (c :: pre) eq_refl ltac:(discriminate)). cbn [app] in H0.
  cbn [app]. rewrite execFrom_cons, H0.
  apply IH. intros a b -> Hb. exact (H (c :: a) b eq_refl Hb).
Qed.

End ExecFacts.

Lemma sectionRe_exec_at (input : jsstring) (marker : regex)
      (stop pre mk c rest' : jsstring) :
  (forall a b, pre = a ++ b -> b <> [] ->
               matcher true input marker (b ++ mk ++ c ++ rest', None) = []) ->
  (exists tl, matcher true input marker (mk ++ c ++ rest', None)
              = (c ++ rest', None) :: tl) ->
  startsWithIgnoreCase stop rest' = true ->
  (forall a b, c = a ++ b -> b <> [] ->
               startsWithIgnoreCase stop (b ++ rest') = false) ->
  exists m,
    execFrom true input (source (sectionRe marker (chars stop)))
             (pre ++ mk ++ c ++ rest') = Some m
    /\ group1 m = Some c.
Proof.
  intros Early [tl At] S M. cbn [source sectionRe].
  rewrite execFrom_skip.
  - destruct (@lazy_forward input stop None (c ++ rest') [] c rest' eq_refl S M)
      as [tl' L].
    assert (E : exists tl2,
               matcher true input
                       (Cat marker (Cat (Group (StarLazy anyChar)) (Ahead (chars stop))))
                       (mk ++ c ++ rest', None)
               = (rest', Some c) :: tl2).
    { change (matcher true input
                      (Cat marker (Cat (Group (StarLazy anyChar)) (Ahead (chars stop))))
                      (mk ++ c ++ rest', None))
        with (flat_map (matcher true input
                                (Cat (Group (StarLazy anyChar)) (Ahead (chars stop))))
                       (matcher true input marker (mk ++ c ++ rest', None))).
      rewrite At. cbn [flat_map].
      change (matcher true input (Cat (Group (StarLazy anyChar)) (Ahead (chars stop)))
                      (c ++ rest', None))
        with (flat_map (matcher true input (Ahead (chars stop)))
                (map (fun st0 : state =>
                        (fst st0,
                         Some (firstn (length (c ++ rest') - length (fst st0))
                                      (c ++ rest'))))
                     (map (fun r : jsstring => (r, @None jsstring))
                          (starLazy (atomMatches true anyChar) (c ++ rest'))))).
      rewrite L. cbn [app]. eauto. }
    destruct E as [tl2 E]. erewrite execFrom_head; [|exact E].
    eexists. split; reflexivity.
  - intros a b Hab Hb. cbn [matcher]. now rewrite (Early a b Hab Hb).
Qed.

(** A lazy section pattern on an input where its marker first matches after
    [pre], takes [mk], and the closing marker first begins after [c]. *)
Lemma sectionRe_match_at (marker : regex) (stop s pre mk c rest' : jsstring) :
  s = pre ++ mk ++ c ++ rest' ->
  (forall a b, pre = a ++ b -> b <> [] ->
               matcher true s marker (b ++ mk ++ c ++ rest', None) = []) ->
  (exists tl, matcher true s marker (mk ++ c ++ rest', None) = (c ++ rest', None) :: tl) ->
  startsWithIgnoreCase stop rest' = true ->
  (forall a b, c = a ++ b -> b <> [] ->
               startsWithIgnoreCase stop (b ++ rest') = false) ->
  exists m, strMatch s (sectionRe marker (chars stop)) = Some m /\ group1 m = Some c.
Proof.
  intros Hs Early At S M. unfold strMatch. cbn [ignoreCase sectionRe].
  destruct (@sectionRe_exec_at s marker stop pre mk c rest' Early At S M) as (m & E & G).
  exists m. split; [|exact G]. rewrite <- E. now rewrite <- Hs.
Qed.

Lemma dropWhile_all (p : codeunit -> bool) (s : jsstring) :
  (forall c, p c = true) -> dropWhile p s = [].
Proof. intros H. induction s as [|c s IH]; simpl; [reflexivity|]. now rewrite H. Qed.

(** The last section pattern on an input where its marker first matches
    after [pre] and leaves [c]: the greedy group takes all of [c]. *)
Lemma lastSectionRe_match_at (marker : regex) (s pre mk c : jsstring) :
  s = pre ++ mk ++ c ->
  (forall a b, pre = a ++ b -> b <> [] ->
               matcher true s marker (b ++ mk ++ c, None) = []) ->
  (exists tl, matcher true s marker (mk ++ c, None) = (c, None) :: tl) ->
  exists m, strMatch s (lastSectionRe marker) = Some m /\ group1 m = Some c.
Proof.
  intros Hs Early [tl At]. unfold strMatch. cbn [source lastSectionRe ignoreCase].
  assert (E : exists tl2,
             matcher true s (Cat marker (Group (Star anyChar))) (mk ++ c, None)
             = ([], Some c) :: tl2).
  { change (matcher true s (Cat marker (Group (Star anyChar))) (mk ++ c, None))
      with (flat_map (matcher true s (Group (Star anyChar)))
                     (matcher true s marker (mk ++ c, None))).
    rewrite At. cbn [flat_map matcher fst snd].
    destruct (starGreedy_first (atomMatches true anyChar) c) as [tl1 ->].
    rewrite dropWhile_all by apply anyChar_matches.
    cbn [map app fst length]. rewrite Nat.sub_0_r, firstn_all. eauto. }
  destruct E as [tl2 E].
  assert (X : execFrom true s (Cat marker (Group (Star anyChar))) (pre ++ mk ++ c)
              = Some {| index := length s - length (mk ++ c); after := [];
                        group1 := Some c |}).
  { rewrite execFrom_skip.
    - erewrite execFrom_head; [|exact E]. reflexivity.
    - intros a b Hab Hb.
      change (matcher true s (Cat marker (Group (Star anyChar))) (b ++ mk ++ c, None))
        with (flat_map (matcher true s (Group (Star anyChar)))
                       (matcher true s marker (b ++ mk ++ c, None))).
      now rewrite (Early a b Hab Hb). }
  exists {| index := length s - length (mk ++ c); after := []; group1 := Some c |}.
  split; [|reflexivity]. rewrite <- X. now rewrite <- Hs.
Qed.

(** ** The first place where a marker begins *)

(** A prefix of [b ++ rest] up to case lies within [b] or runs into [rest]. *)
Lemma startsWith_app_cases (p b rest : jsstring) :
  startsWithIgnoreCase p (b ++ rest) = true ->
  startsWithIgnoreCase p b = true
  \/ exists p1 p2, p = p1 ++ p2 /\ p2 <> [] /\ length p1 = length b
                   /\ startsWithIgnoreCase p2 rest = true.
Proof.
  revert b. induction p as [|c p IH]; intros b H.
  - now left.
  - destruct b as [|d b].
    + right. exists [], (c :: p). repeat split; [discriminate|exact H].
    + cbn [app startsWithIgnoreCase] in H. apply andb_true_iff in H as [Hd H].
      destruct (IH b H) as [L|(p1 & p2 & -> & N & Len & S)].
      * left. cbn [startsWithIgnoreCase]. now rewrite Hd, L.
      * right. exists (c :: p1), p2. repeat split; [exact N|simpl; now f_equal|exact S].
Qed.

(** When [pre] does not contain the marker and what follows [pre] begins
    with a code unit that the marker has at its start only, the marker
    begins nowhere in [pre]. *)
Lemma no_earlier_start (p pre rest : jsstring) :
  match rest with
  | d :: _ =>
      forallb (fun c => negb (toUpperAscii d =? toUpperAscii c)%N) (tl p) = true
  | [] => True
  end ->
  ~ containsIgnoreCase p pre ->
  forall a b, pre = a ++ b -> b <> [] ->
              startsWithIgnoreCase p (b ++ rest) = false.
Proof.
  intros O N a b -> Hb.
  destruct (startsWithIgnoreCase p (b ++ rest)) eqn:E; [|reflexivity].
  exfalso. apply startsWith_app_cases in E as [E|(p1 & p2 & -> & N2 & Len & S)].
  - apply N. apply startsWithIgnoreCase_iff in E as (mid & post & -> & He).
    exists mid. split; [|exact He]. exists a, post. reflexivity.
  - destruct p1 as [|c1 p1]; [destruct b; [contradiction|discriminate Len]|].
    destruct p2 as [|c2 p2]; [contradiction|].
    destruct rest as [|d rest]; [discriminate S|].
    cbn [startsWithIgnoreCase] in S. apply andb_true_iff in S as [S _].
    cbn [app tl] in O. rewrite forallb_forall in O.
    specialize (O c2). rewrite S in O.
    assert (I : In c2 (p1 ++ c2 :: p2)) by (apply in_or_app; right; now left).
    specialize (O I). discriminate O.
Qed.

Lemma startsWithIgnoreCase_refl (p x : jsstring) :
  startsWithIgnoreCase p (p ++ x) = true.
Proof.
  induction p as [|c p IH]; [reflexivity|].
  cbn [app startsWithIgnoreCase]. now rewrite N.eqb_refl, IH.
Qed.

Lemma skipn_exact (p x : jsstring) : skipn (length p) (p ++ x) = x.
Proof. induction p as [|c p IH]; [reflexivity|exact IH]. Qed.

(** A marker made of pattern characters, whose first one does not occur
    again in it, at the place where it first occurs. *)
Lemma chars_marker_at (input p pre rest : jsstring) :
  match p with
  | c0 :: p' =>
      forallb (fun c => negb (toUpperAscii c0 =? toUpperAscii c)%N) p' = true
  | [] => True
  end ->
  ~ containsIgnoreCase p pre ->
  (forall a b, pre = a ++ b -> b <> [] ->
               matcher true input (chars p) (b ++ p ++ rest, None) = [])
  /\ exists tl, matcher true input (chars p) (p ++ rest, None) = (rest, None) :: tl.
Proof.
  intros O N.
  assert (O' : match p ++ rest with
               | d :: _ =>
                   forallb (fun c => negb (toUpperAscii d =? toUpperAscii c)%N) (tl p)
                   = true
               | [] => True
               end).
  { destruct p as [|c0 p']; [|exact O].
    exfalso. apply N. exists []. split; [exists [], pre; reflexivity|reflexivity]. }
  split.
  - intros a b Hab Hb. rewrite matcher_chars. cbn [fst].
    rewrite (@no_earlier_start p pre (p ++ rest) O' N a b Hab Hb). reflexivity.
  - exists []. rewrite matcher_chars. cbn [fst snd].
    now rewrite startsWithIgnoreCase_refl, skipn_exact.
Qed.

(** ** The numbered-label layout *)

Lemma ruleChar_atom (c : codeunit) :
  isRuleChar c = true ->
  atomMatches true (Class [ClsWord; ClsChar 45]) c = true.
Proof.
  unfold isRuleChar. intros H. cbn [atomMatches existsb itemMatches].
  rewrite orb_false_r, H. reflexivity.
Qed.

Lemma matcher_cat (ic : bool) (input : jsstring) (r1 r2 : regex) (st : state) :
  matcher ic input (Cat r1 r2) st
  = flat_map (matcher ic input r2) (matcher ic input r1 st).
Proof. reflexivity. Qed.

(** The first label matches at the start of the layout and takes the label,
    its rule name included. *)
Lemma explanationLabel_at (input rule rest : jsstring) :
  ruleName rule = true ->
  exists tl,
    matcher true input ResultsView.explanationLabel
            (explanationLabelText rule ++ rest, None)
    = (rest, None) :: tl.
Proof.
  unfold ruleName. rewrite andb_true_iff, negb_true_iff. intros [N R].
  destruct rule as [|r0 rule]; [discriminate N|].
  cbn [forallb] in R. apply andb_true_iff in R as [R0 R].
  unfold ResultsView.explanationLabel, explanationLabelText, lit.
  rewrite <- !app_assoc. rewrite matcher_cat, matcher_chars. cbn [fst snd].
  rewrite startsWithIgnoreCase_refl, skipn_exact. cbn [flat_map]. rewrite app_nil_r.
  rewrite matcher_cat.
  assert (P : exists tl1,
             matcher true input (Plus (Class [ClsWord; ClsChar 45]))
                     ((r0 :: rule) ++ u16 " violation" ++ rest, None)
             = (u16 " violation" ++ rest, None) :: tl1).
  { cbn [app matcher fst snd]. rewrite (ruleChar_atom _ R0).
    destruct (starGreedy_first (atomMatches true (Class [ClsWord; ClsChar 45]))
                               (rule ++ u16 " violation" ++ rest)) as [tl1 ->].
    assert (D : dropWhile (atomMatches true (Class [ClsWord; ClsChar 45]))
                          (rule ++ u16 " violation" ++ rest)
                = u16 " violation" ++ rest).
    { change (u16 " violation" ++ rest) with (32%N :: u16 "violation" ++ rest).
      apply dropWhile_run; [|reflexivity].
      apply forallb_forall. intros c Hc. apply ruleChar_atom.
      rewrite forallb_forall in R. now apply R. }
    rewrite D. cbn [map]. eauto. }
  destruct P as [tl1 ->]. cbn [flat_map]. rewrite matcher_chars. cbn [fst snd].
  rewrite startsWithIgnoreCase_refl, skipn_exact. cbn [app]. eauto.
Qed.

(** The reference label with its colon. *)
Lemma wcagLabel_at (input pre rest : jsstring) :
  ~ containsIgnoreCase wcagLabelText pre ->
  (forall a b, pre = a ++ b -> b <> [] ->
               matcher true input ResultsView.wcagLabel
                       (b ++ (wcagLabelText ++ u16 ":") ++ rest, None) = [])
  /\ exists tl,
      matcher true input ResultsView.wcagLabel
              ((wcagLabelText ++ u16 ":") ++ rest, None)
      = (rest, None) :: tl.
Proof.
  intros N.
  destruct (@chars_marker_at input wcagLabelText pre (u16 ":" ++ rest) eq_refl N)
    as [Early [tl At]].
  unfold ResultsView.wcagLabel, lit. fold wcagLabelText. split.
  - intros a b Hab Hb. rewrite matcher_cat, <- app_assoc.
    now rewrite (Early a b Hab Hb).
  - rewrite matcher_cat, <- app_assoc, At. cbn [flat_map].
    change (u16 ":" ++ rest) with (58%N :: rest).
    cbn [matcher fst snd atomMatches canonicalize]. rewrite N.eqb_refl.
    cbn [app]. eauto.
Qed.

Lemma noHeadingMarkers_matches (s : jsstring) :
  noHeadingMarkers s = true ->
  ResultsView.explanationMatch s = strMatch s ResultsView.reExplanationLabel
  /\ ResultsView.fixedHTMLMatch s = strMatch s ResultsView.reFixedLabel
  /\ ResultsView.stepsMatch s = strMatch s ResultsView.reStepsLabel
  /\ ResultsView.wcagMatch s = strMatch s ResultsView.reWcagLabel.
Proof.
  unfold noHeadingMarkers, headingMarkers. cbn [forallb].
  rewrite !andb_true_iff, !negb_true_iff. intros (E & F & S & W & _).
  unfold ResultsView.explanationMatch, ResultsView.fixedHTMLMatch,
    ResultsView.stepsMatch, ResultsView.wcagMatch.
  unfold ResultsView.reExplanationHeading, ResultsView.reFixedHeading,
    ResultsView.reStepsHeading, ResultsView.reWcagHeading.
  rewrite !sectionRe_needs_marker by assumption.
  rewrite lastSectionRe_needs_marker by assumption.
  repeat split.
Qed.

Lemma not_contains_prefix (p q x : jsstring) :
  ~ containsIgnoreCase p x -> ~ containsIgnoreCase (p ++ q) x.
Proof.
  intros N (mid & (a & b & ->) & He). apply N.
  unfold eqIgnoreCase in He. rewrite map_app in He.
  exists (firstn (length p) mid). split.
  - exists a, (skipn (length p) mid ++ b).
    rewrite <- (firstn_skipn (length p) mid) at 1. now rewrite <- !app_assoc.
  - unfold eqIgnoreCase. rewrite <- firstn_map, He.
    rewrite <- (length_map toUpperAscii p), firstn_app, Nat.sub_diag, firstn_all.
    simpl. apply app_nil_r.
Qed.

(** C4 (amended): an input in the numbered-label layout (the first label with
    the name of a rule, the explanation text, the label [2. Fixed HTML code],
    the markup, the label [3. Implementation steps], the steps block,
    [WCAG reference:] and the reference) in which no heading marker occurs,
    [2.] does not occur before the second label, [3.] does not occur in the
    markup, the third label does not occur before its place and
    [WCAG reference] does not occur before the reference label, in any letter
    case, is parsed into the trimmed text, the trimmed markup, the steps of
    the lines of the trimmed block (bullet and ordinal prefix stripped,
    trimmed, the empty ones and those containing "implementation steps" left
    out) and the trimmed reference.  When text and markup are both blank the
    fallback record is returned instead. *)
Theorem label_layout_parses (rule text markup stepsText reference : jsstring) :
  ruleName rule = true ->
  noHeadingMarkers (labelLayout rule text markup stepsText reference) = true ->
  ~ containsIgnoreCase (u16 "2.") (explanationLabelText rule ++ text) ->
  ~ containsIgnoreCase (u16 "3.") markup ->
  ~ containsIgnoreCase stepsLabelText
      (explanationLabelText rule ++ text ++ fixedLabelText ++ markup) ->
  ~ containsIgnoreCase wcagLabelText
      (explanationLabelText rule ++ text ++ fixedLabelText ++ markup
       ++ stepsLabelText ++ stepsText) ->
  ResultsView.parseSuggestion
    (JString (labelLayout rule text markup stepsText reference))
  = Return
      (Some (if isEmpty (trim text) && isEmpty (trim markup)
             then fallbackRecord (labelLayout rule text markup stepsText reference)
             else {| explanation := trim text;
                     fixedHTML := trim markup;
                     steps := filter ResultsView.keepStep
                                     (map specStep (split LF (trim stepsText)));
                     wcag := trim reference |})).
Proof.
  intros R H N2 N3 NS NW.
  set (s := labelLayout rule text markup stepsText reference) in *.
  destruct (noHeadingMarkers_matches _ H) as (ME & MF & MS & MW).
  assert (E1 : fieldOf (ResultsView.explanationMatch s) = Return (trim text)).
  { rewrite ME.
    destruct (@sectionRe_match_at ResultsView.explanationLabel (u16 "2.") s []
                (explanationLabelText rule) text
                (fixedLabelText ++ markup ++ stepsLabelText ++ stepsText
                 ++ wcagLabelText ++ u16 ":" ++ reference))
      as (m & Em & G);
      [| | | | |change (strMatch s ResultsView.reExplanationLabel)
                 with (strMatch s (sectionRe ResultsView.explanationLabel
                                             (chars (u16 "2."))));
               rewrite Em; unfold fieldOf, group1Trim; now rewrite G].
    - reflexivity.
    - intros a b Hab Hb. symmetry in Hab. apply app_eq_nil in Hab as [_ ->].
      contradiction.
    - apply explanationLabel_at, R.
    - reflexivity.
    - apply no_earlier_start; [reflexivity|].
      eapply no_contains_infix; [|exact N2]. apply infix_suffix. }
  assert (E2 : fieldOf (ResultsView.fixedHTMLMatch s) = Return (trim markup)).
  { rewrite MF.
    assert (NF : ~ containsIgnoreCase fixedLabelText (explanationLabelText rule ++ text))
      by (apply (@not_contains_prefix (u16 "2.") (u16 " Fixed HTML code")), N2).
    destruct (@chars_marker_at s fixedLabelText (explanationLabelText rule ++ text)
                (markup ++ stepsLabelText ++ stepsText
                 ++ wcagLabelText ++ u16 ":" ++ reference) eq_refl NF)
      as [Early At].
    destruct (@sectionRe_match_at ResultsView.fixedLabel (u16 "3.") s
                (explanationLabelText rule ++ text)
                fixedLabelText markup
                (stepsLabelText ++ stepsText ++ wcagLabelText ++ u16 ":" ++ reference))
      as (m & Em & G);
      [| | | | |change (strMatch s ResultsView.reFixedLabel)
                 with (strMatch s (sectionRe ResultsView.fixedLabel
                                             (chars (u16 "3."))));
               rewrite Em; unfold fieldOf, group1Trim; now rewrite G].
    - unfold s, labelLayout. now rewrite <- !app_assoc.
    - exact Early.
    - exact At.
    - reflexivity.
    - apply no_earlier_start; [reflexivity|exact N3]. }
  assert (E3 : ResultsView.stepsOf (ResultsView.stepsMatch s)
               = Return (ResultsView.stepsOfText (trim stepsText))).
  { rewrite MS.
    destruct (@chars_marker_at s stepsLabelText
                (explanationLabelText rule ++ text ++ fixedLabelText ++ markup)
                (stepsText ++ wcagLabelText ++ u16 ":" ++ reference) eq_refl NS)
      as [Early At].
    destruct (@sectionRe_match_at ResultsView.stepsLabel wcagLabelText s
                (explanationLabelText rule ++ text ++ fixedLabelText ++ markup)
                stepsLabelText stepsText
                (wcagLabelText ++ u16 ":" ++ reference))
      as (m & Em & G);
      [| | | | |change (strMatch s ResultsView.reStepsLabel)
                 with (strMatch s (sectionRe ResultsView.stepsLabel
                                             (chars wcagLabelText)));
               rewrite Em; unfold ResultsView.stepsOf, group1Trim; now rewrite G].
    - unfold s, labelLayout. now rewrite <- !app_assoc.
    - exact Early.
    - exact At.
    - reflexivity.
    - apply no_earlier_start; [reflexivity|].
      eapply no_contains_infix; [|exact NW].
      exists (explanationLabelText rule ++ text ++ fixedLabelText ++ markup
              ++ stepsLabelText), []. now rewrite app_nil_r, <- !app_assoc. }
  assert (E4 : fieldOf (ResultsView.wcagMatch s) = Return (trim reference)).
  { rewrite MW.
    destruct (@wcagLabel_at s
                (explanationLabelText rule ++ text ++ fixedLabelText ++ markup
                 ++ stepsLabelText ++ stepsText) reference NW)
      as [Early At].
    destruct (@lastSectionRe_match_at ResultsView.wcagLabel s
                (explanationLabelText rule ++ text ++ fixedLabelText ++ markup
                 ++ stepsLabelText ++ stepsText)
                (wcagLabelText ++ u16 ":") reference)
      as (m & Em & G);
      [| | |change (strMatch s ResultsView.reWcagLabel)
             with (strMatch s (lastSectionRe ResultsView.wcagLabel));
           rewrite Em; unfold fieldOf, group1Trim; now rewrite G].
    - unfold s, labelLayout. now rewrite <- !app_assoc.
    - exact Early.
    - exact At. }
  rewrite rv_parseSuggestion_string.
  - unfold ResultsView.parseString. rewrite E1, E2, E3, E4. cbn [bind].
    destruct (isEmpty (trim text) && isEmpty (trim markup)); [reflexivity|].
    unfold ResultsView.stepsOfText.
    rewrite (map_ext _ _ rv_cleanStep_spec). reflexivity.
  - unfold s, labelLayout, explanationLabelText. discriminate.
Qed.

Lemma not_contains_test (p x : jsstring) :
  test (markerRe (chars p)) x = false -> ~ containsIgnoreCase p x.
Proof. intros H C. apply test_chars_iff in C. congruence. Qed.

(** C4, as stated, fails when the placeholders of the scenario stand for
    text of this kind: the lazy group of the first label pattern ends at the
    first [2.] of the input, so an explanation that mentions a ratio of 2.5:1
    is cut before the number and is not the text between the two labels. *)
Lemma label_text_cut_at_first_ordinal :
  labelRatioInput
  = labelLayout (u16 "color-contrast")
                ([LF] ++ u16 "The ratio is 2.5:1." ++ [LF])
                ([LF] ++ u16 "<p class=" ++ quote ++ u16 "lead" ++ quote
                      ++ u16 ">Welcome</p>" ++ [LF])
                ([LF] ++ u16 "1. Darken the text" ++ [LF])
                (u16 " 1.4.3")
  /\ ResultsView.parseSuggestion (JString labelRatioInput)
     = Return (Some {| explanation := u16 "The ratio is";
                       fixedHTML := u16 "<p class=" ++ quote ++ u16 "lead" ++ quote
                                        ++ u16 ">Welcome</p>";
                       steps := [u16 "Darken the text"];
                       wcag := u16 "1.4.3" |})
  /\ u16 "The ratio is" <> trim ([LF] ++ u16 "The ratio is 2.5:1." ++ [LF]).
Proof.
  split; [vm_compute; reflexivity|]. split; [vm_compute; reflexivity|].
  vm_compute. discriminate.
Qed.

Lemma label_layout_parses_witness :
  ResultsView.parseSuggestion (JString labelScenario) = Return (Some labelScenarioResult)
  /\ ResultsView.parseSuggestion (JString labelSample) = Return (Some labelSampleResult).
Proof.
  split.
  - change labelScenario
      with (labelLayout (u16 "color-contrast")
                        ([LF] ++ u16 "...text..." ++ [LF])
                        ([LF] ++ u16 "...markup..." ++ [LF])
                        ([LF] ++ u16 "..." ++ [LF])
                        (u16 " 1.4.3")).
    rewrite label_layout_parses.
    + vm_compute. reflexivity.
    + reflexivity.
    + vm_compute. reflexivity.
    + apply not_contains_test. vm_compute. reflexivity.
    + apply not_contains_test. vm_compute. reflexivity.
    + apply not_contains_test. vm_compute. reflexivity.
    + apply not_contains_test. vm_compute. reflexivity.
  - change labelSample
      with (labelLayout (u16 "color-contrast")
              ([LF] ++ u16 "The text is too light for its background (ratio 1.9:1)."
                    ++ [LF])
              ([LF] ++ u16 "<p class=" ++ quote ++ u16 "lead" ++ quote
                    ++ u16 ">Welcome</p>" ++ [LF])
              ([LF] ++ u16 "1. Darken the text colour" ++ [LF]
                    ++ u16 "- Check the ratio again" ++ [LF] ++ [LF]
                    ++ u16 "Implementation steps:" ++ [LF])
              (u16 " 1.4.3 Contrast (Minimum)")).
    rewrite label_layout_parses.
    + vm_compute. reflexivity.
    + reflexivity.
    + vm_compute. reflexivity.
    + apply not_contains_test. vm_compute. reflexivity.
    + apply not_contains_test. vm_compute. reflexivity.
    + apply not_contains_test. vm_compute. reflexivity.
    + apply not_contains_test. vm_compute. reflexivity.
Defined.

(** ** The lines of the steps section in the returned record *)









(** * The component around the parser *)

(** ** The "Recommended Fix" box *)

Lemma truthy_iff (v : jsval) : truthy v = true <-> exists c s, v = JString (c :: s).
Proof.
  destruct v as [| |[|c s]]; simpl; split; try discriminate; eauto.
  all: intros (c' & s' & H); discriminate H.
Qed.

Lemma rv_parse_null_iff (v : jsval) :
  ResultsView.parseSuggestion v = Return None <-> truthy v = false.
Proof.
  destruct v as [| |[|c s]]; simpl; try tauto.
  assert (N : c :: s <> []) by discriminate.
  change (ResultsView.parseSuggestion (JString (c :: s)) = Return None <-> true = false).
  rewrite (rv_parseSuggestion_string N).
  destruct (rv_parseString_cases (c :: s)) as (e & f & st & w & _ & _ & _ & _ & _ & ->).
  simpl. split; discriminate.
Qed.

Lemma parsedChildren_show (s : jsstring) (p : sections) :
  s <> [] ->
  ResultsView.parseSuggestion (JString s) = Return (Some p) ->
  parsedChildren p <> [] /\ forall c, In c (parsedChildren p) -> showsText c.
Proof.
  intros N. rewrite (rv_parseSuggestion_string N).
  destruct (rv_parseString_shape s) as (e & f & st & w & -> & _ & _ & _ & Hst).
  simpl. intros [= <-]. unfold parsedChildren.
  destruct (isEmpty e && isEmpty f) eqn:B; cbn [explanation fixedHTML steps wcag fallbackRecord].
  - destruct s as [|c s]; [contradiction|]. simpl. split; [discriminate|].
    intros x [<-|[]]. simpl. discriminate.
  - split.
    + destruct e; [destruct f; [discriminate B|]|]; simpl; discriminate.
    + intros c Hc. repeat (apply in_app_or in Hc as [Hc|Hc]).
      * destruct e; simpl in Hc; [contradiction|]. destruct Hc as [<-|[]].
        simpl. discriminate.
      * destruct f; simpl in Hc; [contradiction|]. destruct Hc as [<-|[]].
        simpl. discriminate.
      * destruct st as [|x st]; simpl in Hc; [contradiction|]. destruct Hc as [<-|[]].
        simpl. split; [discriminate|].
        intros y Hy. now destruct (Hst y Hy) as (_ & Ny & _).
      * destruct w; simpl in Hc; [contradiction|]. destruct Hc as [<-|[]].
        simpl. discriminate.
Qed.

(** X9: the "Recommended Fix" box of a violation is never empty and never
    throws.  It holds either the blocks of the parsed suggestion, at least
    one and each with text to show, or one paragraph of plain text; the
    plain text is shown exactly when the suggestion text is absent or empty,
    and is then the fallback text if there is one and "No suggestion
    available" otherwise, never the suggestion text itself. *)
Theorem violation_fix_never_empty (o : option suggestionInfo) :
  exists children,
    violationFix o = Return children
    /\ children <> []
    /\ (forall c, In c children -> showsText c)
    /\ (truthy (optSuggestion o) = false ->
        children = [PlainText (if truthy (optFallback o) then optFallback o
                               else noSuggestionAvailable)])
    /\ (truthy (optSuggestion o) = true ->
        forall v, ~ In (PlainText v) children).
Proof.
  unfold violationFix.
  destruct (truthy (optSuggestion o)) eqn:T.
  - apply truthy_iff in T as (c & s & E). rewrite E.
    assert (N : c :: s <> []) by discriminate.
    pose proof (@parsedChildren_show (c :: s)) as P.
    rewrite (rv_parseSuggestion_string N) in *.
    destruct (ResultsView.parseString (c :: s)) as [p|] eqn:Ep.
    + simpl in *. destruct (P p N eq_refl) as [P1 P2].
      exists (parsedChildren p). repeat split; try assumption; try discriminate.
      intros _ v Hv. unfold parsedChildren in Hv.
      repeat (apply in_app_or in Hv as [Hv|Hv]).
      * destruct (isEmpty (explanation p)); simpl in Hv; [|destruct Hv as [Hv|Hv]];
          try contradiction; discriminate Hv.
      * destruct (isEmpty (fixedHTML p)); simpl in Hv; [|destruct Hv as [Hv|Hv]];
          try contradiction; discriminate Hv.
      * destruct (0 <? length (steps p)); simpl in Hv; [destruct Hv as [Hv|Hv]|];
          try contradiction; discriminate Hv.
      * destruct (isEmpty (wcag p)); simpl in Hv; [|destruct Hv as [Hv|Hv]];
          try contradiction; discriminate Hv.
    + exfalso. destruct (rv_parseString_cases (c :: s))
        as (e & f & st & w & _ & _ & _ & _ & _ & Ec). congruence.
  - pose proof (proj2 (rv_parse_null_iff (optSuggestion o)) T) as E. rewrite E. simpl.
    unfold jsOr at 1. rewrite T. unfold jsOr.
    eexists. split; [reflexivity|]. split; [discriminate|]. split.
    + intros c [<-|[]]. simpl. destruct (truthy (optFallback o)) eqn:F; [exact F|reflexivity].
    + split; [reflexivity|discriminate].
Qed.

(** X10: a screen-reader issue never shows the fallback text.  Its box is
    rendered exactly when the suggestion text is a non-empty string, and then
    holds the same blocks as the box of a violation with that suggestion;
    with an absent or empty text nothing is rendered, whatever the fallback
    says. *)
Theorem screen_reader_fix_needs_text (o : option suggestionInfo) :
  (screenReaderFix o = Return None <-> truthy (optSuggestion o) = false)
  /\ (screenReaderFix o = Return None
      \/ exists children,
          screenReaderFix o = Return (Some children)
          /\ violationFix o = Return children).
Proof.
  unfold screenReaderFix, violationFix.
  destruct (truthy (optSuggestion o)) eqn:T.
  - apply truthy_iff in T as (c & s & E). rewrite E.
    assert (N : c :: s <> []) by discriminate.
    rewrite (rv_parseSuggestion_string N).
    destruct (rv_parseString_cases (c :: s))
      as (e & f & st & w & _ & _ & _ & _ & _ & ->).
    simpl. split; [split; discriminate|]. right. eauto.
  - pose proof (proj2 (rv_parse_null_iff (optSuggestion o)) T) as E. rewrite E. simpl.
    split; [tauto|now left].
Qed.

(** ** The name of the PDF download *)

Lemma matcher_chars_exact (input p : jsstring) (st : state) :
  matcher false input (chars p) st
  = if startsWithExact p (fst st)
    then [(skipn (length p) (fst st), snd st)] else [].
Proof.
  revert st. induction p as [|c p IH]; intros [rest cap]; simpl.
  - reflexivity.
  - destruct rest as [|d rest]; simpl; [reflexivity|].
    destruct (d =? c)%N; simpl; [|reflexivity].
    rewrite IH, app_nil_r. reflexivity.
Qed.

Lemma startsWithExact_iff (p s : jsstring) :
  startsWithExact p s = true <-> exists rest, s = p ++ rest.
Proof.
  revert s. induction p as [|c p IH]; intros s; simpl.
  - split; [|reflexivity]. intros _. now exists s.
  - destruct s as [|d s].
    + split; [discriminate|]. intros (rest & H). discriminate H.
    + rewrite andb_true_iff, N.eqb_eq, IH. split.
      * intros (-> & rest & ->). now exists rest.
      * intros (rest & [= -> ->]). split; [reflexivity|]. now exists rest.
Qed.

(** The scheme pattern matches at the start exactly the two lower-case
    schemes. *)
Lemma scheme_match (url : jsstring) (st' : state) :
  In st' (matcher false url
            (Cat (lit "http") (Cat (Opt (Chr 115)) (lit "://"))) (url, None)) ->
  (exists rest, url = u16 "http://" ++ rest) \/ (exists rest, url = u16 "https://" ++ rest).
Proof.
  intros H. cbn [matcher] in H.
  apply in_flat_map in H as (st1 & H1 & H).
  unfold lit in H1. rewrite matcher_chars_exact in H1. cbn [fst snd] in H1.
  destruct (startsWithExact (u16 "http") url) eqn:S; [|contradiction].
  apply startsWithExact_iff in S as (r & ->).
  destruct H1 as [<-|[]].
  apply in_flat_map in H as (st2 & H2 & H).
  unfold lit in H. rewrite matcher_chars_exact in H.
  destruct (startsWithExact (u16 "://") (fst st2)) eqn:S2; [|contradiction].
  apply startsWithExact_iff in S2 as (rest & E2).
  change (skipn (length (u16 "http")) (u16 "http" ++ r)) with r in H2.
  cbn [matcher fst snd] in H2.
  destruct r as [|c r].
  - destruct H2 as [<-|[]]. discriminate E2.
  - cbn [atomMatches canonicalize] in H2. destruct (c =? 115)%N eqn:C.
    + apply N.eqb_eq in C. subst c. destruct H2 as [<-|[<-|[]]]; cbn [fst] in E2.
      * right. exists rest. now rewrite E2.
      * left. exists rest. now rewrite E2.
    + destruct H2 as [<-|[]]. cbn [fst] in E2. left. exists rest. now rewrite E2.
Qed.

(** X11: the name of the PDF download.  A leading [http://] or [https://],
    in lower case and once, is cut from the scanned URL; any other URL goes
    into the name unchanged. *)
Theorem download_file_name (url rest : jsstring) :
  downloadFileName (u16 "https://" ++ rest)
  = u16 "accessibility-report-" ++ rest ++ u16 ".pdf"
  /\ downloadFileName (u16 "http://" ++ rest)
     = u16 "accessibility-report-" ++ rest ++ u16 ".pdf"
  /\ ((forall r, url <> u16 "http://" ++ r) ->
      (forall r, url <> u16 "https://" ++ r) ->
      downloadFileName url = u16 "accessibility-report-" ++ url ++ u16 ".pdf").
Proof.
  unfold downloadFileName, reScheme. rewrite !strReplaceEmpty_anchored.
  split; [reflexivity|]. split; [reflexivity|].
  intros H1 H2.
  destruct (matcher false url _ (url, None)) as [|st' tl] eqn:E; [reflexivity|].
  exfalso.
  assert (I : In st' (matcher false url
                        (Cat (lit "http") (Cat (Opt (Chr 115)) (lit "://"))) (url, None))).
  { rewrite E. now left. }
  apply scheme_match in I as [(r & ->)|(r & ->)].
  - now apply (H1 r).
  - now apply (H2 r).
Qed.

Lemma download_file_name_witness :
  downloadFileName (u16 "HTTPS://Example.gov/a")
  = u16 "accessibility-report-HTTPS://Example.gov/a.pdf"
  /\ downloadFileName (u16 "http://http://example.gov")
     = u16 "accessibility-report-http://example.gov.pdf".
Proof.
  split.
  - apply (proj2 (proj2 (download_file_name (u16 "HTTPS://Example.gov/a") []))).
    + intros r H. discriminate H.
    + intros r H. discriminate H.
  - exact (proj1 (proj2 (download_file_name [] (u16 "http://example.gov")))).
Defined.

(** * Severity counts and the chart *)

Lemma strEqb_eq (a b : jsstring) : strEqb a b = true <-> a = b.
Proof.
  revert b. induction a as [|c a IH]; intros [|d b]; simpl; split; try congruence.
  - rewrite andb_true_iff, N.eqb_eq, IH. now intros [-> ->].
  - intros [= -> ->]. rewrite N.eqb_refl. now apply IH.
Qed.

Lemma strEqb_refl (a : jsstring) : strEqb a a = true.
Proof. now apply strEqb_eq. Qed.

Lemma strEqb_neq (a b : jsstring) : strEqb a b = false <-> a <> b.
Proof.
  split.
  - intros H E. apply strEqb_eq in E. congruence.
  - intros H. destruct (strEqb a b) eqn:E; [|reflexivity]. apply strEqb_eq in E. contradiction.
Qed.

Lemma lookupOwn_setOwn (k k' : jsstring) (v : counterValue) (o : countsObject) :
  lookupOwn k (setOwn k' v o) = if strEqb k k' then Some v else lookupOwn k o.
Proof.
  induction o as [|[k0 v0] o IH]; simpl.
  - reflexivity.
  - destruct (strEqb k' k0) eqn:E0; simpl.
    + apply strEqb_eq in E0. subst k0. now destruct (strEqb k k').
    + rewrite IH. destruct (strEqb k k0) eqn:E1; [|reflexivity].
      apply strEqb_eq in E1. subst k0.
      destruct (strEqb k k') eqn:E2; [|reflexivity].
      apply strEqb_eq in E2. subst k'. rewrite strEqb_refl in E0. discriminate E0.
Qed.

Lemma occurrences_cons (k s : jsstring) (vs : list jsstring) :
  occurrences k (s :: vs)
  = if strEqb k s then (1 + occurrences k vs)%N else occurrences k vs.
Proof.
  unfold occurrences. cbn [filter]. destruct (strEqb k s); [|reflexivity].
  cbn [length]. rewrite Nat2N.inj_succ. lia.
Qed.

Section SeverityCountFacts.
Variable inherited : jsstring -> option inheritedProperty.

Lemma countSeverity_lookup (acc : countsObject) (s k : jsstring) :
  allCounts acc ->
  lookupOwn s acc <> None \/ inherited s = None ->
  lookupOwn k (countSeverity inherited acc s)
  = if strEqb k s
    then Some (Count (match lookupOwn s acc with
                      | Some (Count n) => n + 1
                      | _ => 1
                      end))
    else lookupOwn k acc.
Proof.
  intros A H. unfold countSeverity.
  destruct (lookupOwn s acc) as [[n|]|] eqn:L.
  - apply lookupOwn_setOwn.
  - now contradiction (A s).
  - destruct H as [H|H]; [contradiction|]. rewrite H. apply lookupOwn_setOwn.
Qed.

Lemma countSeverity_allCounts (acc : countsObject) (s : jsstring) :
  allCounts acc ->
  lookupOwn s acc <> None \/ inherited s = None ->
  allCounts (countSeverity inherited acc s).
Proof.
  intros A H k. rewrite (countSeverity_lookup k A H).
  destruct (strEqb k s); [discriminate|apply A].
Qed.

Lemma countSeverities_lookup (vs : list jsstring) (acc : countsObject) (k : jsstring) :
  allCounts acc ->
  (forall s, In s vs -> lookupOwn s acc <> None \/ inherited s = None) ->
  lookupOwn k (fold_left (countSeverity inherited) vs acc) = countedValue acc vs k.
Proof.
  revert acc. induction vs as [|s vs IH]; intros acc A H.
  - unfold countedValue. simpl. destruct (lookupOwn k acc) as [[n|]|]; try reflexivity.
    unfold occurrences. simpl. now rewrite N.add_0_r.
  - assert (Hs : lookupOwn s acc <> None \/ inherited s = None) by (apply H; now left).
    simpl. rewrite IH.
    + unfold countedValue. rewrite (countSeverity_lookup k A Hs), occurrences_cons.
      destruct (strEqb k s) eqn:E.
      * apply strEqb_eq in E. subst s.
        destruct (lookupOwn k acc) as [[n|]|] eqn:L.
        -- f_equal. f_equal. lia.
        -- now contradiction (A k).
        -- destruct (1 + occurrences k vs =? 0)%N eqn:Z;
             [apply N.eqb_eq in Z; lia|reflexivity].
      * reflexivity.
    + now apply countSeverity_allCounts.
    + intros s' Hs'. destruct (H s' (or_intror Hs')) as [H'|H']; [left|now right].
      rewrite (@countSeverity_lookup acc s s' A Hs).
      destruct (strEqb s' s); [discriminate|exact H'].
Qed.

End SeverityCountFacts.

Lemma sumCounts_app (a b : list counterValue) :
  sumCounts (a ++ b) = (sumCounts a + sumCounts b)%N.
Proof.
  induction a as [|v a IH]; simpl; [reflexivity|].
  rewrite IH. destruct v; lia.
Qed.

Lemma sum_setOwn_increment (k : jsstring) (n : N) (o : countsObject) :
  lookupOwn k o = Some (Count n) ->
  sumCounts (map snd (setOwn k (Count (n + 1)) o)) = (sumCounts (map snd o) + 1)%N.
Proof.
  induction o as [|[k0 v0] o IH]; simpl; [discriminate|].
  destruct (strEqb k k0).
  - intros [= ->]. simpl. lia.
  - intros H. simpl. rewrite (IH H). destruct v0; lia.
Qed.

Lemma sum_setOwn_new (k : jsstring) (o : countsObject) :
  lookupOwn k o = None ->
  sumCounts (map snd (setOwn k (Count 1) o)) = (sumCounts (map snd o) + 1)%N.
Proof.
  induction o as [|[k0 v0] o IH]; simpl; [reflexivity|].
  destruct (strEqb k k0); [discriminate|].
  intros H. simpl. rewrite (IH H). destruct v0; lia.
Qed.

Lemma keys_setOwn (k : jsstring) (v : counterValue) (o : countsObject) :
  lookupOwn k o <> None -> map fst (setOwn k v o) = map fst o.
Proof.
  induction o as [|[k0 v0] o IH]; simpl; [contradiction|].
  destruct (strEqb k k0); [reflexivity|].
  intros H. simpl. now rewrite (IH H).
Qed.

Section SeverityCountTotals.
Variable inherited : jsstring -> option inheritedProperty.

Lemma countSeverity_sum (acc : countsObject) (s : jsstring) :
  allCounts acc ->
  lookupOwn s acc <> None \/ inherited s = None ->
  sumCounts (map snd (countSeverity inherited acc s))
  = (sumCounts (map snd acc) + 1)%N.
Proof.
  intros A H. unfold countSeverity.
  destruct (lookupOwn s acc) as [[n|]|] eqn:L.
  - now apply sum_setOwn_increment.
  - now contradiction (A s).
  - destruct H as [H|H]; [contradiction|]. rewrite H. now apply sum_setOwn_new.
Qed.

Lemma countSeverities_sum (vs : list jsstring) (acc : countsObject) :
  allCounts acc ->
  (forall s, In s vs -> lookupOwn s acc <> None \/ inherited s = None) ->
  sumCounts (map snd (fold_left (countSeverity inherited) vs acc))
  = (sumCounts (map snd acc) + N.of_nat (length vs))%N.
Proof.
  revert acc. induction vs as [|s vs IH]; intros acc A H.
  - simpl. lia.
  - assert (Hs : lookupOwn s acc <> None \/ inherited s = None) by (apply H; now left).
    cbn [fold_left length]. rewrite IH.
    + rewrite (@countSeverity_sum acc s A Hs), Nat2N.inj_succ. lia.
    + now apply countSeverity_allCounts.
    + intros s' Hs'. destruct (H s' (or_intror Hs')) as [H'|H']; [left|now right].
      rewrite (@countSeverity_lookup inherited acc s s' A Hs).
      destruct (strEqb s' s); [discriminate|exact H'].
Qed.

Lemma countSeverities_keys (vs : list jsstring) (acc : countsObject) :
  allCounts acc ->
  (forall s, In s vs -> lookupOwn s acc <> None) ->
  map fst (fold_left (countSeverity inherited) vs acc) = map fst acc.
Proof.
  revert acc. induction vs as [|s vs IH]; intros acc A H; [reflexivity|].
  assert (Hs : lookupOwn s acc <> None) by (apply H; now left).
  cbn [fold_left]. rewrite IH.
  - unfold countSeverity. destruct (lookupOwn s acc) as [[n|]|] eqn:L.
    + apply keys_setOwn. congruence.
    + apply keys_setOwn. congruence.
    + contradiction.
  - apply countSeverity_allCounts; auto.
  - intros s' Hs'. rewrite (@countSeverity_lookup inherited acc s s' A (or_introl Hs)).
    destruct (strEqb s' s); [discriminate|]. apply H. now right.
Qed.

End SeverityCountTotals.

Lemma sumCounts_cons (v : counterValue) (l : list counterValue) :
  sumCounts (v :: l)
  = (match v with Count n => n | NotNumber => 0 end + sumCounts l)%N.
Proof. destruct v; reflexivity. Qed.

Lemma sum_insertByIndex (e : N * (jsstring * counterValue))
      (l : list (N * (jsstring * counterValue))) :
  sumCounts (map snd (map snd (insertByIndex e l)))
  = sumCounts (map snd (map snd (e :: l))).
Proof.
  induction l as [|e' l IH]; [reflexivity|].
  cbn [insertByIndex]. destruct (fst e <=? fst e')%N; [reflexivity|].
  cbn [map] in *. rewrite !sumCounts_cons in *. rewrite IH. lia.
Qed.

Lemma sum_sorted (l : list (N * (jsstring * counterValue))) :
  sumCounts (map snd (map snd (fold_right insertByIndex [] l)))
  = sumCounts (map snd (map snd l)).
Proof.
  induction l as [|e l IH]; [reflexivity|].
  cbn [fold_right]. rewrite sum_insertByIndex.
  cbn [map]. rewrite !sumCounts_cons. now rewrite IH.
Qed.

(** [Object.values] lists every own value once. *)
Lemma sum_objectValues (o : countsObject) :
  sumCounts (objectValues o) = sumCounts (map snd o).
Proof.
  unfold objectValues, objectEntries.
  rewrite map_app, sumCounts_app, sum_sorted.
  unfold indexedEntries, namedEntries.
  induction o as [|[k v] o IH]; [reflexivity|].
  cbn [flat_map filter fst]. destruct (arrayIndex k).
  - cbn [app map snd]. rewrite !sumCounts_cons. lia.
  - cbn [app map snd]. rewrite !sumCounts_cons. lia.
Qed.

Lemma objectEntries_named (o : countsObject) :
  (forall e, In e o -> arrayIndex (fst e) = None) -> objectEntries o = o.
Proof.
  intros H. unfold objectEntries.
  assert (I : indexedEntries o = []).
  { unfold indexedEntries. induction o as [|e o IH]; [reflexivity|].
    cbn [flat_map]. rewrite (H e (or_introl eq_refl)). apply IH.
    intros e' He'. apply H. now right. }
  assert (M : namedEntries o = o).
  { unfold namedEntries. induction o as [|e o IH]; [reflexivity|].
    cbn [filter]. rewrite (H e (or_introl eq_refl)). f_equal. apply IH.
    - intros e' He'. apply H. now right.
    - unfold indexedEntries in *. cbn [flat_map] in I.
      rewrite (H e (or_introl eq_refl)) in I. exact I. }
  rewrite I, M. reflexivity.
Qed.

Lemma initialCounts_allCounts : allCounts initialCounts.
Proof.
  intros k. unfold initialCounts. simpl.
  repeat (match goal with |- context [if ?b then _ else _] => destruct b end;
          try discriminate).
Qed.

Lemma lookupOwn_initialCounts (k : jsstring) :
  lookupOwn k initialCounts = if standardSeverity k then Some (Count 0) else None.
Proof.
  unfold standardSeverity, initialCounts. simpl.
  repeat (match goal with |- context [strEqb k ?x] => destruct (strEqb k x) end;
          try reflexivity).
Qed.

(** X12: the severity counts are exact.  When no severity names a property
    that objects inherit, each of the four standard severities and each
    severity that occurs has a counter, holding the number of violations of
    that severity; no other key has one; and the values the chart reads add
    up to the number of violations. *)
Theorem severity_counts_exact
        (inherited : jsstring -> option inheritedProperty)
        (previous : countsObject) (vs : list jsstring) :
  (forall s, In s vs -> inherited s = None) ->
  (forall k,
      lookupOwn k (countSeverities inherited previous (Some vs))
      = if standardSeverity k || negb (occurrences k vs =? 0)%N
        then Some (Count (occurrences k vs)) else None)
  /\ sumCounts (objectValues (countSeverities inherited previous (Some vs)))
     = N.of_nat (length vs).
Proof.
  intros H. cbn [countSeverities].
  assert (H' : forall s, In s vs ->
                         lookupOwn s initialCounts <> None \/ inherited s = None)
    by (intros s Hs; right; now apply H).
  split.
  - intros k. rewrite (@countSeverities_lookup inherited vs initialCounts k initialCounts_allCounts H').
    unfold countedValue. rewrite lookupOwn_initialCounts.
    destruct (standardSeverity k); [reflexivity|].
    simpl. now destruct (occurrences k vs =? 0)%N.
  - rewrite sum_objectValues.
    now rewrite (@countSeverities_sum inherited vs initialCounts initialCounts_allCounts H').
Qed.

Lemma severity_counts_exact_witness :
  lookupOwn (u16 "serious")
            (countSeverities objectPrototype initialCounts
               (Some [u16 "critical"; u16 "serious"; u16 "critical"]))
  = Some (Count 1)
  /\ lookupOwn (u16 "critical")
               (countSeverities objectPrototype initialCounts
                  (Some [u16 "critical"; u16 "serious"; u16 "critical"]))
     = Some (Count 2)
  /\ sumCounts (objectValues
                  (countSeverities objectPrototype initialCounts
                     (Some [u16 "critical"; u16 "serious"; u16 "critical"])))
     = 3%N.
Proof.
  destruct (@severity_counts_exact objectPrototype initialCounts
              [u16 "critical"; u16 "serious"; u16 "critical"]) as [L S].
  - intros s [<-|[<-|[<-|[]]]]; reflexivity.
  - split; [exact (L (u16 "serious"))|]. split; [exact (L (u16 "critical"))|exact S].
Defined.

(** X13: with standard severities the chart is in step with the colour
    table.  When every violation has one of the four standard severities,
    the keys the chart reads are critical, high, medium, low in this order,
    the values are the numbers of violations of each, and the colour of each
    slice is the one [getSeverityColor] gives its severity. *)
Theorem standard_severities_chart
        (inherited : jsstring -> option inheritedProperty)
        (previous : countsObject) (vs : list jsstring) :
  forallb standardSeverity vs = true ->
  objectKeys (countSeverities inherited previous (Some vs)) = standardKeys
  /\ objectValues (countSeverities inherited previous (Some vs))
     = map (fun k => Count (occurrences k vs)) standardKeys
  /\ map getSeverityColor (objectKeys (countSeverities inherited previous (Some vs)))
     = chartColors.
Proof.
  intros S. cbn [countSeverities].
  assert (Own : forall s, In s vs -> lookupOwn s initialCounts <> None).
  { intros s Hs. rewrite forallb_forall in S. rewrite lookupOwn_initialCounts, (S s Hs).
    discriminate. }
  pose proof (@countSeverities_keys inherited vs initialCounts
                initialCounts_allCounts Own) as K.
  assert (L : forall k,
             lookupOwn k (fold_left (countSeverity inherited) vs initialCounts)
             = countedValue initialCounts vs k).
  { intros k. apply countSeverities_lookup; [apply initialCounts_allCounts|].
    intros s Hs. left. now apply Own. }
  remember (fold_left (countSeverity inherited) vs initialCounts) as o eqn:Eo.
  clear Eo.
  destruct o as [|[k1 v1] [|[k2 v2] [|[k3 v3] [|[k4 v4] [|e5 o]]]]]; try discriminate K.
  injection K as -> -> -> ->.
  assert (E : objectEntries [(u16 "critical", v1); (u16 "high", v2);
                             (u16 "medium", v3); (u16 "low", v4)]
              = [(u16 "critical", v1); (u16 "high", v2);
                 (u16 "medium", v3); (u16 "low", v4)]).
  { apply objectEntries_named. intros e [<-|[<-|[<-|[<-|[]]]]]; reflexivity. }
  unfold objectKeys, objectValues. rewrite E.
  split; [reflexivity|]. split; [|reflexivity].
  pose proof (L (u16 "critical")) as L1. pose proof (L (u16 "high")) as L2.
  pose proof (L (u16 "medium")) as L3. pose proof (L (u16 "low")) as L4.
  unfold countedValue in L1, L2, L3, L4.
  rewrite lookupOwn_initialCounts in L1, L2, L3, L4.
  cbn in L1, L2, L3, L4.
  injection L1 as ->. injection L2 as ->. injection L3 as ->. injection L4 as ->.
  reflexivity.
Qed.

Lemma standard_severities_chart_witness :
  objectKeys (countSeverities objectPrototype initialCounts
                (Some [u16 "high"; u16 "critical"; u16 "high"]))
  = standardKeys
  /\ objectValues (countSeverities objectPrototype initialCounts
                     (Some [u16 "high"; u16 "critical"; u16 "high"]))
     = [Count 1; Count 2; Count 0; Count 0].
Proof.
  destruct (@standard_severities_chart objectPrototype initialCounts
              [u16 "high"; u16 "critical"; u16 "high"] eq_refl) as (K & V & _).
  split; [exact K|exact V].
Defined.








(** * Starting a scan *)

(** X15: the text of a scan error never reaches the screen.  When the scan
    request of a valid URL fails, the form passes the error text (the
    server's [error] or else the exception's message) to [handleError], which
    reads [message] from it: from a string that is [undefined], so the error
    shown is always "Scan failed"; and when no text is available at all the
    read throws, which happens in no other case. *)
Theorem scan_error_text_is_dropped
        (scanReport : Type) (validateUrl : jsstring -> bool)
        (url : jsstring) (responseError message : jsval) (app : appState scanReport) :
  validateUrl url = true ->
  (forall r,
      handleSubmit validateUrl url (ScanRejected scanReport responseError message) app
      = Return r ->
      fst r = true
      /\ scanError (snd r) = JString (u16 "Scan failed")
      /\ isLoading (snd r) = false /\ scanData (snd r) = None
      /\ currentURL (snd r) = url)
  /\ (handleSubmit validateUrl url (ScanRejected scanReport responseError message) app
      = TypeError
      <-> truthy responseError = false /\ (message = JUndefined \/ message = JNull)).
Proof.
  intros V. unfold handleSubmit. rewrite V. cbn [negb].
  destruct responseError as [| |[|c s]], message as [| |m]; cbn;
    (split;
     [ intros r H; try discriminate H; injection H as <-; repeat split
     | split;
       [ intros H; try discriminate H; auto
       | intros [H1 [H2|H2]]; try discriminate H1; try discriminate H2;
         try reflexivity ] ]).
Qed.

Lemma scan_error_text_is_dropped_witness :
  handleSubmit (fun _ => true) (u16 "https://example.gov")
    (ScanRejected unit (JString (u16 "Target site refused the connection"))
                  (JString (u16 "Request failed with status code 500")))
    {| scanData := None; isLoading := false; currentURL := []; scanError := JNull |}
  = Return (true,
            {| scanData := None; isLoading := false;
               currentURL := u16 "https://example.gov";
               scanError := JString (u16 "Scan failed") |})
  /\ forall r,
      handleSubmit (fun _ => true) (u16 "https://example.gov")
        (ScanRejected unit (JString (u16 "Target site refused the connection"))
                      (JString (u16 "Request failed with status code 500")))
        {| scanData := None; isLoading := false; currentURL := []; scanError := JNull |}
      = Return r ->
      scanError (snd r) = JString (u16 "Scan failed").
Proof.
  split; [reflexivity|].
  intros r H.
  exact (proj1 (proj2 (proj1 (@scan_error_text_is_dropped unit (fun _ => true)
                                (u16 "https://example.gov")
                                (JString (u16 "Target site refused the connection"))
                                (JString (u16 "Request failed with status code 500"))
                                _ eq_refl) r H))).
Defined.

(** * The search view *)

Section SearchFacts.
Variables score result date : Type.
Implicit Types (st : searchState score result date) (v : searchView score)
         (n : network score result) (now : date).

(** X16: a search ends with results or with an error, never with both or
    neither.  [handleSearch] makes no request exactly when the semantic tab has
    a blank query, and then only sets the error "Please enter a search query";
    otherwise it makes one request, and when it has finished the loading flag
    is off and an error is set exactly when there are no results to show. *)
Theorem search_ends_with_results_or_error v now n st :
  (snd (handleSearch v now n st) = []
   <-> viewTab v = 0 /\ trim (viewQuery v) = [])
  /\ (snd (handleSearch v now n st) = [] ->
      fst (handleSearch v now n st) = withError (Some enterQuery) st)
  /\ (snd (handleSearch v now n st) <> [] ->
      length (snd (handleSearch v now n st)) = 1
      /\ loading (fst (handleSearch v now n st)) = false
      /\ (error (fst (handleSearch v now n st)) = None
          <-> results (fst (handleSearch v now n st)) <> [])).
Proof.
  unfold handleSearch.
  destruct ((viewTab v =? 0) && isEmpty (trim (viewQuery v))) eqn:B.
  - apply andb_true_iff in B as [B1 B2].
    apply Nat.eqb_eq in B1. apply isEmpty_true in B2.
    simpl. split; [split; [auto|reflexivity]|]. split; [reflexivity|].
    intros H. now contradiction H.
  - assert (NB : ~ (viewTab v = 0 /\ trim (viewQuery v) = [])).
    { intros [H1 H2]. rewrite H1, H2 in B. discriminate B. }
    destruct (viewTab v) as [|[|t]].
    + destruct (postSemantic n (viewQuery v)) as [[|[l|]]|e]; cbn [fst snd];
        (split; [split; [discriminate|tauto]|]);
        (split; [discriminate|]); intros _;
        try (destruct l as [|x l]); simpl; repeat split; try discriminate; congruence.
    + destruct (getCompliance n (viewMinScore v)) as [[|l]|e]; cbn [fst snd];
        (split; [split; [discriminate|tauto]|]);
        (split; [discriminate|]); intros _;
        try (destruct l as [|x l]); simpl; repeat split; try discriminate; congruence.
    + destruct (getViolations n (viewQuery v)) as [[|l]|e]; cbn [fst snd];
        (split; [split; [discriminate|tauto]|]);
        (split; [discriminate|]); intros _;
        try (destruct l as [|x l]); simpl; repeat split; try discriminate; congruence.
Qed.

End SearchFacts.

Section SearchHistoryFacts.
Variables score result date : Type.
Implicit Types (st : searchState score result date) (v : searchView score)
         (n : network score result) (now : date)
         (item : historyItem score date).

(** What a search does to the history. *)
Lemma handleSearch_history v now n st :
  searchHistory (fst (handleSearch v now n st))
  = match recordedItem v now n with
    | Some item => recordSearch item (searchHistory st)
    | None => searchHistory st
    end.
Proof.
  unfold handleSearch, recordedItem.
  destruct ((viewTab v =? 0) && isEmpty (trim (viewQuery v))); [reflexivity|].
  destruct (viewTab v) as [|[|t]].
  - destruct (postSemantic n (viewQuery v)) as [[|[[|x l]|]]|e]; reflexivity.
  - destruct (getCompliance n (viewMinScore v)) as [[|[|x l]]|e]; reflexivity.
  - destruct (getViolations n (viewQuery v)) as [[|[|x l]]|e]; reflexivity.
Qed.

Lemma firstn_app_firstn (A : Type) (k : nat) (a b : list A) :
  firstn k (a ++ firstn k b) = firstn k (a ++ b).
Proof.
  rewrite !firstn_app, firstn_firstn. f_equal. f_equal. lia.
Qed.

Lemma recordSearch_firstn item (h : list (historyItem score date)) :
  recordSearch item h = firstn 5 (item :: h).
Proof. reflexivity. Qed.

Lemma runSearches_history n (calls : list (searchView score * date)) st :
  length (searchHistory st) <= 5 ->
  searchHistory (runSearches n calls st)
  = firstn 5 (rev (flat_map (fun call =>
                               match recordedItem (fst call) (snd call) n with
                               | Some item => [item]
                               | None => []
                               end) calls)
              ++ searchHistory st).
Proof.
  unfold runSearches. revert st. induction calls as [|[v now] calls IH]; intros st L.
  - cbn [fold_left flat_map rev app]. symmetry. apply firstn_all2. exact L.
  - cbn [fold_left flat_map fst snd]. rewrite IH.
    + rewrite handleSearch_history.
      destruct (recordedItem v now n) as [item|].
      * rewrite recordSearch_firstn, firstn_app_firstn.
        cbn [app rev]. rewrite <- app_assoc. reflexivity.
      * reflexivity.
    + rewrite handleSearch_history. destruct (recordedItem v now n) as [item|]; [|exact L].
      unfold recordSearch. cbn [length]. rewrite length_firstn. lia.
Qed.

(** X17: the history holds the five newest searches.  After any run of
    searches the history consists of the entries of those searches whose
    request resolved (whether or not it found anything), newest first, cut
    to five; a blank semantic query and a rejected request leave no entry. *)
Theorem history_keeps_five_newest n (calls : list (searchView score * date)) st :
  searchHistory st = [] ->
  searchHistory (runSearches n calls st)
  = firstn 5 (rev (flat_map (fun call =>
                               match recordedItem (fst call) (snd call) n with
                               | Some item => [item]
                               | None => []
                               end) calls))
  /\ length (searchHistory (runSearches n calls st)) <= 5.
Proof.
  intros E. rewrite runSearches_history by (rewrite E; simpl; lia).
  rewrite E, app_nil_r. split; [reflexivity|]. rewrite length_firstn. lia.
Qed.

(** X18: a history entry brings its search back.  Clicking the entry that a
    search under tab 0, 1 or 2 has recorded selects that tab again and puts
    back what was searched for: the query for a semantic or violation
    search, the minimum score for a compliance search. *)
Theorem history_click_restores_search v now n st item :
  recordedItem v now n = Some item ->
  viewTab v <= 2 ->
  activeTab (fst (clickHistoryItem item st)) = viewTab v
  /\ (viewTab v <> 1 -> query (fst (clickHistoryItem item st)) = viewQuery v)
  /\ (viewTab v = 1 -> minScore (fst (clickHistoryItem item st)) = viewMinScore v).
Proof.
  unfold recordedItem. intros H T.
  destruct ((viewTab v =? 0) && isEmpty (trim (viewQuery v))); [discriminate H|].
  destruct (viewTab v) as [|[|[|t]]]; try lia.
  - destruct (postSemantic n (viewQuery v)); [|discriminate H].
    injection H as <-. simpl. repeat split; congruence.
  - destruct (getCompliance n (viewMinScore v)); [|discriminate H].
    injection H as <-. simpl. repeat split; congruence.
  - destruct (getViolations n (viewQuery v)); [|discriminate H].
    injection H as <-. simpl. repeat split; congruence.
Qed.

(** The requests of a search depend on the captured view only. *)
Lemma handleSearch_requests v now n st st' :
  snd (handleSearch v now n st) = snd (handleSearch v now n st').
Proof.
  unfold handleSearch.
  destruct ((viewTab v =? 0) && isEmpty (trim (viewQuery v))); [reflexivity|].
  destruct (viewTab v) as [|[|t]]; reflexivity.
Qed.

(** X19: the search a click schedules is the one of the state before the
    click.  The [handleSearch] handed to [setTimeout] by a click on a history
    entry or on a violation id has captured tab, query and score from before
    the click, so it makes the requests a search would have made then; in
    particular, on the semantic tab with a blank query, clicking a violation
    id selects the violation tab and fills in the id, but the delayed search
    makes no request and reports "Please enter a search query". *)
Theorem click_runs_the_previous_search (id : jsstring) item now n st :
  snd (thenTimer (clickHistoryItem item st) now n) = snd (handleSearch (viewOf st) now n st)
  /\ snd (thenTimer (clickViolationId id st) now n) = snd (handleSearch (viewOf st) now n st)
  /\ (activeTab st = 0 -> trim (query st) = [] ->
      snd (thenTimer (clickViolationId id st) now n) = []
      /\ activeTab (fst (thenTimer (clickViolationId id st) now n)) = 2
      /\ query (fst (thenTimer (clickViolationId id st) now n)) = id
      /\ error (fst (thenTimer (clickViolationId id st) now n)) = Some enterQuery).
Proof.
  unfold thenTimer. cbn [fst snd clickHistoryItem clickViolationId].
  split; [apply handleSearch_requests|]. split; [apply handleSearch_requests|].
  intros T Q. unfold handleSearch, viewOf. cbn [viewTab viewQuery].
  rewrite T, Q. simpl. repeat split.
Qed.

End SearchHistoryFacts.

Lemma history_click_restores_search_witness :
  activeTab (fst (clickHistoryItem
                    (ViolationItem nat (u16 "image-alt") 7)
                    {| activeTab := 0; query := []; minScore := 80; results := @nil unit;
                       loading := false; error := None; searchHistory := [] |}))
  = 2
  /\ query (fst (clickHistoryItem
                   (ViolationItem nat (u16 "image-alt") 7)
                   {| activeTab := 0; query := []; minScore := 80; results := @nil unit;
                      loading := false; error := None; searchHistory := [] |}))
     = u16 "image-alt".
Proof.
  destruct (@history_click_restores_search nat unit nat
              {| viewTab := 2; viewQuery := u16 "image-alt"; viewMinScore := 80 |}
              7
              {| postSemantic := fun _ => Rejected _ JUndefined;
                 getCompliance := fun _ => Rejected _ JUndefined;
                 getViolations := fun _ => Resolved (ListArray []) |}
              {| activeTab := 0; query := []; minScore := 80; results := @nil unit;
                 loading := false; error := None; searchHistory := [] |}
              (ViolationItem nat (u16 "image-alt") 7) eq_refl) as (H1 & H2 & _).
  - simpl. lia.
  - split; [exact H1|]. apply H2. discriminate.
Defined.

Lemma history_keeps_five_newest_witness :
  length (searchHistory
            (runSearches
               {| postSemantic := fun _ => Resolved (SemanticObject (@None (list unit)));
                  getCompliance := fun _ : nat => Rejected _ JUndefined;
                  getViolations := fun _ => Resolved (ListArray []) |}
               (map (fun t => ({| viewTab := 0; viewQuery := u16 "alt text";
                                  viewMinScore := 80 |}, t)) [1; 2; 3; 4; 5; 6; 7])
               {| activeTab := 0; query := u16 "alt text"; minScore := 80;
                  results := []; loading := false; error := None;
                  searchHistory := [] |}))
  <= 5.
Proof.
  apply (@history_keeps_five_newest nat unit nat). reflexivity.
Defined.

Lemma click_runs_the_previous_search_witness :
  snd (thenTimer
         (clickViolationId (u16 "image-alt")
            {| activeTab := 0; query := []; minScore := 80; results := @nil unit;
               loading := false; error := None; searchHistory := @nil (historyItem nat nat) |})
         1
         {| postSemantic := fun _ => Rejected _ JUndefined;
            getCompliance := fun _ => Rejected _ JUndefined;
            getViolations := fun _ => Resolved (ListArray []) |})
  = [].
Proof.
  refine (proj1 (proj2 (proj2 (@click_runs_the_previous_search nat unit nat
                                 (u16 "image-alt") (SemanticItem nat [] 0) 1 _ _)) _ _));
    reflexivity.
Defined.
